(** * Shared whiteboard: the two server variants over Redis

    [server.js] keeps a per-node cache of the board and fans events out over
    a Redis pub/sub channel; the second server file (the "final version")
    keeps no cache and fans out through the Socket.IO Redis adapter.  Both
    persist strokes in one Redis list.

    The development embeds the handlers of both files over an explicit
    state: the Redis list, the nodes with their sockets, and a chronological
    log of the I/O the handlers perform.  Handlers run to completion one at a
    time; a publication is delivered to every node at the point where it is
    published, so interleavings of concurrent handlers are outside the
    model.

    Neither file catches the rejection of a handler or of a subscriber
    callback.  [step] gives the state at the moment where the handler that
    a command starts has settled, and [settle] says how it settled.  What
    the runtime does with a rejection that nobody handles (Node ends the
    process, unless it is told otherwise) is outside the model as well: a
    run that goes on after a rejection is the run of processes that were
    kept alive. *)

From stdpp Require Import gmap strings list fin_maps pretty.
From Stdlib Require Import ZArith.

Local Set Warnings "-register-all".
Local Open Scope Z_scope.
Local Open Scope string_scope.
Local Open Scope list_scope.

(** ** JavaScript values as they travel through the handlers *)

Module JS.

(** A value that a handler holds: what [JSON.parse] returns (Socket.IO
    payloads, items of the Redis list, channel messages) and the objects the
    handlers build from such values.  [undefined] is not a member; an absent
    argument or property is [None] at the places where the code can see one.
    [JNum z] is a finite number under an integer name, [0] for zero and
    different names for different numbers (its multiple of [2^-1074], say):
    the server never computes with a number, it tests whether it is zero and
    whether two of them are equal.  [JInf] is [Infinity] or [-Infinity],
    which [JSON.parse] returns for a literal beyond the range of a double
    such as [1e999]; no text parses to [NaN].  The fields of an object are
    listed in the order in which JavaScript enumerates its properties. *)
Inductive json : Type :=
| JNull
| JBool (b : bool)
| JNum (z : Z)
| JInf (negative : bool)
| JStr (s : string)
| JArr (xs : list json)
| JObj (fields : list (string * json)).

Inductive error : Type := RedisError | TypeError | SyntaxError.

Inductive result (A : Type) : Type :=
| Ok (a : A)
| Throw (e : error).
Arguments Ok {A} a.
Arguments Throw {A} e.

(** [!!v] *)
Definition truthy (v : json) : bool :=
  match v with
  | JNull => false
  | JBool b => b
  | JNum z => negb (Z.eqb z 0)
  | JInf _ => true
  | JStr s => negb (String.eqb s "")
  | JArr _ | JObj _ => true
  end.

Definition truthy_opt (v : option json) : bool :=
  match v with Some x => truthy x | None => false end.

(** [a === b] on two values that never alias: arrays and objects are
    compared by reference, and every array or object met by the handlers is
    freshly decoded. *)
Definition strict_eq (a b : json) : bool :=
  match a, b with
  | JNull, JNull => true
  | JBool x, JBool y => Bool.eqb x y
  | JNum x, JNum y => Z.eqb x y
  | JInf x, JInf y => Bool.eqb x y
  | JStr x, JStr y => String.eqb x y
  | _, _ => false
  end.

(** [a !== b], either side possibly [undefined]. *)
Definition strict_neq (a b : option json) : bool :=
  match a, b with
  | None, None => false
  | Some x, Some y => negb (strict_eq x y)
  | _, _ => true
  end.

Fixpoint lookup_field (k : string) (fs : list (string * json)) : option json :=
  match fs with
  | [] => None
  | (k', v) :: rest => if String.eqb k' k then Some v else lookup_field k rest
  end.

(** [v.k] for the keys the server reads ([userId], [type], [payload]):
    reading a property of [null] throws, a primitive or an array has none of
    these keys. *)
Definition member (v : json) (k : string) : result (option json) :=
  match v with
  | JNull => Throw TypeError
  | JObj fs => Ok (lookup_field k fs)
  | _ => Ok None
  end.

(** [v?.k] where [v] may be [undefined] as well. *)
Definition opt_member (v : option json) (k : string) : option json :=
  match v with
  | Some (JObj fs) => lookup_field k fs
  | _ => None
  end.

(** One UTF-16 code unit as a string of its own. *)
Definition unit_string (x : N) : string :=
  if (x <? 128)%N then String (Ascii.ascii_of_N x) ""
  else if (x <? 2048)%N then
    String (Ascii.ascii_of_N (192 + x / 64))
      (String (Ascii.ascii_of_N (128 + x mod 64)) "")
  else
    String (Ascii.ascii_of_N (224 + x / 4096))
      (String (Ascii.ascii_of_N (128 + (x / 64) mod 64))
         (String (Ascii.ascii_of_N (128 + x mod 64)) "")).

(** The UTF-16 code units of a string, which is held as its UTF-8 bytes:
    one unit for a character of the basic plane, two surrogates for a
    character beyond it. *)
Fixpoint code_units (s : string) : list N :=
  match s with
  | EmptyString => []
  | String b0 rest =>
      let n0 := Ascii.N_of_ascii b0 in
      if (n0 <? 192)%N then n0 :: code_units rest
      else
        match rest with
        | EmptyString => [n0]
        | String b1 rest1 =>
            let n1 := (Ascii.N_of_ascii b1 mod 64)%N in
            if (n0 <? 224)%N then ((n0 mod 32) * 64 + n1)%N :: code_units rest1
            else
              match rest1 with
              | EmptyString => [n0]
              | String b2 rest2 =>
                  let n2 := (Ascii.N_of_ascii b2 mod 64)%N in
                  if (n0 <? 240)%N
                  then ((n0 mod 16) * 4096 + n1 * 64 + n2)%N :: code_units rest2
                  else
                    match rest2 with
                    | EmptyString => [n0]
                    | String b3 rest3 =>
                        let n3 := (Ascii.N_of_ascii b3 mod 64)%N in
                        let c := ((n0 mod 8) * 262144 + n1 * 4096 + n2 * 64
                                  + n3 - 65536)%N in
                        (55296 + c / 1024)%N :: (56320 + c mod 1024)%N
                          :: code_units rest3
                    end
              end
        end
  end.

(** The indexed properties of a string: one string per code unit. *)
Definition chars (s : string) : list json :=
  (λ x, JStr (unit_string x)) <$> code_units s.

(** The own enumerable properties copied by [{...data}]. *)
Definition own_props (data : option json) : list (string * json) :=
  match data with
  | Some (JObj fs) => fs
  | Some (JArr xs) => imap (λ i x, (pretty i, x)) xs
  | Some (JStr s) => imap (λ i x, (pretty i, x)) (chars s)
  | _ => []
  end.

(** Defining property [k]: an existing key keeps its place. *)
Fixpoint set_field (k : string) (v : json) (fs : list (string * json))
  : list (string * json) :=
  match fs with
  | [] => [(k, v)]
  | (k', v') :: rest =>
      if String.eqb k' k then (k, v) :: rest else (k', v') :: set_field k v rest
  end.

(** [{ ...data, userId }] *)
Definition spread_with_userId (data : option json) (userId : json) : json :=
  JObj (set_field "userId" userId (own_props data)).

Definition is_object (v : json) : bool :=
  match v with JObj _ => true | _ => false end.

(** The stroke's [userId] property, and whether it is strictly equal to
    [u]. *)
Definition userId_of (s : json) : option json :=
  match s with JObj fs => lookup_field "userId" fs | _ => None end.

Definition authored_by (u : json) (s : json) : bool :=
  match userId_of s with Some v => strict_eq v u | None => false end.

(** [s.toUpperCase()] and [s.slice(0, 5)] below are those of a string of
    ASCII characters, where a byte is a code unit: they are applied to
    socket ids, which Socket.IO draws from the base64url alphabet. *)
Definition upper_ascii (c : Ascii.ascii) : Ascii.ascii :=
  let n := Ascii.nat_of_ascii c in
  if (97 <=? n)%nat && (n <=? 122)%nat then Ascii.ascii_of_nat (n - 32) else c.

Fixpoint toUpperCase (s : string) : string :=
  match s with
  | EmptyString => EmptyString
  | String c rest => String (upper_ascii c) (toUpperCase rest)
  end.

(** [s.slice(0, 5)] *)
Definition slice_0_5 (s : string) : string := String.substring 0 5 s.

(** [JSON.parse(JSON.stringify(v))]: the copy of [v] that comes back from
    the Redis list or from the channel.  JSON has no text for a number that
    is not finite; [JSON.stringify] writes [null] in its place. *)
Fixpoint through_JSON (v : json) : json :=
  match v with
  | JInf _ => JNull
  | JArr xs => JArr (through_JSON <$> xs)
  | JObj fs => JObj ((λ p, (p.1, through_JSON p.2)) <$> fs)
  | _ => v
  end.

(** [v === JSON.parse(JSON.stringify(v))]: the strings, the finite numbers,
    the booleans and [null].  A number that is not finite comes back as
    [null], an array or an object as another array or object. *)
Definition survives_JSON (v : json) : bool := strict_eq (through_JSON v) v.

(** A second trip through JSON changes nothing. *)
Definition through_JSON_twice :
  ∀ v, through_JSON (through_JSON v) = through_JSON v.
Proof.
  fix IH 1. intros [| | | | |xs|fs]; try reflexivity.
  - change (JArr (through_JSON <$> (through_JSON <$> xs))
            = JArr (through_JSON <$> xs)).
    f_equal. induction xs as [|x xs IHxs]; [reflexivity|].
    rewrite !fmap_cons. by rewrite IH, IHxs.
  - change (JObj ((λ p, (p.1, through_JSON p.2))
                    <$> ((λ p, (p.1, through_JSON p.2)) <$> fs))
            = JObj ((λ p, (p.1, through_JSON p.2)) <$> fs)).
    f_equal. induction fs as [|[k x] fs IHfs]; [reflexivity|].
    rewrite !fmap_cons. simpl. by rewrite IH, IHfs.
Qed.

End JS.
Import JS.

(** ** The wire encoding

    [JSON.stringify] and [JSON.parse] belong to the runtime.  The
    development is parametric in them; the laws used are that parsing what
    was serialised gives the copy [through_JSON] of the value, and that this
    copy is serialised as the value is. *)
Class Codec : Type := {
  wire : Type;
  JSON_stringify : json → wire;
  JSON_parse : wire → option json;
  parse_stringify : ∀ v, JSON_parse (JSON_stringify v) = Some (through_JSON v);
  stringify_through : ∀ v, JSON_stringify (through_JSON v) = JSON_stringify v
}.

(** A codec whose wire form is the value that the text stands for; used to
    run the model on concrete inputs. *)
Definition plain_codec : Codec :=
  {| wire := json;
     JSON_stringify := through_JSON;
     JSON_parse := Some;
     parse_stringify := λ v, eq_refl;
     stringify_through := through_JSON_twice |}.

(** ** State-and-exception monad of the handlers

    An [async] handler mutates the state up to the point where an awaited
    call rejects; the effects made before the rejection stay. *)
Definition M (S A : Type) : Type := S → S * result A.

Global Instance M_ret {S} : MRet (M S) := λ A a s, (s, Ok a).
Global Instance M_bind {S} : MBind (M S) := λ A B k m s,
  match m s with
  | (s', Ok a) => k a s'
  | (s', Throw e) => (s', Throw e)
  end.

Definition throw {S A} (e : error) : M S A := λ s, (s, Throw e).
Definition gets {S A} (f : S → A) : M S A := λ s, (s, Ok (f s)).
Definition modify {S} (f : S → S) : M S unit := λ s, (f s, Ok tt).
Definition of_result {S A} (r : result A) : M S A := λ s, (s, r).

(** Running a computation for its effect on the state. *)
Definition exec {S A} (m : M S A) (s : S) : S := fst (m s).
Definition outcome {S A} (m : M S A) (s : S) : result A := snd (m s).

(** Partial-correctness triples with an exceptional postcondition: from a
    state in [P], [m] ends normally in [Q] or throws in [X]. *)
Definition hoare {S A} (P : S → Prop) (m : M S A) (Q : A → S → Prop)
    (X : S → Prop) : Prop :=
  ∀ s, P s → match m s with
             | (s', Ok a) => Q a s'
             | (s', Throw _) => X s'
             end.

(** ** Redis: the stroke list, its failures and the I/O log *)

Module Redis.
Section redis.
Context {C : Codec}.

(** What the outside world can observe of a run, in chronological order.
    A Redis command is logged with whether it succeeded; [Emit] is one
    Socket.IO packet for one socket of one node, with the event and the
    argument that the server passes to [emit]. *)
Inductive effect : Type :=
| RPush (items : list wire) (ok : bool)
| Del (ok : bool)
| LRange (ok : bool)
| Publish (raw : wire) (ok : bool)
| Emit (node : nat) (sid : string) (event : string) (arg : option json).

(** [redis_list] is the list under the strokes key.  [faults] schedules the
    outcome of the coming Redis commands: each command consumes the head,
    [true] makes it reject; with the schedule exhausted every command
    succeeds. *)
Record env : Type := Env {
  redis_list : list wire;
  faults : list bool;
  log : list effect
}.

Definition next_fault (e : env) : bool * env :=
  match faults e with
  | [] => (false, e)
  | f :: fs => (f, Env (redis_list e) fs (log e))
  end.

Definition record_all (xs : list effect) (e : env) : env :=
  Env (redis_list e) (faults e) (log e ++ xs).

Definition record (x : effect) (e : env) : env := record_all [x] e.

(** [await client.rPush(KEY, items)] *)
Definition rPush (items : list wire) : M env unit := λ e,
  let (f, e) := next_fault e in
  if f then (record (RPush items false) e, Throw RedisError)
  else (record (RPush items true)
          (Env (redis_list e ++ items) (faults e) (log e)), Ok tt).

(** [await client.del(KEY)] *)
Definition del : M env unit := λ e,
  let (f, e) := next_fault e in
  if f then (record (Del false) e, Throw RedisError)
  else (record (Del true) (Env [] (faults e) (log e)), Ok tt).

(** [await client.lRange(KEY, 0, -1)] *)
Definition lRange : M env (list wire) := λ e,
  let (f, e) := next_fault e in
  if f then (record (LRange false) e, Throw RedisError)
  else (record (LRange true) e, Ok (redis_list e)).

(** [JSON.parse(s)], which throws on text that is not JSON. *)
Definition parse (s : wire) : result json :=
  match JSON_parse s with
  | Some v => Ok v
  | None => Throw SyntaxError
  end.

(** [items.map((s) => JSON.parse(s))] *)
Fixpoint parse_all (items : list wire) : result (list json) :=
  match items with
  | [] => Ok []
  | s :: rest =>
      match parse s with
      | Throw e => Throw e
      | Ok v =>
          match parse_all rest with
          | Throw e => Throw e
          | Ok vs => Ok (v :: vs)
          end
      end
  end.

(** [loadBoardFromRedis] of server.js, [getFullBoard] of the adapter
    server. *)
Definition loadBoardFromRedis : M env (list json) :=
  items ← lRange; of_result (parse_all items).

(** [board.filter((s) => s.userId !== userId)] *)
Fixpoint without_user (userId : option json) (board : list json)
  : result (list json) :=
  match board with
  | [] => Ok []
  | s :: rest =>
      match member s "userId" with
      | Throw e => Throw e
      | Ok u =>
          match without_user userId rest with
          | Throw e => Throw e
          | Ok kept => Ok (if strict_neq u userId then s :: kept else kept)
          end
      end
  end.

(** The board a Redis list holds: the strokes, all objects, that a full
    read of the list returns, the items being their serialisations. *)
Definition decodes (items : list wire) (board : list json) : Prop :=
  items = JSON_stringify <$> board ∧
  parse_all items = Ok board ∧
  Forall (λ s, is_object s = true) board.

Definition stored (e : env) : Prop := ∃ board, decodes (redis_list e) board.

(** The board without the strokes of [u], in the original order. *)
Definition remainder (u : json) (board : list json) : list json :=
  List.filter (λ s, negb (authored_by u s)) board.

(** Modelled from the spec: the board a client shows after the packets it
    was sent (the browser code is not among the sources).  [init-board] and
    [reset-board] replace the board, [draw] adds a stroke at the end,
    [clear-all] empties it. *)
Definition client_step (i : nat) (sid : string) (view : list json)
    (x : effect) : list json :=
  match x with
  | Emit j s event arg =>
      if bool_decide (j = i) && String.eqb s sid then
        if String.eqb event "draw" then
          match arg with Some stroke => view ++ [stroke] | None => view end
        else if String.eqb event "clear-all" then []
        else if String.eqb event "init-board" || String.eqb event "reset-board"
        then match arg with Some (JArr b) => b | _ => view end
        else view
      else view
  | _ => view
  end.

Definition client_board (i : nat) (sid : string) (lg : list effect)
  : list json :=
  foldl (client_step i sid) [] lg.

Definition is_broadcast (x : effect) : bool :=
  match x with
  | Publish _ _ | Emit _ _ _ _ => true
  | _ => false
  end.

End redis.
End Redis.
Import Redis.

(** ** What can happen to a cluster *)

Module Protocol.

(** The client commands of a socket [(i, sid)] (socket [sid] of node [i]),
    its life cycle, the start of a new node, and [Outage]: the environment
    choosing which of the coming Redis commands fail. *)
Inductive command : Type :=
| StartNode
| Connect (i : nat) (sid : string)
| Disconnect (i : nat) (sid : string)
| Register (i : nat) (sid : string) (data : option json)
| Draw (i : nat) (sid : string) (data : option json)
| ClearAll (i : nat) (sid : string)
| ClearMine (i : nat) (sid : string)
| Outage (fs : list bool).

Definition is_outage (cmd : command) : bool :=
  match cmd with Outage _ => true | _ => false end.

(** Whether [cmd] is the life cycle or the registration of socket
    [(i, sid)]. *)
Definition binds (cmd : command) (i : nat) (sid : string) : bool :=
  match cmd with
  | Connect j s | Disconnect j s | Register j s _ =>
      bool_decide (j = i) && String.eqb s sid
  | _ => false
  end.

(** The three commands that need a registered session. *)
Definition is_guarded (cmd : command) (i : nat) (sid : string) : bool :=
  match cmd with
  | Draw j s _ | ClearAll j s | ClearMine j s =>
      bool_decide (j = i) && String.eqb s sid
  | _ => false
  end.

End Protocol.
Import Protocol.

(** ** server.js: per-node cache, Redis pub/sub between the nodes *)

Module PubSub.
Section server.
Context {C : Codec}.

(** One process.  [strokes] is the module-level [let strokes = []];
    [sockets] maps the id of each live connection to the [userId] variable
    of its closure. *)
Record node : Type := Node {
  strokes : list json;
  sockets : gmap string json
}.

Record cluster : Type := Cluster {
  environment : env;
  nodes : list node
}.

Definition redis {A} (m : M env A) : M cluster A := λ c,
  let (e, r) := m (environment c) in (Cluster e (nodes c), r).

Definition session (c : cluster) (i : nat) (sid : string) : option json :=
  nodes c !! i ≫= λ nd, sockets nd !! sid.

Definition connected (c : cluster) (i : nat) (sid : string) : bool :=
  bool_decide (is_Some (session c i sid)).

Definition set_strokes (i : nat) (b : list json) : M cluster unit :=
  modify (λ c, Cluster (environment c)
                 (alter (λ nd, Node b (sockets nd)) i (nodes c))).

Definition get_strokes (i : nat) : M cluster (list json) :=
  gets (λ c, from_option strokes [] (nodes c !! i)).

Definition get_userId (i : nat) (sid : string) : M cluster json :=
  gets (λ c, default JNull (session c i sid)).

Definition set_userId (i : nat) (sid : string) (v : json) : M cluster unit :=
  modify (λ c, Cluster (environment c)
                 (alter (λ nd, Node (strokes nd) (<[sid:=v]> (sockets nd)))
                    i (nodes c))).

(** [socket.emit(event, arg)] *)
Definition socket_emit (i : nat) (sid event : string) (arg : option json)
  : M cluster unit :=
  redis (modify (record (Emit i sid event arg))).

(** The packets of one [io.emit(event, arg)] on a node. *)
Definition local_packets (i : nat) (nd : node) (event : string)
    (arg : option json) : list effect :=
  (λ p, Emit i p.1 event arg) <$> map_to_list (sockets nd).

(** [io.emit(event, arg)]: without an adapter it reaches the sockets of
    this process. *)
Definition io_emit (i : nat) (event : string) (arg : option json)
  : M cluster unit :=
  modify (λ c,
    match nodes c !! i with
    | None => c
    | Some nd =>
        Cluster (record_all (local_packets i nd event arg) (environment c))
          (nodes c)
    end).

(** All the packets of one [io.emit] made on every node. *)
Definition fanout (event : string) (arg : option json) (nds : list node)
  : list effect :=
  mjoin (imap (λ i nd, local_packets i nd event arg) nds).

Definition type_is (type : option json) (tag : string) : bool :=
  match type with
  | Some (JStr s) => String.eqb s tag
  | _ => false
  end.

(** The subscriber callback of node [i].  On a [draw] message without a
    payload [stroke] is [undefined]: the argument of the packets is then
    [None], and the [undefined] pushed on the cache is written [JNull],
    which throws like it when a property is read and is what Socket.IO
    sends for it. *)
Definition on_message (i : nat) (raw : wire) : M cluster unit :=
  msg ← of_result (parse raw);
  type ← of_result (member msg "type");
  if type_is type "init-sync" then
    b ← redis loadBoardFromRedis;
    set_strokes i b
  else if type_is type "draw" then
    stroke ← of_result (member msg "payload");
    cache ← get_strokes i;
    set_strokes i (cache ++ [default JNull stroke]);;
    io_emit i "draw" stroke
  else if type_is type "clear-all" then
    set_strokes i [];;
    io_emit i "clear-all" None
  else if type_is type "clear-user" then
    payload ← of_result (member msg "payload");
    userId ← of_result (match payload with
                        | None => Throw TypeError
                        | Some p => member p "userId"
                        end);
    cache ← get_strokes i;
    kept ← of_result (without_user userId cache);
    set_strokes i kept;;
    io_emit i "reset-board" (Some (JArr kept))
  else mret tt.

(** Delivery of one channel message: every node has subscribed.  The
    rejection of a callback is not a rejection of the publisher; the nodes
    after it are served all the same. *)
Definition deliver (raw : wire) : M cluster unit := λ c,
  (foldl (λ c i, exec (on_message i raw) c) c (seq 0 (length (nodes c))),
   Ok tt).

(** [await redisClient.publish(REDIS_CHANNEL, raw)] *)
Definition publish (raw : wire) : M cluster unit := λ c,
  let (f, e) := next_fault (environment c) in
  if f then (Cluster (record (Publish raw false) e) (nodes c), Throw RedisError)
  else deliver raw (Cluster (record (Publish raw true) e) (nodes c)).

Definition msg_init_sync : json := JObj [("type", JStr "init-sync")].
Definition msg_draw (stroke : json) : json :=
  JObj [("type", JStr "draw"); ("payload", stroke)].
Definition msg_clear_all : json := JObj [("type", JStr "clear-all")].
Definition msg_clear_user (userId : json) : json :=
  JObj [("type", JStr "clear-user"); ("payload", JObj [("userId", userId)])].

(** [data?.userId || socket.id.slice(0, 5).toUpperCase()] *)
Definition assigned_userId (data : option json) (sid : string) : json :=
  match opt_member data "userId" with
  | Some v => if truthy v then v else JStr (toUpperCase (slice_0_5 sid))
  | None => JStr (toUpperCase (slice_0_5 sid))
  end.

Definition on_register (i : nat) (sid : string) (data : option json)
  : M cluster unit :=
  let userId := assigned_userId data sid in
  set_userId i sid userId;;
  socket_emit i sid "user-info" (Some (JObj [("userId", userId)]));;
  board ← redis loadBoardFromRedis;
  socket_emit i sid "init-board" (Some (JArr board)).

Definition on_draw (i : nat) (sid : string) (data : option json)
  : M cluster unit :=
  userId ← get_userId i sid;
  if negb (truthy userId) then mret tt else
  let stroke := spread_with_userId data userId in
  redis (rPush [JSON_stringify stroke]);;
  publish (JSON_stringify (msg_draw stroke)).

Definition on_clear_all (i : nat) (sid : string) : M cluster unit :=
  userId ← get_userId i sid;
  if negb (truthy userId) then mret tt else
  redis del;;
  publish (JSON_stringify msg_clear_all).

Definition on_clear_mine (i : nat) (sid : string) : M cluster unit :=
  userId ← get_userId i sid;
  if negb (truthy userId) then mret tt else
  board ← redis loadBoardFromRedis;
  remaining ← of_result (without_user (Some userId) board);
  redis del;;
  (if (0 <? length remaining)%nat
   then redis (rPush (JSON_stringify <$> remaining))
   else mret tt);;
  publish (JSON_stringify (msg_clear_user userId)).

(** A client command runs its handler when the socket exists. *)
Definition on_socket {A} (i : nat) (sid : string) (m : M cluster A)
    (c : cluster) : cluster :=
  if connected c i sid then exec m c else c.

(** [StartNode] runs the top level of the file in a new process: it
    subscribes and publishes [init-sync]; the process does not come up when
    that publication rejects.  [Connect] creates the closure with
    [let userId = null]. *)
Definition step (c : cluster) (cmd : command) : cluster :=
  match cmd with
  | StartNode =>
      match publish (JSON_stringify msg_init_sync)
              (Cluster (environment c) (nodes c ++ [Node [] ∅])) with
      | (c', Ok _) => c'
      | (c', Throw _) => Cluster (environment c') (nodes c)
      end
  | Connect i sid =>
      if connected c i sid then c else exec (set_userId i sid JNull) c
  | Disconnect i sid =>
      Cluster (environment c)
        (alter (λ nd, Node (strokes nd) (delete sid (sockets nd))) i (nodes c))
  | Register i sid data => on_socket i sid (on_register i sid data) c
  | Draw i sid data => on_socket i sid (on_draw i sid data) c
  | ClearAll i sid => on_socket i sid (on_clear_all i sid) c
  | ClearMine i sid => on_socket i sid (on_clear_mine i sid) c
  | Outage fs =>
      Cluster (Env (redis_list (environment c)) fs (log (environment c)))
        (nodes c)
  end.

(** How the promise of the handler started by [cmd] settles. *)
Definition settle (c : cluster) (cmd : command) : result unit :=
  match cmd with
  | Register i sid data =>
      if connected c i sid then outcome (on_register i sid data) c else Ok tt
  | Draw i sid data =>
      if connected c i sid then outcome (on_draw i sid data) c else Ok tt
  | ClearAll i sid =>
      if connected c i sid then outcome (on_clear_all i sid) c else Ok tt
  | ClearMine i sid =>
      if connected c i sid then outcome (on_clear_mine i sid) c else Ok tt
  | _ => Ok tt
  end.

Definition run (c : cluster) (cmds : list command) : cluster :=
  foldl step c cmds.

(** A cluster with no process running over a persisted board. *)
Definition boot (board : list json) : cluster :=
  Cluster (Env (JSON_stringify <$> board) [] []) [].

(** The clusters that arise from a persisted board of strokes, with Redis
    failing at will. *)
Inductive reachable : cluster → Prop :=
| reachable_boot board :
    Forall (λ s, is_object s = true) board → reachable (boot board)
| reachable_step c cmd : reachable c → reachable (step c cmd).

(** Invariants of the subscriber: it never writes to Redis and never
    touches a closure. *)
Definition socks (σ : list (gmap string json)) (c : cluster) : Prop :=
  sockets <$> nodes c = σ.

Definition frame (rl : list wire) (σ : list (gmap string json)) (c : cluster)
  : Prop :=
  redis_list (environment c) = rl ∧ socks σ c.

Definition store_ok (c : cluster) : Prop := stored (environment c).

End server.
End PubSub.

(** ** The adapter server: no cache, fan-out through the Socket.IO Redis
       adapter *)

Module Adapter.
Section server.
Context {C : Codec}.

(** A process holds nothing but its sockets: the id of each live connection
    mapped to the [userId] variable of its closure. *)
Record cluster : Type := Cluster {
  environment : env;
  nodes : list (gmap string json)
}.

Definition redis {A} (m : M env A) : M cluster A := λ c,
  let (e, r) := m (environment c) in (Cluster e (nodes c), r).

Definition session (c : cluster) (i : nat) (sid : string) : option json :=
  nodes c !! i ≫= λ nd, nd !! sid.

Definition connected (c : cluster) (i : nat) (sid : string) : bool :=
  bool_decide (is_Some (session c i sid)).

Definition get_userId (i : nat) (sid : string) : M cluster json :=
  gets (λ c, default JNull (session c i sid)).

Definition set_userId (i : nat) (sid : string) (v : json) : M cluster unit :=
  modify (λ c, Cluster (environment c) (alter (insert sid v) i (nodes c))).

(** [socket.emit(event, arg)] *)
Definition socket_emit (i : nat) (sid event : string) (arg : option json)
  : M cluster unit :=
  redis (modify (record (Emit i sid event arg))).

(** The packets that reach the sockets of node [i] whose id passes
    [keep]. *)
Definition node_packets (keep : string → bool) (event : string)
    (arg : option json) (i : nat) (nd : gmap string json) : list effect :=
  (λ p, Emit i p.1 event arg) <$> filter (λ p, keep p.1 = true) (map_to_list nd).

Definition cluster_packets (keep : string → bool) (event : string)
    (arg : option json) (nds : list (gmap string json)) : list effect :=
  mjoin (imap (node_packets keep event arg) nds).

Definition send (packets : list effect) : M cluster unit :=
  modify (λ c, Cluster (record_all packets (environment c)) (nodes c)).

(** [io.emit(event, arg)]: with the Redis adapter it reaches every socket
    of every process. *)
Definition io_emit (event : string) (arg : option json) : M cluster unit :=
  ps ← gets (λ c, cluster_packets (λ _, true) event arg (nodes c));
  send ps.

(** [socket.broadcast.emit(event, arg)]: every socket of every process
    except the sender. *)
Definition broadcast_emit (sid event : string) (arg : option json)
  : M cluster unit :=
  ps ← gets (λ c, cluster_packets (λ s, negb (String.eqb s sid)) event arg
                    (nodes c));
  send ps.

(** [data?.userId || socket.id.slice(0, 5).toUpperCase()] *)
Definition assigned_userId (data : option json) (sid : string) : json :=
  match opt_member data "userId" with
  | Some v => if truthy v then v else JStr (toUpperCase (slice_0_5 sid))
  | None => JStr (toUpperCase (slice_0_5 sid))
  end.

Definition getFullBoard : M env (list json) := loadBoardFromRedis.

Definition on_register (i : nat) (sid : string) (data : option json)
  : M cluster unit :=
  let userId := assigned_userId data sid in
  set_userId i sid userId;;
  socket_emit i sid "user-info" (Some (JObj [("userId", userId)]));;
  strokes ← redis getFullBoard;
  socket_emit i sid "init-board" (Some (JArr strokes)).

Definition on_draw (i : nat) (sid : string) (data : option json)
  : M cluster unit :=
  userId ← get_userId i sid;
  if negb (truthy userId) then mret tt else
  let stroke := spread_with_userId data userId in
  redis (rPush [JSON_stringify stroke]);;
  broadcast_emit sid "draw" (Some stroke).

Definition on_clear_all (i : nat) (sid : string) : M cluster unit :=
  userId ← get_userId i sid;
  if negb (truthy userId) then mret tt else
  redis del;;
  io_emit "clear-all" None.

Definition on_clear_mine (i : nat) (sid : string) : M cluster unit :=
  userId ← get_userId i sid;
  if negb (truthy userId) then mret tt else
  strokes ← redis getFullBoard;
  remaining ← of_result (without_user (Some userId) strokes);
  redis del;;
  (if (0 <? length remaining)%nat
   then redis (rPush (JSON_stringify <$> remaining))
   else mret tt);;
  io_emit "reset-board" (Some (JArr remaining)).

(** A client command runs its handler when the socket exists. *)
Definition on_socket {A} (i : nat) (sid : string) (m : M cluster A)
    (c : cluster) : cluster :=
  if connected c i sid then exec m c else c.

(** [StartNode] brings up a process with no connection yet; [Connect]
    creates the closure with [let userId = null]. *)
Definition step (c : cluster) (cmd : command) : cluster :=
  match cmd with
  | StartNode => Cluster (environment c) (nodes c ++ [∅])
  | Connect i sid =>
      if connected c i sid then c else exec (set_userId i sid JNull) c
  | Disconnect i sid =>
      Cluster (environment c) (alter (delete sid) i (nodes c))
  | Register i sid data => on_socket i sid (on_register i sid data) c
  | Draw i sid data => on_socket i sid (on_draw i sid data) c
  | ClearAll i sid => on_socket i sid (on_clear_all i sid) c
  | ClearMine i sid => on_socket i sid (on_clear_mine i sid) c
  | Outage fs =>
      Cluster (Env (redis_list (environment c)) fs (log (environment c)))
        (nodes c)
  end.

(** How the promise of the handler started by [cmd] settles. *)
Definition settle (c : cluster) (cmd : command) : result unit :=
  match cmd with
  | Register i sid data =>
      if connected c i sid then outcome (on_register i sid data) c else Ok tt
  | Draw i sid data =>
      if connected c i sid then outcome (on_draw i sid data) c else Ok tt
  | ClearAll i sid =>
      if connected c i sid then outcome (on_clear_all i sid) c else Ok tt
  | ClearMine i sid =>
      if connected c i sid then outcome (on_clear_mine i sid) c else Ok tt
  | _ => Ok tt
  end.

Definition run (c : cluster) (cmds : list command) : cluster :=
  foldl step c cmds.

Definition boot (board : list json) : cluster :=
  Cluster (Env (JSON_stringify <$> board) [] []) [].

(** The clusters that arise from a persisted board of strokes, with Redis
    failing at will. *)
Inductive reachable : cluster → Prop :=
| reachable_boot board :
    Forall (λ s, is_object s = true) board → reachable (boot board)
| reachable_step c cmd : reachable c → reachable (step c cmd).

(** Invariants: the closures of the sockets, and the store. *)
Definition socks (σ : list (gmap string json)) (c : cluster) : Prop :=
  nodes c = σ.

Definition store_ok (c : cluster) : Prop := stored (environment c).

End server.
End Adapter.

(** ** Either server *)

Module Whiteboard.
Section whiteboard.
Context {C : Codec}.

(** A deployment runs one of the two server files on all its nodes. *)
Inductive server : Type :=
| ViaPubSub (c : PubSub.cluster)
| ViaAdapter (c : Adapter.cluster).

Definition step (d : server) (cmd : command) : server :=
  match d with
  | ViaPubSub c => ViaPubSub (PubSub.step c cmd)
  | ViaAdapter c => ViaAdapter (Adapter.step c cmd)
  end.

Definition run (d : server) (cmds : list command) : server :=
  foldl step d cmds.

Definition settle (d : server) (cmd : command) : result unit :=
  match d with
  | ViaPubSub c => PubSub.settle c cmd
  | ViaAdapter c => Adapter.settle c cmd
  end.

Definition environment (d : server) : env :=
  match d with
  | ViaPubSub c => PubSub.environment c
  | ViaAdapter c => Adapter.environment c
  end.

Definition store (d : server) : list wire := redis_list (environment d).
Definition history (d : server) : list effect := log (environment d).

(** The [userId] variable of each live socket, node by node. *)
Definition closures (d : server) : list (gmap string json) :=
  match d with
  | ViaPubSub c => PubSub.sockets <$> PubSub.nodes c
  | ViaAdapter c => Adapter.nodes c
  end.

Definition session (d : server) (i : nat) (sid : string) : option json :=
  closures d !! i ≫= λ m, m !! sid.

(** The caches of the nodes; the adapter server keeps none. *)
Definition caches (d : server) : list (list json) :=
  match d with
  | ViaPubSub c => PubSub.strokes <$> PubSub.nodes c
  | ViaAdapter c => []
  end.

Definition reachable (d : server) : Prop :=
  match d with
  | ViaPubSub c => PubSub.reachable c
  | ViaAdapter c => Adapter.reachable c
  end.

(** The packets of an emission that reaches every socket of every node. *)
Definition everyone (d : server) (event : string) (arg : option json)
  : list effect :=
  match d with
  | ViaPubSub c => PubSub.fanout event arg (PubSub.nodes c)
  | ViaAdapter c => Adapter.cluster_packets (λ _, true) event arg (Adapter.nodes c)
  end.

(** The stroke that [Draw _ _ data] builds in a session bound to [u]. *)
Definition stroke_of (u : json) (data : option json) : json :=
  spread_with_userId data u.

(** What the sockets are handed when a handler of [d] broadcasts [v]:
    server.js emits the copy that the subscriber of each node parsed from
    the channel message, the adapter server emits the value itself. *)
Definition carried (d : server) (v : json) : json :=
  match d with
  | ViaPubSub _ => through_JSON v
  | ViaAdapter _ => v
  end.

End whiteboard.
End Whiteboard.

(** ** Concrete runs *)

Module Demo.
Import Whiteboard.
#[local] Existing Instance plain_codec.

Definition s1 : string := "aXk3pQ9vT0".
Definition s2 : string := "Zt7_bm2LwE".

Definition as_user (name : string) : option json :=
  Some (JObj [("userId", JStr name)]).
Definition path (p : string) : option json := Some (JObj [("path", JStr p)]).
(** A draw payload that names somebody else as its author. *)
Definition forged : option json :=
  Some (JObj [("userId", JStr "u2"); ("path", JStr "X")]).
Definition unnamed : option json := Some (JObj [("userId", JStr "")]).

(** Two nodes, one registered socket on each. *)
Definition two_users : list command :=
  [StartNode; StartNode; Connect 0 s1; Connect 1 s2;
   Register 0 s1 (as_user "u1"); Register 1 s2 (as_user "u2")].

Definition pubsub_pair : server := run (ViaPubSub (PubSub.boot [])) two_users.
Definition adapter_pair : server := run (ViaAdapter (Adapter.boot [])) two_users.

(** The board [{u1,A}; {u2,B}; {u1,C}]. *)
Definition pubsub_abc : server :=
  run pubsub_pair [Draw 0 s1 (path "A"); Draw 1 s2 (path "B"); Draw 0 s1 (path "C")].
Definition adapter_abc : server :=
  run adapter_pair [Draw 0 s1 (path "A"); Draw 1 s2 (path "B"); Draw 0 s1 (path "C")].

Definition board_abc : list json :=
  [JObj [("path", JStr "A"); ("userId", JStr "u1")];
   JObj [("path", JStr "B"); ("userId", JStr "u2")];
   JObj [("path", JStr "C"); ("userId", JStr "u1")]].

(** A client-supplied [userId] that is not finite: the payload text
    [{"userId":1e999}]. *)
Definition as_infinity : option json := Some (JObj [("userId", JInf false)]).

(** Two nodes, one registered socket on each; the first one registered
    with [Infinity]. *)
Definition infinite_users : list command :=
  [StartNode; StartNode; Connect 0 s1; Connect 1 s2;
   Register 0 s1 as_infinity; Register 1 s2 (as_user "u2")].

Definition pubsub_inf : server := run (ViaPubSub (PubSub.boot [])) infinite_users.
Definition adapter_inf : server := run (ViaAdapter (Adapter.boot [])) infinite_users.

(** The same three strokes drawn by these two sessions. *)
Definition pubsub_inf_abc : server :=
  run pubsub_inf [Draw 0 s1 (path "A"); Draw 1 s2 (path "B"); Draw 0 s1 (path "C")].

Definition board_inf_abc : list json :=
  [JObj [("path", JStr "A"); ("userId", JNull)];
   JObj [("path", JStr "B"); ("userId", JStr "u2")];
   JObj [("path", JStr "C"); ("userId", JNull)]].

(** A node whose cache lost a stroke that the list still holds, with no
    failure anywhere: a session registered with [Infinity] drew it and then
    cleared its own strokes; a second client has just connected. *)
Definition pubsub_stale : server :=
  run (ViaPubSub (PubSub.boot []))
    [StartNode; Connect 0 s1; Register 0 s1 as_infinity;
     Draw 0 s1 (path "A"); ClearMine 0 s1; Connect 0 s2].

(** A connected socket that has not registered. *)
Definition pubsub_fresh : server :=
  run (ViaPubSub (PubSub.boot [])) [StartNode; Connect 0 s1].

(** Redis goes down under a registered session. *)
Definition adapter_down : server := run adapter_pair [Outage [true]].

End Demo.

(** ** The channel, corrupt items and the common core of the two servers *)

Module Channel.

(** The four [case] labels of the subscriber. *)
Definition tags : list string := ["init-sync"; "draw"; "clear-all"; "clear-user"].

(** No [case] label is strictly equal to [msg.type]: the [switch] takes
    its [default] branch. *)
Definition unknown_type (type : option json) : bool :=
  forallb (λ tag, negb (PubSub.type_is type tag)) tags.

End Channel.

Module Strokes.

(** Numbers, strings, booleans and [null]: the values that [===] compares
    by content. *)
Definition is_primitive (v : json) : bool :=
  match v with JArr _ | JObj _ => false | _ => true end.

(** An object with a [userId] property that is truthy or [null]. *)
Definition signed (s : json) : bool :=
  is_object s &&
  match userId_of s with
  | Some v => truthy v || strict_eq v JNull
  | None => false
  end.

(** The properties of an object other than [userId], in order. *)
Definition other_fields (fs : list (string * json)) : list (string * json) :=
  List.filter (λ p, negb (String.eqb p.1 "userId")) fs.

End Strokes.

(** A codec with text that is not JSON: the wire form [None] parses to
    nothing.  Used to run the handlers over a corrupt list. *)
Definition partial_codec : Codec :=
  {| wire := option json;
     JSON_stringify := λ v, Some (through_JSON v);
     JSON_parse := λ w, w;
     parse_stringify := λ v, eq_refl;
     stringify_through := λ v, f_equal Some (through_JSON_twice v) |}.

(** The state that both servers keep in common, and what a command does to
    it when Redis is up: the board that the list reads back as and the
    closures of the sockets, node by node. *)
Module Core.

Record state : Type := State {
  board : list json;
  bound : list (gmap string json)
}.

Definition owner (st : state) (i : nat) (sid : string) : option json :=
  bound st !! i ≫= λ m, m !! sid.

(** The closure of socket [(i, sid)] when the socket exists and has
    registered. *)
Definition registered (st : state) (i : nat) (sid : string) : option json :=
  match owner st i sid with
  | Some u => if truthy u then Some u else None
  | None => None
  end.

Definition step (st : state) (cmd : command) : state :=
  match cmd with
  | StartNode => State (board st) (bound st ++ [∅])
  | Connect i sid =>
      match owner st i sid with
      | Some _ => st
      | None => State (board st) (alter (insert sid JNull) i (bound st))
      end
  | Disconnect i sid => State (board st) (alter (delete sid) i (bound st))
  | Register i sid data =>
      match owner st i sid with
      | Some _ =>
          State (board st)
            (alter (insert sid (PubSub.assigned_userId data sid)) i (bound st))
      | None => st
      end
  | Draw i sid data =>
      match registered st i sid with
      | Some u =>
          State (board st ++ [through_JSON (spread_with_userId data u)]) (bound st)
      | None => st
      end
  | ClearAll i sid =>
      match registered st i sid with
      | Some _ => State [] (bound st)
      | None => st
      end
  | ClearMine i sid =>
      match registered st i sid with
      | Some u => State (remainder u (board st)) (bound st)
      | None => st
      end
  | Outage _ => st
  end.

End Core.

Module Agreement.
Section agreement.
Context {C : Codec}.
Import Whiteboard.

(** [d] holds the board and the closures of [st], Redis is up and the
    caches hold nothing but objects. *)
Definition agrees (d : server) (st : Core.state) : Prop :=
  faults (environment d) = [] ∧
  decodes (store d) (Core.board st) ∧
  Forall (Forall (λ s, is_object s = true)) (caches d) ∧
  closures d = Core.bound st.

(** The items read back as objects whose [userId] is truthy or [null]. *)
Definition signed_items (items : list wire) : Prop :=
  ∃ board, decodes items board ∧ Forall (λ s, Strokes.signed s = true) board.

Definition all_signed (d : server) : Prop := signed_items (store d).

End agreement.
End Agreement.

(** ** More concrete runs *)

Module Cases.
Import Whiteboard Demo.

Section plain.
#[local] Existing Instance plain_codec.

(** A channel message of a type that the subscriber does not know. *)
Definition ping : json := JObj [("type", JStr "ping")].

(** server.js: two nodes, one registered socket on each. *)
Definition pair_cluster : PubSub.cluster :=
  PubSub.run (PubSub.boot []) two_users.

(** server.js: the board [{u1,A}; {u2,B}; {u1,C}] on two nodes. *)
Definition abc_commands : list command :=
  two_users
  ++ [Draw 0 s1 (path "A"); Draw 1 s2 (path "B"); Draw 0 s1 (path "C")].

Definition abc_cluster : PubSub.cluster :=
  PubSub.run (PubSub.boot []) abc_commands.

(** server.js: one node whose cache lost a stroke that the list still
    holds (a session registered with [Infinity] drew it and cleared its own
    strokes), with a second socket registered as [u2]. *)
Definition stale_cluster : PubSub.cluster :=
  PubSub.run (PubSub.boot [])
    [StartNode; Connect 0 s1; Register 0 s1 as_infinity;
     Draw 0 s1 (path "A"); ClearMine 0 s1;
     Connect 0 s2; Register 0 s2 (as_user "u2")].

(** server.js: the three strokes, the first and the last drawn by a session
    registered with [Infinity]. *)
Definition inf_abc_cluster : PubSub.cluster :=
  PubSub.run (PubSub.boot [])
    (infinite_users
     ++ [Draw 0 s1 (path "A"); Draw 1 s2 (path "B"); Draw 0 s1 (path "C")]).

(** server.js: Redis answers the next command and fails the one after. *)
Definition flaky_cluster : PubSub.cluster :=
  PubSub.run pair_cluster [Outage [false; true]].

(** Redis answers two commands and fails the third. *)
Definition pubsub_abc_flaky : server := run pubsub_abc [Outage [false; false; true]].

(** A session registered with an object as its [userId], and a stroke of
    its own on the board. *)
Definition badge : json := JObj [("name", JStr "u1")].
Definition adapter_badge : server :=
  run (ViaAdapter (Adapter.boot []))
    [StartNode; Connect 0 s1; Register 0 s1 (Some (JObj [("userId", badge)]));
     Draw 0 s1 (path "A")].

(** A list whose only item is [null]; one socket has registered. *)
Definition adapter_null : server :=
  run (ViaAdapter (Adapter.boot [JNull]))
    [StartNode; Connect 0 s1; Register 0 s1 (as_user "u1")].

End plain.

(** A list with an item that is not JSON, under the codec that has such
    items; one socket is connected. *)
Definition adapter_corrupt : @server partial_codec :=
  @ViaAdapter partial_codec
    (@Adapter.Cluster partial_codec
       (@Env partial_codec
          [Some (JObj [("path", JStr "A"); ("userId", JStr "u1")]); None] [] [])
       [{[ s1 := JNull ]}]).

End Cases.

(** [m] maintains [I], also when it throws. *)
Definition keeps {S A} (I : S → Prop) (m : M S A) : Prop :=
  hoare I m (λ _, I) I.

(** * Properties *)

(** ** Rules of the triples *)

Section hoare_rules.
Context {S : Type}.
Implicit Types (P X : S → Prop).

Lemma hoare_ret {A} P X (Q : A → S → Prop) (a : A) :
  (∀ s, P s → Q a s) → hoare P (mret a) Q X.
Proof. intros H s Hs. by apply H. Qed.

Lemma hoare_bind {A B} P X (Q : A → S → Prop) (R : B → S → Prop)
    (m : M S A) (k : A → M S B) :
  hoare P m Q X → (∀ a, hoare (Q a) (k a) R X) → hoare P (m ≫= k) R X.
Proof.
  intros Hm Hk s Hs. specialize (Hm s Hs).
  unfold mbind, M_bind. destruct (m s) as [s' [a|e]]; [|done].
  by apply Hk.
Qed.

Lemma hoare_weaken {A} P P' X X' (Q Q' : A → S → Prop) (m : M S A) :
  hoare P' m Q' X' →
  (∀ s, P s → P' s) → (∀ a s, Q' a s → Q a s) → (∀ s, X' s → X s) →
  hoare P m Q X.
Proof.
  intros Hm HP HQ HX s Hs. specialize (Hm s (HP s Hs)).
  destruct (m s) as [s' [a|e]]; auto.
Qed.

Lemma hoare_gets {A} P X (f : S → A) :
  hoare P (gets f) (λ a s, P s ∧ a = f s) X.
Proof. intros s Hs. by split. Qed.

Lemma hoare_modify P X (Q : unit → S → Prop) (f : S → S) :
  (∀ s, P s → Q tt (f s)) → hoare P (modify f) Q X.
Proof. intros H s Hs. by apply H. Qed.

Lemma hoare_of_result {A} P (r : result A) :
  hoare P (of_result r) (λ a s, P s ∧ r = Ok a) P.
Proof. intros s Hs. by destruct r. Qed.

Lemma hoare_exec {A} P (m : M S A) (s : S) :
  hoare P m (λ _, P) P → P s → P (exec m s).
Proof.
  intros Hm Hs. specialize (Hm s Hs). unfold exec.
  by destruct (m s) as [s' [a|e]].
Qed.

End hoare_rules.

(** ** Values *)

Section values.

Lemma lookup_set_field k v fs : lookup_field k (set_field k v fs) = Some v.
Proof.
  induction fs as [|[k' v'] fs IH]; simpl.
  - by rewrite String.eqb_refl.
  - destruct (String.eqb k' k) eqn:E; simpl.
    + by rewrite String.eqb_refl.
    + by rewrite E.
Qed.

Lemma lookup_set_field_ne k k' v fs :
  k ≠ k' → lookup_field k' (set_field k v fs) = lookup_field k' fs.
Proof.
  intros Hne. induction fs as [|[k0 v0] fs IH]; simpl.
  - by apply String.eqb_neq in Hne as ->.
  - destruct (String.eqb k0 k) eqn:E; simpl.
    + apply String.eqb_eq in E as ->.
      by apply String.eqb_neq in Hne as ->.
    + by rewrite IH.
Qed.

Lemma userId_of_spread data u : userId_of (spread_with_userId data u) = Some u.
Proof. apply lookup_set_field. Qed.

Lemma strict_eq_JStr a b : strict_eq (JStr a) (JStr b) = bool_decide (a = b).
Proof.
  simpl. destruct (String.eqb a b) eqn:E.
  - apply String.eqb_eq in E. by rewrite bool_decide_eq_true_2.
  - apply String.eqb_neq in E. by rewrite bool_decide_eq_false_2.
Qed.

Lemma length_toUpperCase s : String.length (toUpperCase s) = String.length s.
Proof. induction s; simpl; congruence. Qed.

Lemma length_substring_0 n s : (String.length (String.substring 0 n s) ≤ n)%nat.
Proof.
  revert s. induction n as [|n IH]; intros [|c s]; simpl; try lia.
  specialize (IH s). lia.
Qed.

Lemma remainder_strict_neq u board :
  remainder u board = List.filter (λ s, strict_neq (userId_of s) (Some u)) board.
Proof.
  unfold remainder. induction board as [|s b IH]; [done|]. simpl.
  rewrite IH. unfold authored_by. by destruct (userId_of s).
Qed.

Lemma is_object_through v : is_object (through_JSON v) = is_object v.
Proof. by destruct v. Qed.

Lemma lookup_field_through k fs :
  lookup_field k ((λ p, (p.1, through_JSON p.2)) <$> fs)
  = through_JSON <$> lookup_field k fs.
Proof.
  induction fs as [|[k' v] fs IH]; [done|].
  rewrite fmap_cons. simpl. by destruct (String.eqb k' k).
Qed.

Lemma userId_of_through s :
  is_object s = true → userId_of (through_JSON s) = through_JSON <$> userId_of s.
Proof. destruct s; try done. intros _. apply lookup_field_through. Qed.

Lemma strict_eq_true a b : strict_eq a b = true → a = b.
Proof.
  destruct a, b; try done; simpl; intros H.
  - by apply Bool.eqb_prop in H as ->.
  - by apply Z.eqb_eq in H as ->.
  - by apply Bool.eqb_prop in H as ->.
  - by apply String.eqb_eq in H as ->.
Qed.

Lemma survives_through u : survives_JSON u = true → through_JSON u = u.
Proof. apply strict_eq_true. Qed.

Lemma truthy_through u :
  truthy u = true → truthy (through_JSON u) = true ∨ through_JSON u = JNull.
Proof. destruct u; simpl; auto. Qed.

(** [null], the copy of a number that is not finite, is the [userId] of no
    registered session. *)
Lemma truthy_not_null u : truthy u = true → strict_eq JNull u = false.
Proof. by destruct u. Qed.

End values.

(** ** Redis commands *)

Section redis_facts.
Context {C : Codec}.

Lemma parse_all_stringify (board : list json) :
  parse_all (JSON_stringify <$> board) = Ok (through_JSON <$> board).
Proof.
  induction board as [|v b IH]; [done|].
  rewrite !fmap_cons. simpl. unfold parse. by rewrite parse_stringify, IH.
Qed.

Lemma parse_all_app items1 items2 (b1 b2 : list json) :
  parse_all items1 = Ok b1 → parse_all items2 = Ok b2 →
  parse_all (items1 ++ items2) = Ok (b1 ++ b2).
Proof.
  revert b1. induction items1 as [|x items1 IH]; intros b1.
  - by intros [= <-].
  - simpl. destruct (parse x) as [v|]; [|done].
    destruct (parse_all items1) as [vs|]; [|done].
    intros [= <-] H2. by rewrite (IH vs).
Qed.

Lemma without_user_objects u (board : list json) :
  Forall (λ s, is_object s = true) board →
  without_user u board = Ok (List.filter (λ s, strict_neq (userId_of s) u) board).
Proof.
  induction 1 as [|s b Hs _ IH]; [done|].
  simpl. destruct s; try discriminate. simpl. by rewrite IH.
Qed.

Lemma without_user_remainder u (board : list json) :
  Forall (λ s, is_object s = true) board →
  without_user (Some u) board = Ok (remainder u board).
Proof. intros H. by rewrite remainder_strict_neq, without_user_objects. Qed.

Lemma remainder_objects u (board : list json) :
  Forall (λ s, is_object s = true) board →
  Forall (λ s, is_object s = true) (remainder u board).
Proof.
  unfold remainder. induction 1 as [|s b Hs _ IH]; simpl; [done|].
  destruct (negb (authored_by u s)); auto.
Qed.

Lemma remainder_idemp u (board : list json) :
  remainder u (remainder u board) = remainder u board.
Proof.
  unfold remainder. induction board as [|s b IH]; [done|]. simpl.
  destruct (negb (authored_by u s)) eqn:E; simpl; [|done].
  by rewrite E, IH.
Qed.

(** A board is what its own serialisation reads back as when each of its
    strokes is its own copy through JSON. *)
Lemma decodes_copies (board : list json) :
  Forall (λ s, is_object s = true) board →
  Forall (λ s, through_JSON s = s) board →
  decodes (JSON_stringify <$> board) board.
Proof.
  intros Ho Hc. split; [done|]. split; [|done].
  rewrite parse_all_stringify. f_equal.
  induction Hc as [|s b Hs _ IH]; [done|].
  apply Forall_cons in Ho as [_ Ho]. rewrite fmap_cons, Hs. f_equal. by apply IH.
Qed.

Lemma decodes_through items (board : list json) :
  decodes items board → Forall (λ s, through_JSON s = s) board.
Proof.
  intros (-> & Hp & _). rewrite parse_all_stringify in Hp.
  injection Hp as Hp. induction board as [|s b IH]; [done|].
  rewrite fmap_cons in Hp. injection Hp as Hs Hb. constructor; auto.
Qed.

(** What the servers write reads back as the copies through JSON. *)
Lemma decodes_written (board : list json) :
  Forall (λ s, is_object s = true) board →
  decodes (JSON_stringify <$> board) (through_JSON <$> board).
Proof.
  intros Ho. split; [|split].
  - rewrite <-list_fmap_compose. apply list_fmap_ext.
    intros _ s _. simpl. by rewrite stringify_through.
  - apply parse_all_stringify.
  - apply Forall_fmap. eapply Forall_impl; [exact Ho|].
    intros s Hs. simpl. by rewrite is_object_through.
Qed.

Lemma decodes_inj items (b1 b2 : list json) :
  decodes items b1 → decodes items b2 → b1 = b2.
Proof. intros (_ & H1 & _) (_ & H2 & _). congruence. Qed.

Lemma decodes_app items1 items2 (b1 b2 : list json) :
  decodes items1 b1 → decodes items2 b2 → decodes (items1 ++ items2) (b1 ++ b2).
Proof.
  intros (-> & P1 & H1) (-> & P2 & H2).
  split; [by rewrite fmap_app|].
  split; [by apply parse_all_app|by apply Forall_app].
Qed.

Lemma decodes_nil : decodes [] [].
Proof. by split. Qed.

Lemma decodes_stroke data u :
  decodes [JSON_stringify (spread_with_userId data u)]
    [through_JSON (spread_with_userId data u)].
Proof. apply (decodes_written [spread_with_userId data u]). by repeat constructor. Qed.

Lemma filter_through (f : json → bool) (board : list json) :
  Forall (λ s, through_JSON s = s) board →
  Forall (λ s, through_JSON s = s) (List.filter f board).
Proof.
  induction 1 as [|s b Hs _ IH]; simpl; [done|]. destruct (f s); auto.
Qed.

Lemma decodes_remainder u items (board : list json) :
  decodes items board →
  decodes (JSON_stringify <$> remainder u board) (remainder u board).
Proof.
  intros Hdec. apply decodes_copies.
  - apply remainder_objects, Hdec.
  - apply filter_through. by apply (decodes_through items).
Qed.

(** The three commands, by the head of the fault schedule. *)
Lemma rPush_ok items rl fs lg :
  head fs ≠ Some true →
  rPush items (Env rl fs lg)
  = (Env (rl ++ items) (tail fs) (lg ++ [RPush items true]), Ok tt).
Proof. by destruct fs as [|[] fs]. Qed.

Lemma rPush_fail items rl fs lg :
  rPush items (Env rl (true :: fs) lg)
  = (Env rl fs (lg ++ [RPush items false]), Throw RedisError).
Proof. done. Qed.

Lemma del_ok rl fs lg :
  head fs ≠ Some true →
  del (Env rl fs lg) = (Env [] (tail fs) (lg ++ [Del true]), Ok tt).
Proof. by destruct fs as [|[] fs]. Qed.

Lemma lRange_ok rl fs lg :
  head fs ≠ Some true →
  lRange (Env rl fs lg) = (Env rl (tail fs) (lg ++ [LRange true]), Ok rl).
Proof. by destruct fs as [|[] fs]. Qed.

Lemma loadBoard_ok rl fs lg board :
  head fs ≠ Some true → decodes rl board →
  loadBoardFromRedis (Env rl fs lg)
  = (Env rl (tail fs) (lg ++ [LRange true]), Ok board).
Proof.
  intros Hf (_ & Hp & _). unfold loadBoardFromRedis, mbind, M_bind.
  rewrite lRange_ok by done. unfold of_result. by rewrite Hp.
Qed.

Lemma loadBoard_fail rl fs lg :
  loadBoardFromRedis (Env rl (true :: fs) lg)
  = (Env rl fs (lg ++ [LRange false]), Throw RedisError).
Proof. done. Qed.

(** The store stays a list of serialised strokes, whatever fails. *)
Lemma stored_record_all xs e : stored (record_all xs e) ↔ stored e.
Proof. done. Qed.

Lemma hoare_rPush (board : list json) :
  Forall (λ s, is_object s = true) board →
  hoare stored (rPush (JSON_stringify <$> board)) (λ _, stored) stored.
Proof.
  intros Hb [rl fs lg] [b0 Hb0]. unfold rPush, next_fault. simpl in *.
  destruct fs as [|[] fs]; simpl; try (by exists b0);
    exists (b0 ++ (through_JSON <$> board));
    by apply decodes_app, decodes_written.
Qed.

Lemma hoare_del : hoare stored del (λ _, stored) stored.
Proof.
  intros [rl fs lg] [b0 Hb0]. unfold del, next_fault. simpl in *.
  destruct fs as [|[] fs]; simpl; try (by exists b0);
    exists []; apply decodes_nil.
Qed.

Lemma hoare_loadBoard :
  hoare stored loadBoardFromRedis
    (λ b e, stored e ∧ Forall (λ s, is_object s = true) b) stored.
Proof.
  intros [rl fs lg] [b0 Hb0].
  destruct fs as [|[] fs].
  - rewrite (loadBoard_ok _ _ _ b0) by done. split; [by exists b0|apply Hb0].
  - rewrite loadBoard_fail. by exists b0.
  - rewrite (loadBoard_ok _ _ _ b0) by done. split; [by exists b0|apply Hb0].
Qed.

Lemma loadBoard_up e board :
  faults e = [] → decodes (redis_list e) board →
  outcome loadBoardFromRedis e = Ok board.
Proof.
  destruct e as [rl fs lg]. simpl. intros -> Hdec. unfold outcome.
  by rewrite (loadBoard_ok _ _ _ board).
Qed.

End redis_facts.

Section keeps_rules.
Context {S : Type}.
Implicit Types (I : S → Prop).

Lemma keeps_ret {A} I (a : A) : keeps I (mret a).
Proof. by apply hoare_ret. Qed.

Lemma keeps_bind {A B} I (m : M S A) (k : A → M S B) :
  keeps I m → (∀ a, keeps I (k a)) → keeps I (m ≫= k).
Proof. intros Hm Hk. eapply hoare_bind; [exact Hm|exact Hk]. Qed.

Lemma keeps_gets {A} I (f : S → A) : keeps I (gets f).
Proof. intros s Hs. done. Qed.

Lemma keeps_of_result {A} I (r : result A) : keeps I (of_result r).
Proof. intros s Hs. by destruct r. Qed.

Lemma keeps_modify I (f : S → S) : (∀ s, I s → I (f s)) → keeps I (modify f).
Proof. intros H. by apply hoare_modify. Qed.

Lemma keeps_exec {A} I (m : M S A) s : keeps I m → I s → I (exec m s).
Proof. apply hoare_exec. Qed.

End keeps_rules.

Create HintDb keeps discriminated.
#[export] Hint Resolve keeps_ret keeps_gets keeps_of_result : keeps.

(** Splits a handler along its binds and branches, leaving the primitive
    commands to the hints. *)
Ltac keeps_steps :=
  repeat first
    [ apply keeps_bind; [|intros ?]
    | match goal with
      | |- keeps _ (if ?b then _ else _) => destruct b
      | |- keeps _ (match ?x with _ => _ end) => destruct x
      end
    | solve [eauto with keeps] ].

(** ** server.js: what the subscriber and the publication leave alone *)

Section pubsub_frame.
Context {C : Codec}.
Import PubSub.
Implicit Types (c : cluster) (σ : list (gmap string json)).

Lemma session_socks c σ i sid :
  socks σ c → session c i sid = σ !! i ≫= λ m, m !! sid.
Proof.
  intros <-. unfold session. rewrite list_lookup_fmap.
  by destruct (nodes c !! i).
Qed.

Lemma keeps_list_lRange rl : keeps (λ e, redis_list e = rl) lRange.
Proof. intros [r fs lg] Hr. simpl in Hr. by destruct fs as [|[] fs]. Qed.

Lemma keeps_list_loadBoard rl : keeps (λ e, redis_list e = rl) loadBoardFromRedis.
Proof.
  apply keeps_bind; [apply keeps_list_lRange|intros; apply keeps_of_result].
Qed.

Lemma keeps_frame_redis {A} rl σ (m : M env A) :
  keeps (λ e, redis_list e = rl) m → keeps (frame rl σ) (redis m).
Proof.
  intros Hm c [Hr Hs]. specialize (Hm _ Hr). unfold redis.
  by destruct (m (environment c)) as [e [a|x]].
Qed.

Lemma keeps_frame_get_strokes rl σ i : keeps (frame rl σ) (get_strokes i).
Proof. apply keeps_gets. Qed.

Lemma sockets_alter_strokes (f : node → list json) i (nds : list node) :
  sockets <$> alter (λ nd, Node (f nd) (sockets nd)) i nds = sockets <$> nds.
Proof.
  revert i. induction nds as [|nd nds IH]; intros [|i]; try done.
  cbn [alter list_alter]. rewrite !fmap_cons. f_equal. apply IH.
Qed.

Lemma keeps_frame_set_strokes rl σ i b : keeps (frame rl σ) (set_strokes i b).
Proof.
  apply keeps_modify. intros c [Hr Hs]. split; [done|].
  unfold socks in *. simpl. by rewrite (sockets_alter_strokes (λ _, b)).
Qed.

Lemma keeps_frame_io_emit rl σ i event arg : keeps (frame rl σ) (io_emit i event arg).
Proof.
  apply keeps_modify. intros c H. by destruct (nodes c !! i).
Qed.

Hint Resolve keeps_frame_get_strokes keeps_frame_set_strokes
  keeps_frame_io_emit keeps_list_loadBoard keeps_frame_redis : keeps.

Lemma keeps_frame_on_message rl σ i raw : keeps (frame rl σ) (on_message i raw).
Proof. unfold on_message. keeps_steps. Qed.

Lemma keeps_frame_deliver rl σ raw : keeps (frame rl σ) (deliver raw).
Proof.
  intros c Hc. unfold deliver.
  generalize (seq 0 (length (nodes c))). intros js.
  revert c Hc. induction js as [|j js IH]; intros c Hc; [done|].
  simpl. apply IH. apply keeps_exec; [apply keeps_frame_on_message|done].
Qed.

Lemma keeps_frame_publish rl σ raw : keeps (frame rl σ) (publish raw).
Proof.
  intros [[r fs lg] nds] Hc. unfold publish, next_fault. simpl.
  destruct fs as [|[] fs]; simpl; try done; by apply keeps_frame_deliver.
Qed.

Lemma keeps_socks_publish σ raw : keeps (socks σ) (publish raw).
Proof.
  intros c Hc.
  pose proof (keeps_frame_publish (redis_list (environment c)) σ raw c) as H.
  destruct (publish raw c) as [c' [a|x]]; by apply H.
Qed.

Lemma keeps_store_publish raw : keeps store_ok (publish raw).
Proof.
  intros c Hc.
  pose proof (keeps_frame_publish (redis_list (environment c))
                (sockets <$> nodes c) raw c) as H.
  unfold store_ok, stored in *.
  destruct (publish raw c) as [c' [a|x]];
    destruct H as [-> _]; done.
Qed.

Lemma keeps_socks_redis {A} σ (m : M env A) : keeps (socks σ) (redis m).
Proof.
  intros c Hc. unfold redis. by destruct (m (environment c)) as [e [a|x]].
Qed.

Lemma hoare_store_redis {A} (m : M env A) (Q : A → env → Prop) :
  hoare stored m Q stored →
  hoare store_ok (redis m) (λ a c, Q a (environment c)) store_ok.
Proof.
  intros Hm c Hc. specialize (Hm _ Hc). unfold redis.
  by destruct (m (environment c)) as [e [a|x]].
Qed.

Lemma keeps_store_redis {A} (m : M env A) :
  keeps stored m → keeps store_ok (redis m).
Proof. apply hoare_store_redis. Qed.

Lemma keeps_socks_get_userId σ i sid : keeps (socks σ) (get_userId i sid).
Proof. apply keeps_gets. Qed.

Lemma keeps_store_get_userId i sid : keeps store_ok (get_userId i sid).
Proof. apply keeps_gets. Qed.

Hint Resolve keeps_socks_publish keeps_store_publish keeps_socks_redis
  keeps_socks_get_userId keeps_store_get_userId : keeps.

Lemma keeps_socks_on_draw σ i sid data : keeps (socks σ) (on_draw i sid data).
Proof. unfold on_draw. keeps_steps. Qed.

Lemma keeps_socks_on_clear_all σ i sid : keeps (socks σ) (on_clear_all i sid).
Proof. unfold on_clear_all. keeps_steps. Qed.

Lemma keeps_socks_on_clear_mine σ i sid : keeps (socks σ) (on_clear_mine i sid).
Proof. unfold on_clear_mine. keeps_steps. Qed.

Lemma keeps_store_on_draw i sid data : keeps store_ok (on_draw i sid data).
Proof.
  unfold on_draw. keeps_steps.
  apply keeps_store_redis.
  apply (hoare_rPush [spread_with_userId data a]). by repeat constructor.
Qed.

Lemma keeps_store_on_clear_all i sid : keeps store_ok (on_clear_all i sid).
Proof.
  unfold on_clear_all. keeps_steps.
  apply keeps_store_redis, hoare_del.
Qed.

Lemma keeps_store_on_clear_mine i sid : keeps store_ok (on_clear_mine i sid).
Proof.
  unfold on_clear_mine.
  apply keeps_bind; [eauto with keeps|intros u].
  destruct (negb (truthy u)); [eauto with keeps|].
  eapply hoare_bind; [apply hoare_store_redis, hoare_loadBoard|].
  intros board c [Hc Hb]. revert c Hc.
  rewrite without_user_remainder by done.
  eapply hoare_bind; [apply (hoare_of_result store_ok)|].
  intros remaining c [Hc [= <-]]. revert c Hc.
  apply keeps_bind; [apply keeps_store_redis, hoare_del|intros _].
  apply keeps_bind; [|eauto with keeps].
  destruct (0 <? length (remainder u board))%nat; [|eauto with keeps].
  apply keeps_store_redis, hoare_rPush. by apply remainder_objects.
Qed.

End pubsub_frame.

(** ** server.js: sessions and the store along a run *)

Section pubsub_run.
Context {C : Codec}.
Import PubSub.
Implicit Types (c : cluster) (σ : list (gmap string json)).

Lemma keeps_session {A} (m : M cluster A) i sid v :
  (∀ σ, keeps (socks σ) m) → keeps (λ c, session c i sid = v) m.
Proof.
  intros H c Hc. specialize (H (sockets <$> nodes c) c eq_refl).
  destruct (m c) as [c' [a|x]];
    by rewrite (session_socks c' _ _ _ H), <-(session_socks c _ i sid eq_refl).
Qed.

Lemma binds_false_ne (j i : nat) (s sid : string) :
  bool_decide (j = i) && String.eqb s sid = false → j ≠ i ∨ s ≠ sid.
Proof.
  intros H. apply andb_false_iff in H as [H|H].
  - left. by apply bool_decide_eq_false in H.
  - right. by apply String.eqb_neq.
Qed.

Lemma session_set_userId_eq c i sid v :
  is_Some (nodes c !! i) → session (exec (set_userId i sid v) c) i sid = Some v.
Proof.
  intros [nd Hnd]. unfold session. simpl.
  rewrite list_lookup_alter_eq, Hnd. simpl. apply lookup_insert_eq.
Qed.

Lemma session_set_userId_ne c j s i sid v :
  j ≠ i ∨ s ≠ sid → session (exec (set_userId j s v) c) i sid = session c i sid.
Proof.
  intros Hne. unfold session. simpl.
  destruct (decide (j = i)) as [->|Hji].
  - rewrite list_lookup_alter_eq. destruct (nodes c !! i) as [nd|]; [|done].
    simpl. destruct Hne as [|Hne]; [done|]. by rewrite lookup_insert_ne.
  - by rewrite list_lookup_alter_ne.
Qed.

Lemma session_disconnect_ne c j s i sid :
  j ≠ i ∨ s ≠ sid →
  session (step c (Disconnect j s)) i sid = session c i sid.
Proof.
  intros Hne. unfold session. simpl.
  destruct (decide (j = i)) as [->|Hji].
  - rewrite list_lookup_alter_eq. destruct (nodes c !! i) as [nd|]; [|done].
    simpl. destruct Hne as [|Hne]; [done|]. by rewrite lookup_delete_ne.
  - by rewrite list_lookup_alter_ne.
Qed.

Lemma keeps_socks_socket_emit σ i sid event arg :
  keeps (socks σ) (socket_emit i sid event arg).
Proof. apply keeps_socks_redis. Qed.

Lemma session_on_register_ne c j s data i sid :
  j ≠ i ∨ s ≠ sid →
  session (exec (on_register j s data) c) i sid = session c i sid.
Proof.
  intros Hne. unfold on_register.
  set (m := socket_emit j s "user-info" _ ;; _).
  assert (keeps (λ c', session c' i sid = session c i sid) m) as Hm.
  { apply keeps_session. intros σ. subst m.
    apply keeps_bind; [apply keeps_socks_socket_emit|intros _].
    apply keeps_bind; [apply keeps_socks_redis|intros b].
    apply keeps_socks_socket_emit. }
  pose proof (session_set_userId_ne c j s i sid (assigned_userId data s) Hne) as H0.
  specialize (Hm _ H0).
  unfold exec, mbind, M_bind. unfold exec in Hm, H0. simpl in *.
  by destruct (m _) as [c' [a|x]].
Qed.

Lemma session_start_node c i sid :
  session (step c StartNode) i sid = session c i sid.
Proof.
  simpl.
  set (c0 := Cluster (environment c) (nodes c ++ [Node [] ∅])).
  pose proof (keeps_socks_publish (sockets <$> nodes c0)
                (JSON_stringify msg_init_sync) c0 eq_refl) as H.
  destruct (publish _ c0) as [c' [a|x]]; [|done].
  rewrite (session_socks c' _ _ _ H). unfold session. simpl.
  rewrite fmap_app.
  destruct (decide (i < length (nodes c))%nat) as [Hlt|Hge].
  - rewrite lookup_app_l by by rewrite length_fmap.
    rewrite list_lookup_fmap. by destruct (nodes c !! i).
  - rewrite lookup_app_r by (rewrite length_fmap; lia).
    rewrite (lookup_ge_None_2 (nodes c)) by lia. rewrite length_fmap.
    by destruct (i - length (nodes c))%nat as [|[|k]].
Qed.

(** Only the life cycle and the registration of a socket touch its
    closure. *)
Lemma step_session c cmd i sid :
  binds cmd i sid = false → session (step c cmd) i sid = session c i sid.
Proof.
  intros Hb.
  destruct cmd as [|j s|j s|j s data|j s data|j s|j s|fs]; simpl in Hb |- *;
    try apply binds_false_ne in Hb.
  - apply session_start_node.
  - destruct (connected c j s); [done|]. by apply session_set_userId_ne.
  - by apply (session_disconnect_ne c j s).
  - unfold on_socket. destruct (connected c j s); [|done].
    by apply session_on_register_ne.
  - unfold on_socket. destruct (connected c j s); [|done].
    apply (keeps_exec (λ c', session c' i sid = session c i sid)); [|done].
    apply keeps_session. intros σ. apply keeps_socks_on_draw.
  - unfold on_socket. destruct (connected c j s); [|done].
    apply (keeps_exec (λ c', session c' i sid = session c i sid)); [|done].
    apply keeps_session. intros σ. apply keeps_socks_on_clear_all.
  - unfold on_socket. destruct (connected c j s); [|done].
    apply (keeps_exec (λ c', session c' i sid = session c i sid)); [|done].
    apply keeps_session. intros σ. apply keeps_socks_on_clear_mine.
  - done.
Qed.

Lemma keeps_store_on_register i sid data : keeps store_ok (on_register i sid data).
Proof.
  unfold on_register.
  apply keeps_bind; [by apply keeps_modify|intros _].
  apply keeps_bind; [by apply keeps_store_redis, keeps_modify|intros _].
  apply keeps_bind.
  - apply keeps_store_redis.
    eapply hoare_weaken; [apply hoare_loadBoard|done|by intros ?? [? _]|done].
  - intros b. by apply keeps_store_redis, keeps_modify.
Qed.

Lemma step_store_ok c cmd : store_ok c → store_ok (step c cmd).
Proof.
  intros Hc.
  destruct cmd as [|j s|j s|j s data|j s data|j s|j s|fs]; simpl;
    unfold on_socket; try destruct (connected c j s); try done.
  - set (c0 := Cluster _ _).
    pose proof (keeps_store_publish (JSON_stringify msg_init_sync) c0 Hc) as H.
    by destruct (publish _ c0) as [c' [a|x]].
  - by apply keeps_exec; [apply keeps_store_on_register|].
  - by apply keeps_exec; [apply keeps_store_on_draw|].
  - by apply keeps_exec; [apply keeps_store_on_clear_all|].
  - by apply keeps_exec; [apply keeps_store_on_clear_mine|].
Qed.

Lemma reachable_store_ok c : reachable c → store_ok c.
Proof.
  induction 1 as [board Hb|c cmd _ IH].
  - exists (through_JSON <$> board). by apply decodes_written.
  - by apply step_store_ok.
Qed.

End pubsub_run.

(** ** server.js: delivery of a channel message *)

Section pubsub_delivery.
Context {C : Codec}.
Import PubSub.
Implicit Types (c : cluster) (nds : list node).

Lemma deliver_from raw rl fs (good : node → Prop) (f : node → node)
    (pk : nat → node → list effect) :
  (∀ lg nds i nd, nds !! i = Some nd → good nd →
     exec (on_message i raw) (Cluster (Env rl fs lg) nds)
     = Cluster (Env rl fs (lg ++ pk i nd)) (alter f i nds)) →
  ∀ todo done lg, Forall good todo →
    foldl (λ c i, exec (on_message i raw) c)
      (Cluster (Env rl fs lg) (done ++ todo))
      (seq (length done) (length todo))
    = Cluster (Env rl fs (lg ++ mjoin (imap (λ k, pk (length done + k)%nat) todo)))
        (done ++ (f <$> todo)).
Proof.
  intros Hstep. induction todo as [|nd todo IH]; intros done lg Hgood.
  - simpl. by rewrite !app_nil_r.
  - apply Forall_cons in Hgood as [Hnd Hgood].
    cbn [length seq foldl].
    rewrite (Hstep _ _ _ nd) by (by apply list_lookup_middle || done).
    replace (alter f (length done) (done ++ nd :: todo))
      with ((done ++ [f nd]) ++ todo).
    2:{ rewrite <-(Nat.add_0_r (length done)), alter_app_r.
        by rewrite <-app_assoc. }
    replace (S (length done)) with (length (done ++ [f nd]))
      by (rewrite length_app; simpl; lia).
    rewrite IH by done. rewrite <-!app_assoc. simpl.
    rewrite Nat.add_0_r. do 5 f_equal.
    apply imap_ext. intros k x _. simpl. f_equal.
    rewrite length_app. simpl. lia.
Qed.

Lemma deliver_uniform raw rl fs (good : node → Prop) (f : node → node)
    (pk : nat → node → list effect) :
  (∀ lg nds i nd, nds !! i = Some nd → good nd →
     exec (on_message i raw) (Cluster (Env rl fs lg) nds)
     = Cluster (Env rl fs (lg ++ pk i nd)) (alter f i nds)) →
  ∀ lg nds, Forall good nds →
    deliver raw (Cluster (Env rl fs lg) nds)
    = (Cluster (Env rl fs (lg ++ mjoin (imap pk nds))) (f <$> nds), Ok tt).
Proof.
  intros Hstep lg nds Hgood. unfold deliver. f_equal.
  exact (deliver_from raw rl fs good f pk Hstep nds [] lg Hgood).
Qed.

Lemma publish_ok raw rl fs lg nds :
  head fs ≠ Some true →
  publish raw (Cluster (Env rl fs lg) nds)
  = deliver raw (Cluster (Env rl (tail fs) (lg ++ [Publish raw true])) nds).
Proof. by destruct fs as [|[] fs]. Qed.

Lemma publish_fail raw rl fs lg nds :
  publish raw (Cluster (Env rl (true :: fs) lg) nds)
  = (Cluster (Env rl fs (lg ++ [Publish raw false])) nds, Throw RedisError).
Proof. done. Qed.

Lemma alter_at {A} (f g : A → A) i (l : list A) x :
  l !! i = Some x → f x = g x → alter f i l = alter g i l.
Proof.
  revert i. induction l as [|y l IH]; intros [|i] Hx Hfg; try done.
  - injection Hx as ->. cbn [alter list_alter]. by rewrite Hfg.
  - cbn [alter list_alter]. f_equal. by apply IH.
Qed.

Lemma on_message_draw stroke rl fs lg nds i nd :
  nds !! i = Some nd →
  exec (on_message i (JSON_stringify (msg_draw stroke))) (Cluster (Env rl fs lg) nds)
  = Cluster
      (Env rl fs (lg ++ local_packets i nd "draw" (Some (through_JSON stroke))))
      (alter (λ nd, Node (strokes nd ++ [through_JSON stroke]) (sockets nd)) i nds).
Proof.
  intros Hnd. unfold exec, on_message, mbind, M_bind, of_result, parse.
  rewrite parse_stringify. simpl.
  unfold get_strokes, gets, set_strokes, io_emit, modify. simpl.
  rewrite Hnd. simpl. rewrite list_lookup_alter_eq, Hnd. simpl.
  f_equal. by apply (alter_at _ _ _ _ nd).
Qed.

Lemma on_message_clear_all rl fs lg nds i nd :
  nds !! i = Some nd →
  exec (on_message i (JSON_stringify msg_clear_all)) (Cluster (Env rl fs lg) nds)
  = Cluster (Env rl fs (lg ++ local_packets i nd "clear-all" None))
      (alter (λ nd, Node [] (sockets nd)) i nds).
Proof.
  intros Hnd. unfold exec, on_message, mbind, M_bind, of_result, parse.
  rewrite parse_stringify. simpl.
  unfold set_strokes, io_emit, modify. simpl.
  by rewrite list_lookup_alter_eq, Hnd.
Qed.

Lemma on_message_clear_user u rl fs lg nds i nd :
  nds !! i = Some nd →
  Forall (λ s, is_object s = true) (strokes nd) →
  exec (on_message i (JSON_stringify (msg_clear_user u))) (Cluster (Env rl fs lg) nds)
  = Cluster
      (Env rl fs
         (lg ++ local_packets i nd "reset-board"
                  (Some (JArr (remainder (through_JSON u) (strokes nd))))))
      (alter (λ nd, Node (remainder (through_JSON u) (strokes nd)) (sockets nd))
         i nds).
Proof.
  intros Hnd Hobj. unfold exec, on_message, mbind, M_bind, of_result, parse.
  rewrite parse_stringify. simpl.
  unfold get_strokes, gets. simpl. rewrite Hnd. simpl.
  rewrite without_user_remainder by done.
  unfold set_strokes, io_emit, modify. simpl.
  rewrite list_lookup_alter_eq, Hnd. simpl.
  f_equal. by apply (alter_at _ _ _ _ nd).
Qed.

Lemma on_message_init_sync board rl lg nds i nd :
  nds !! i = Some nd → decodes rl board →
  exec (on_message i (JSON_stringify msg_init_sync)) (Cluster (Env rl [] lg) nds)
  = Cluster (Env rl [] (lg ++ [LRange true]))
      (alter (λ nd, Node board (sockets nd)) i nds).
Proof.
  intros Hnd Hdec. unfold exec, on_message, mbind, M_bind, of_result, parse.
  rewrite parse_stringify. cbn -[loadBoardFromRedis].
  unfold redis. cbn -[loadBoardFromRedis].
  by rewrite (loadBoard_ok _ _ _ board).
Qed.

(** A published message reaches every node. *)
Lemma deliver_draw stroke rl fs lg nds :
  deliver (JSON_stringify (msg_draw stroke)) (Cluster (Env rl fs lg) nds)
  = (Cluster (Env rl fs (lg ++ fanout "draw" (Some (through_JSON stroke)) nds))
       ((λ nd, Node (strokes nd ++ [through_JSON stroke]) (sockets nd)) <$> nds),
     Ok tt).
Proof.
  apply (deliver_uniform _ rl fs (λ _, True)
           (λ nd, Node (strokes nd ++ [through_JSON stroke]) (sockets nd))
           (λ i nd, local_packets i nd "draw" (Some (through_JSON stroke)))).
  - intros. by apply on_message_draw.
  - by apply Forall_forall.
Qed.

Lemma deliver_clear_all rl fs lg nds :
  deliver (JSON_stringify msg_clear_all) (Cluster (Env rl fs lg) nds)
  = (Cluster (Env rl fs (lg ++ fanout "clear-all" None nds))
       ((λ nd, Node [] (sockets nd)) <$> nds), Ok tt).
Proof.
  apply (deliver_uniform _ rl fs (λ _, True)
           (λ nd, Node [] (sockets nd))
           (λ i nd, local_packets i nd "clear-all" None)).
  - intros. by apply on_message_clear_all.
  - by apply Forall_forall.
Qed.

Lemma deliver_clear_user u rl fs lg nds :
  Forall (λ nd, Forall (λ s, is_object s = true) (strokes nd)) nds →
  deliver (JSON_stringify (msg_clear_user u)) (Cluster (Env rl fs lg) nds)
  = (Cluster
       (Env rl fs
          (lg ++ mjoin (imap (λ i nd, local_packets i nd "reset-board"
                                 (Some (JArr (remainder (through_JSON u)
                                                (strokes nd))))) nds)))
       ((λ nd, Node (remainder (through_JSON u) (strokes nd)) (sockets nd))
          <$> nds), Ok tt).
Proof.
  apply (deliver_uniform _ rl fs
           (λ nd, Forall (λ s, is_object s = true) (strokes nd))
           (λ nd, Node (remainder (through_JSON u) (strokes nd)) (sockets nd))
           (λ i nd, local_packets i nd "reset-board"
                      (Some (JArr (remainder (through_JSON u) (strokes nd)))))).
  intros. by apply on_message_clear_user.
Qed.

Lemma deliver_init_sync board rl lg nds :
  decodes rl board →
  deliver (JSON_stringify msg_init_sync) (Cluster (Env rl [] lg) nds)
  = (Cluster (Env rl [] (lg ++ mjoin (imap (λ _ _, [LRange true]) nds)))
       ((λ nd, Node board (sockets nd)) <$> nds), Ok tt).
Proof.
  intros Hdec.
  apply (deliver_uniform _ rl [] (λ _, True)
           (λ nd, Node board (sockets nd)) (λ _ _, [LRange true])).
  - intros lg' nds' i nd Hnd _.
    by apply (on_message_init_sync board rl lg' nds' i nd).
  - by apply Forall_forall.
Qed.

(** Who gets the packets of a fan-out. *)
Lemma elem_of_fanout event arg nds x :
  x ∈ fanout event arg nds ↔
  ∃ i nd sid v, nds !! i = Some nd ∧ sockets nd !! sid = Some v
                ∧ x = Emit i sid event arg.
Proof.
  unfold fanout. rewrite list_elem_of_join. split.
  - intros (ps & Hx & Hps).
    apply elem_of_lookup_imap in Hps as (i & nd & -> & Hnd).
    unfold local_packets in Hx.
    apply list_elem_of_fmap in Hx as ([sid v] & -> & Hv).
    apply elem_of_map_to_list in Hv. by exists i, nd, sid, v.
  - intros (i & nd & sid & v & Hnd & Hv & ->).
    exists (local_packets i nd event arg). split.
    + unfold local_packets. apply list_elem_of_fmap.
      exists (sid, v). split; [done|]. by apply elem_of_map_to_list.
    + apply elem_of_lookup_imap. by exists i, nd.
Qed.

End pubsub_delivery.

(** ** server.js: what each handler does, step by step *)

Section pubsub_handlers.
Context {C : Codec}.
Import PubSub.
Implicit Types (c : cluster) (nds : list node).

Lemma get_userId_session c i sid u :
  session c i sid = Some u → get_userId i sid c = (c, Ok u).
Proof. intros H. unfold get_userId, gets. by rewrite H. Qed.

Lemma on_draw_run rl fs lg nds i sid u data :
  session (Cluster (Env rl fs lg) nds) i sid = Some u → truthy u = true →
  head fs ≠ Some true → head (tail fs) ≠ Some true →
  on_draw i sid data (Cluster (Env rl fs lg) nds)
  = (Cluster
       (Env (rl ++ [JSON_stringify (spread_with_userId data u)])
          (tail (tail fs))
          (lg ++ RPush [JSON_stringify (spread_with_userId data u)] true
              :: Publish (JSON_stringify (msg_draw (spread_with_userId data u))) true
              :: fanout "draw"
                   (Some (through_JSON (spread_with_userId data u))) nds))
       ((λ nd, Node (strokes nd ++ [through_JSON (spread_with_userId data u)])
                 (sockets nd))
          <$> nds), Ok tt).
Proof.
  intros Hs Hu Hf1 Hf2. unfold on_draw, mbind, M_bind.
  rewrite (get_userId_session _ _ _ u Hs), Hu. simpl.
  unfold redis. cbn -[rPush]. rewrite rPush_ok by done.
  rewrite publish_ok by done. rewrite deliver_draw.
  by rewrite <-!app_assoc.
Qed.

Lemma on_draw_rpush_fails rl fs lg nds i sid u data :
  session (Cluster (Env rl (true :: fs) lg) nds) i sid = Some u →
  truthy u = true →
  on_draw i sid data (Cluster (Env rl (true :: fs) lg) nds)
  = (Cluster
       (Env rl fs (lg ++ [RPush [JSON_stringify (spread_with_userId data u)] false]))
       nds, Throw RedisError).
Proof.
  intros Hs Hu. unfold on_draw, mbind, M_bind.
  by rewrite (get_userId_session _ _ _ u Hs), Hu.
Qed.

Lemma on_draw_publish_fails rl f fs lg nds i sid u data :
  session (Cluster (Env rl (f :: true :: fs) lg) nds) i sid = Some u →
  truthy u = true → f = false →
  on_draw i sid data (Cluster (Env rl (f :: true :: fs) lg) nds)
  = (Cluster
       (Env (rl ++ [JSON_stringify (spread_with_userId data u)]) fs
          (lg ++ [RPush [JSON_stringify (spread_with_userId data u)] true;
                  Publish (JSON_stringify (msg_draw (spread_with_userId data u)))
                    false]))
       nds, Throw RedisError).
Proof.
  intros Hs Hu ->. unfold on_draw, mbind, M_bind.
  rewrite (get_userId_session _ _ _ u Hs), Hu. simpl.
  unfold record, record_all. simpl. rewrite publish_fail.
  by rewrite <-!app_assoc.
Qed.

Lemma on_clear_all_run rl fs lg nds i sid u :
  session (Cluster (Env rl fs lg) nds) i sid = Some u → truthy u = true →
  head fs ≠ Some true → head (tail fs) ≠ Some true →
  on_clear_all i sid (Cluster (Env rl fs lg) nds)
  = (Cluster
       (Env [] (tail (tail fs))
          (lg ++ Del true :: Publish (JSON_stringify msg_clear_all) true
              :: fanout "clear-all" None nds))
       ((λ nd, Node [] (sockets nd)) <$> nds), Ok tt).
Proof.
  intros Hs Hu Hf1 Hf2. unfold on_clear_all, mbind, M_bind.
  rewrite (get_userId_session _ _ _ u Hs), Hu. simpl.
  unfold redis. cbn -[del]. rewrite del_ok by done.
  rewrite publish_ok by done. rewrite deliver_clear_all.
  by rewrite <-!app_assoc.
Qed.

Lemma on_clear_mine_run rl lg nds i sid u board :
  session (Cluster (Env rl [] lg) nds) i sid = Some u → truthy u = true →
  decodes rl board →
  Forall (λ nd, Forall (λ s, is_object s = true) (strokes nd)) nds →
  on_clear_mine i sid (Cluster (Env rl [] lg) nds)
  = (Cluster
       (Env (JSON_stringify <$> remainder u board) []
          (lg ++ LRange true :: Del true
              :: (if (0 <? length (remainder u board))%nat
                  then [RPush (JSON_stringify <$> remainder u board) true]
                  else [])
              ++ Publish (JSON_stringify (msg_clear_user u)) true
              :: mjoin (imap (λ j nd, local_packets j nd "reset-board"
                                (Some (JArr (remainder (through_JSON u)
                                               (strokes nd))))) nds)))
       ((λ nd, Node (remainder (through_JSON u) (strokes nd)) (sockets nd))
          <$> nds), Ok tt).
Proof.
  intros Hs Hu Hdec Hobj. unfold on_clear_mine, mbind, M_bind.
  rewrite (get_userId_session _ _ _ u Hs), Hu. cbn [negb].
  unfold redis. cbn [environment nodes].
  rewrite (loadBoard_ok _ _ _ board) by done.
  unfold of_result. rewrite without_user_remainder by apply Hdec.
  cbn [environment nodes]. rewrite del_ok by done.
  cbn [environment nodes tail].
  destruct (0 <? length (remainder u board))%nat eqn:E.
  - cbn [environment nodes]. rewrite rPush_ok by done.
    cbn [environment nodes tail app].
    rewrite publish_ok by done. rewrite deliver_clear_user by done.
    simpl. by rewrite <-!app_assoc.
  - unfold mret, M_ret. rewrite publish_ok by done.
    rewrite deliver_clear_user by done.
    simpl. rewrite <-!app_assoc.
    by destruct (remainder u board).
Qed.


End pubsub_handlers.

(** ** server.js: registration and the guards *)

Section pubsub_coherence.
Context {C : Codec}.
Import PubSub.
Implicit Types (c : cluster) (nds : list node).

Lemma connected_session c i sid :
  connected c i sid = true → ∃ u, session c i sid = Some u.
Proof. unfold connected. intros H. by apply bool_decide_eq_true in H. Qed.

Lemma session_connected c i sid u :
  session c i sid = Some u → connected c i sid = true.
Proof. intros H. unfold connected. apply bool_decide_eq_true. by rewrite H. Qed.

Lemma on_register_run rl fs lg nds i sid data board :
  head fs ≠ Some true → decodes rl board →
  on_register i sid data (Cluster (Env rl fs lg) nds)
  = (Cluster
       (Env rl (tail fs)
          (lg ++ [Emit i sid "user-info"
                    (Some (JObj [("userId", assigned_userId data sid)]));
                  LRange true;
                  Emit i sid "init-board" (Some (JArr board))]))
       (alter (λ nd, Node (strokes nd)
                       (<[sid:=assigned_userId data sid]> (sockets nd))) i nds),
     Ok tt).
Proof.
  intros Hf Hdec. unfold on_register, mbind, M_bind, set_userId, socket_emit,
    modify, redis. cbn [environment nodes].
  unfold record, record_all. cbn [redis_list faults log].
  rewrite (loadBoard_ok _ _ _ board) by done.
  cbn [environment nodes redis_list faults log]. by rewrite <-!app_assoc.
Qed.

Lemma on_register_read_fails rl fs lg nds i sid data :
  on_register i sid data (Cluster (Env rl (true :: fs) lg) nds)
  = (Cluster
       (Env rl fs
          (lg ++ [Emit i sid "user-info"
                    (Some (JObj [("userId", assigned_userId data sid)]));
                  LRange false]))
       (alter (λ nd, Node (strokes nd)
                       (<[sid:=assigned_userId data sid]> (sockets nd))) i nds),
     Throw RedisError).
Proof.
  unfold on_register, mbind, M_bind, set_userId, socket_emit, modify, redis.
  cbn [environment nodes]. unfold record, record_all.
  cbn [redis_list faults log]. rewrite loadBoard_fail.
  cbn [environment nodes redis_list faults log]. by rewrite <-!app_assoc.
Qed.

(** The guards [if (!userId) return]. *)
Lemma on_draw_unregistered c i sid u data :
  session c i sid = Some u → truthy u = false →
  on_draw i sid data c = (c, Ok tt).
Proof.
  intros Hs Hu. unfold on_draw, mbind, M_bind.
  by rewrite (get_userId_session _ _ _ u Hs), Hu.
Qed.

Lemma on_clear_all_unregistered c i sid u :
  session c i sid = Some u → truthy u = false →
  on_clear_all i sid c = (c, Ok tt).
Proof.
  intros Hs Hu. unfold on_clear_all, mbind, M_bind.
  by rewrite (get_userId_session _ _ _ u Hs), Hu.
Qed.

Lemma on_clear_mine_unregistered c i sid u :
  session c i sid = Some u → truthy u = false →
  on_clear_mine i sid c = (c, Ok tt).
Proof.
  intros Hs Hu. unfold on_clear_mine, mbind, M_bind.
  by rewrite (get_userId_session _ _ _ u Hs), Hu.
Qed.

End pubsub_coherence.

(** ** The adapter server: invariants along a run *)

Section adapter_run.
Context {C : Codec}.
Import Adapter.
Implicit Types (c : cluster) (σ : list (gmap string json)).

Lemma adapter_keeps_socks_redis {A} σ (m : M env A) : keeps (socks σ) (redis m).
Proof.
  intros c Hc. unfold redis. by destruct (m (environment c)) as [e [a|x]].
Qed.

Lemma adapter_hoare_store_redis {A} (m : M env A) (Q : A → env → Prop) :
  hoare stored m Q stored →
  hoare store_ok (redis m) (λ a c, Q a (environment c)) store_ok.
Proof.
  intros Hm c Hc. specialize (Hm _ Hc). unfold redis.
  by destruct (m (environment c)) as [e [a|x]].
Qed.

Lemma adapter_keeps_store_redis {A} (m : M env A) :
  keeps stored m → keeps store_ok (redis m).
Proof. apply adapter_hoare_store_redis. Qed.

Lemma adapter_keeps_socks_send σ ps : keeps (socks σ) (send ps).
Proof. by apply keeps_modify. Qed.

Lemma adapter_keeps_store_send ps : keeps store_ok (send ps).
Proof. by apply keeps_modify. Qed.

Lemma adapter_keeps_socks_io_emit σ event arg : keeps (socks σ) (io_emit event arg).
Proof.
  apply keeps_bind; [apply keeps_gets|intros; apply adapter_keeps_socks_send].
Qed.

Lemma adapter_keeps_store_io_emit event arg : keeps store_ok (io_emit event arg).
Proof.
  apply keeps_bind; [apply keeps_gets|intros; apply adapter_keeps_store_send].
Qed.

Lemma adapter_keeps_socks_broadcast σ sid event arg :
  keeps (socks σ) (broadcast_emit sid event arg).
Proof.
  apply keeps_bind; [apply keeps_gets|intros; apply adapter_keeps_socks_send].
Qed.

Lemma adapter_keeps_store_broadcast sid event arg :
  keeps store_ok (broadcast_emit sid event arg).
Proof.
  apply keeps_bind; [apply keeps_gets|intros; apply adapter_keeps_store_send].
Qed.

Lemma adapter_keeps_socks_get_userId σ i sid : keeps (socks σ) (get_userId i sid).
Proof. apply keeps_gets. Qed.

Lemma adapter_keeps_store_get_userId i sid : keeps store_ok (get_userId i sid).
Proof. apply keeps_gets. Qed.

Hint Resolve adapter_keeps_socks_send adapter_keeps_store_send
  adapter_keeps_socks_redis adapter_keeps_socks_io_emit
  adapter_keeps_store_io_emit adapter_keeps_socks_broadcast
  adapter_keeps_store_broadcast adapter_keeps_socks_get_userId
  adapter_keeps_store_get_userId : keeps.

Lemma adapter_keeps_socks_on_draw σ i sid data :
  keeps (socks σ) (on_draw i sid data).
Proof. unfold on_draw. keeps_steps. Qed.

Lemma adapter_keeps_socks_on_clear_all σ i sid :
  keeps (socks σ) (on_clear_all i sid).
Proof. unfold on_clear_all. keeps_steps. Qed.

Lemma adapter_keeps_socks_on_clear_mine σ i sid :
  keeps (socks σ) (on_clear_mine i sid).
Proof. unfold on_clear_mine. keeps_steps. Qed.

Lemma adapter_keeps_store_on_draw i sid data :
  keeps store_ok (on_draw i sid data).
Proof.
  unfold on_draw.
  apply keeps_bind; [eauto with keeps|intros u].
  destruct (negb (truthy u)); [eauto with keeps|].
  apply keeps_bind; [|eauto with keeps].
  apply adapter_keeps_store_redis.
  apply (hoare_rPush [spread_with_userId data u]). by repeat constructor.
Qed.

Lemma adapter_keeps_store_on_clear_all i sid :
  keeps store_ok (on_clear_all i sid).
Proof.
  unfold on_clear_all.
  apply keeps_bind; [eauto with keeps|intros u].
  destruct (negb (truthy u)); [eauto with keeps|].
  apply keeps_bind; [|eauto with keeps].
  apply adapter_keeps_store_redis, hoare_del.
Qed.

Lemma adapter_keeps_store_on_clear_mine i sid :
  keeps store_ok (on_clear_mine i sid).
Proof.
  unfold on_clear_mine.
  apply keeps_bind; [eauto with keeps|intros u].
  destruct (negb (truthy u)); [eauto with keeps|].
  eapply hoare_bind; [apply adapter_hoare_store_redis, hoare_loadBoard|].
  intros board c [Hc Hb]. revert c Hc.
  rewrite without_user_remainder by done.
  eapply hoare_bind; [apply (hoare_of_result store_ok)|].
  intros remaining c [Hc [= <-]]. revert c Hc.
  apply keeps_bind; [apply adapter_keeps_store_redis, hoare_del|intros _].
  apply keeps_bind; [|eauto with keeps].
  destruct (0 <? length (remainder u board))%nat; [|eauto with keeps].
  apply adapter_keeps_store_redis, hoare_rPush. by apply remainder_objects.
Qed.

Lemma adapter_keeps_store_on_register i sid data :
  keeps store_ok (on_register i sid data).
Proof.
  unfold on_register.
  apply keeps_bind; [by apply keeps_modify|intros _].
  apply keeps_bind; [by apply adapter_keeps_store_redis, keeps_modify|intros _].
  apply keeps_bind.
  - apply adapter_keeps_store_redis.
    eapply hoare_weaken; [apply hoare_loadBoard|done|by intros ?? [? _]|done].
  - intros b. by apply adapter_keeps_store_redis, keeps_modify.
Qed.

Lemma adapter_session_set_userId_eq c i sid v :
  is_Some (nodes c !! i) → session (exec (set_userId i sid v) c) i sid = Some v.
Proof.
  intros [nd Hnd]. unfold session. simpl.
  rewrite list_lookup_alter_eq, Hnd. simpl. apply lookup_insert_eq.
Qed.

Lemma adapter_session_set_userId_ne c j s i sid v :
  j ≠ i ∨ s ≠ sid → session (exec (set_userId j s v) c) i sid = session c i sid.
Proof.
  intros Hne. unfold session. simpl.
  destruct (decide (j = i)) as [->|Hji].
  - rewrite list_lookup_alter_eq. destruct (nodes c !! i) as [nd|]; [|done].
    simpl. destruct Hne as [|Hne]; [done|]. by rewrite lookup_insert_ne.
  - by rewrite list_lookup_alter_ne.
Qed.

Lemma adapter_keeps_session {A} (m : M cluster A) i sid v :
  (∀ σ, keeps (socks σ) m) → keeps (λ c, session c i sid = v) m.
Proof.
  intros H c Hc. specialize (H (nodes c) c eq_refl).
  unfold session in *. destruct (m c) as [c' [a|x]]; by rewrite H.
Qed.

Lemma adapter_session_on_register_ne c j s data i sid :
  j ≠ i ∨ s ≠ sid →
  session (exec (on_register j s data) c) i sid = session c i sid.
Proof.
  intros Hne. unfold on_register.
  set (m := socket_emit j s "user-info" _ ;; _).
  assert (keeps (λ c', session c' i sid = session c i sid) m) as Hm.
  { apply adapter_keeps_session. intros σ. subst m.
    apply keeps_bind; [apply adapter_keeps_socks_redis|intros _].
    apply keeps_bind; [apply adapter_keeps_socks_redis|intros b].
    apply adapter_keeps_socks_redis. }
  pose proof (adapter_session_set_userId_ne c j s i sid
                (assigned_userId data s) Hne) as H0.
  specialize (Hm _ H0).
  unfold exec, mbind, M_bind. unfold exec in Hm, H0. simpl in *.
  by destruct (m _) as [c' [a|x]].
Qed.

Lemma adapter_step_session c cmd i sid :
  binds cmd i sid = false → session (step c cmd) i sid = session c i sid.
Proof.
  intros Hb.
  destruct cmd as [|j s|j s|j s data|j s data|j s|j s|fs]; simpl in Hb |- *;
    try apply binds_false_ne in Hb.
  - unfold session. simpl.
    destruct (decide (i < length (nodes c))%nat) as [Hlt|Hge].
    + by rewrite lookup_app_l.
    + rewrite lookup_app_r by lia.
      rewrite (lookup_ge_None_2 (nodes c)) by lia.
      by destruct (i - length (nodes c))%nat as [|[|k]].
  - destruct (connected c j s); [done|]. by apply adapter_session_set_userId_ne.
  - unfold session. simpl.
    destruct (decide (j = i)) as [->|Hji].
    + rewrite list_lookup_alter_eq. destruct (nodes c !! i) as [nd|]; [|done].
      simpl. destruct Hb as [|Hb]; [done|]. by rewrite lookup_delete_ne.
    + by rewrite list_lookup_alter_ne.
  - unfold on_socket. destruct (connected c j s); [|done].
    by apply adapter_session_on_register_ne.
  - unfold on_socket. destruct (connected c j s); [|done].
    apply (keeps_exec (λ c', session c' i sid = session c i sid)); [|done].
    apply adapter_keeps_session. intros σ. apply adapter_keeps_socks_on_draw.
  - unfold on_socket. destruct (connected c j s); [|done].
    apply (keeps_exec (λ c', session c' i sid = session c i sid)); [|done].
    apply adapter_keeps_session. intros σ. apply adapter_keeps_socks_on_clear_all.
  - unfold on_socket. destruct (connected c j s); [|done].
    apply (keeps_exec (λ c', session c' i sid = session c i sid)); [|done].
    apply adapter_keeps_session. intros σ. apply adapter_keeps_socks_on_clear_mine.
  - done.
Qed.

Lemma adapter_step_store_ok c cmd : store_ok c → store_ok (step c cmd).
Proof.
  intros Hc.
  destruct cmd as [|j s|j s|j s data|j s data|j s|j s|fs]; simpl;
    unfold on_socket; try destruct (connected c j s); try done.
  - by apply keeps_exec; [apply adapter_keeps_store_on_register|].
  - by apply keeps_exec; [apply adapter_keeps_store_on_draw|].
  - by apply keeps_exec; [apply adapter_keeps_store_on_clear_all|].
  - by apply keeps_exec; [apply adapter_keeps_store_on_clear_mine|].
Qed.

Lemma adapter_reachable_store_ok c : reachable c → store_ok c.
Proof.
  induction 1 as [board Hb|c cmd _ IH].
  - exists (through_JSON <$> board). by apply decodes_written.
  - by apply adapter_step_store_ok.
Qed.

End adapter_run.

(** ** The adapter server: what each handler does, step by step *)

Section adapter_handlers.
Context {C : Codec}.
Import Adapter.
Implicit Types (c : cluster) (nds : list (gmap string json)).

Lemma adapter_connected_session c i sid :
  connected c i sid = true → ∃ u, session c i sid = Some u.
Proof. unfold connected. intros H. by apply bool_decide_eq_true in H. Qed.

Lemma adapter_get_userId_session c i sid u :
  session c i sid = Some u → get_userId i sid c = (c, Ok u).
Proof. intros H. unfold get_userId, gets. by rewrite H. Qed.

Lemma elem_of_cluster_packets keep event arg nds x :
  x ∈ cluster_packets keep event arg nds ↔
  ∃ i nd sid v, nds !! i = Some nd ∧ nd !! sid = Some v ∧ keep sid = true
                ∧ x = Emit i sid event arg.
Proof.
  unfold cluster_packets. rewrite list_elem_of_join. split.
  - intros (ps & Hx & Hps).
    apply elem_of_lookup_imap in Hps as (i & nd & -> & Hnd).
    unfold node_packets in Hx.
    apply list_elem_of_fmap in Hx as ([sid v] & -> & Hv).
    apply list_elem_of_filter in Hv as [Hk Hv].
    apply elem_of_map_to_list in Hv. by exists i, nd, sid, v.
  - intros (i & nd & sid & v & Hnd & Hv & Hk & ->).
    exists (node_packets keep event arg i nd). split.
    + unfold node_packets. apply list_elem_of_fmap.
      exists (sid, v). split; [done|]. apply list_elem_of_filter.
      split; [done|]. by apply elem_of_map_to_list.
    + apply elem_of_lookup_imap. by exists i, nd.
Qed.

Lemma adapter_on_register_run rl fs lg nds i sid data board :
  head fs ≠ Some true → decodes rl board →
  on_register i sid data (Cluster (Env rl fs lg) nds)
  = (Cluster
       (Env rl (tail fs)
          (lg ++ [Emit i sid "user-info"
                    (Some (JObj [("userId", assigned_userId data sid)]));
                  LRange true;
                  Emit i sid "init-board" (Some (JArr board))]))
       (alter (insert sid (assigned_userId data sid)) i nds),
     Ok tt).
Proof.
  intros Hf Hdec. unfold on_register, mbind, M_bind, set_userId, socket_emit,
    modify, redis, getFullBoard. cbn [environment nodes].
  unfold record, record_all. cbn [redis_list faults log].
  rewrite (loadBoard_ok _ _ _ board) by done.
  cbn [environment nodes redis_list faults log]. by rewrite <-!app_assoc.
Qed.

Lemma adapter_on_register_read_fails rl fs lg nds i sid data :
  on_register i sid data (Cluster (Env rl (true :: fs) lg) nds)
  = (Cluster
       (Env rl fs
          (lg ++ [Emit i sid "user-info"
                    (Some (JObj [("userId", assigned_userId data sid)]));
                  LRange false]))
       (alter (insert sid (assigned_userId data sid)) i nds),
     Throw RedisError).
Proof.
  unfold on_register, mbind, M_bind, set_userId, socket_emit, modify, redis,
    getFullBoard.
  cbn [environment nodes]. unfold record, record_all.
  cbn [redis_list faults log]. rewrite loadBoard_fail.
  cbn [environment nodes redis_list faults log]. by rewrite <-!app_assoc.
Qed.

Lemma adapter_on_draw_run rl fs lg nds i sid u data :
  session (Cluster (Env rl fs lg) nds) i sid = Some u → truthy u = true →
  head fs ≠ Some true →
  on_draw i sid data (Cluster (Env rl fs lg) nds)
  = (Cluster
       (Env (rl ++ [JSON_stringify (spread_with_userId data u)]) (tail fs)
          (lg ++ RPush [JSON_stringify (spread_with_userId data u)] true
              :: cluster_packets (λ s, negb (String.eqb s sid)) "draw"
                   (Some (spread_with_userId data u)) nds))
       nds, Ok tt).
Proof.
  intros Hs Hu Hf. unfold on_draw, mbind, M_bind.
  rewrite (adapter_get_userId_session _ _ _ u Hs), Hu. cbn [negb].
  unfold redis. cbn [environment nodes]. rewrite rPush_ok by done.
  unfold broadcast_emit, mbind, M_bind, gets, send, modify, record_all.
  cbn [environment nodes redis_list faults log]. by rewrite <-!app_assoc.
Qed.

Lemma adapter_on_draw_rpush_fails rl fs lg nds i sid u data :
  session (Cluster (Env rl (true :: fs) lg) nds) i sid = Some u →
  truthy u = true →
  on_draw i sid data (Cluster (Env rl (true :: fs) lg) nds)
  = (Cluster
       (Env rl fs (lg ++ [RPush [JSON_stringify (spread_with_userId data u)] false]))
       nds, Throw RedisError).
Proof.
  intros Hs Hu. unfold on_draw, mbind, M_bind.
  by rewrite (adapter_get_userId_session _ _ _ u Hs), Hu.
Qed.

Lemma adapter_on_clear_all_run rl fs lg nds i sid u :
  session (Cluster (Env rl fs lg) nds) i sid = Some u → truthy u = true →
  head fs ≠ Some true →
  on_clear_all i sid (Cluster (Env rl fs lg) nds)
  = (Cluster
       (Env [] (tail fs)
          (lg ++ Del true :: cluster_packets (λ _, true) "clear-all" None nds))
       nds, Ok tt).
Proof.
  intros Hs Hu Hf. unfold on_clear_all, mbind, M_bind.
  rewrite (adapter_get_userId_session _ _ _ u Hs), Hu. cbn [negb].
  unfold redis. cbn [environment nodes]. rewrite del_ok by done.
  unfold io_emit, mbind, M_bind, gets, send, modify, record_all.
  cbn [environment nodes redis_list faults log]. by rewrite <-!app_assoc.
Qed.

Lemma adapter_on_clear_mine_run rl lg nds i sid u board :
  session (Cluster (Env rl [] lg) nds) i sid = Some u → truthy u = true →
  decodes rl board →
  on_clear_mine i sid (Cluster (Env rl [] lg) nds)
  = (Cluster
       (Env (JSON_stringify <$> remainder u board) []
          (lg ++ LRange true :: Del true
              :: (if (0 <? length (remainder u board))%nat
                  then [RPush (JSON_stringify <$> remainder u board) true]
                  else [])
              ++ cluster_packets (λ _, true) "reset-board"
                   (Some (JArr (remainder u board))) nds))
       nds, Ok tt).
Proof.
  intros Hs Hu Hdec. unfold on_clear_mine, mbind, M_bind.
  rewrite (adapter_get_userId_session _ _ _ u Hs), Hu. cbn [negb].
  unfold redis, getFullBoard. cbn [environment nodes].
  rewrite (loadBoard_ok _ _ _ board) by done.
  unfold of_result. rewrite without_user_remainder by apply Hdec.
  cbn [environment nodes]. rewrite del_ok by done.
  cbn [environment nodes tail].
  unfold io_emit, mbind, M_bind, gets, send, modify, record_all.
  destruct (0 <? length (remainder u board))%nat eqn:E.
  - cbn [environment nodes]. rewrite rPush_ok by done.
    cbn [environment nodes redis_list faults log tail app].
    by rewrite <-!app_assoc.
  - unfold mret, M_ret.
    cbn [environment nodes redis_list faults log tail app].
    rewrite <-!app_assoc. by destruct (remainder u board).
Qed.

Lemma adapter_on_draw_unregistered c i sid u data :
  session c i sid = Some u → truthy u = false →
  on_draw i sid data c = (c, Ok tt).
Proof.
  intros Hs Hu. unfold on_draw, mbind, M_bind.
  by rewrite (adapter_get_userId_session _ _ _ u Hs), Hu.
Qed.

Lemma adapter_on_clear_all_unregistered c i sid u :
  session c i sid = Some u → truthy u = false →
  on_clear_all i sid c = (c, Ok tt).
Proof.
  intros Hs Hu. unfold on_clear_all, mbind, M_bind.
  by rewrite (adapter_get_userId_session _ _ _ u Hs), Hu.
Qed.

Lemma adapter_on_clear_mine_unregistered c i sid u :
  session c i sid = Some u → truthy u = false →
  on_clear_mine i sid c = (c, Ok tt).
Proof.
  intros Hs Hu. unfold on_clear_mine, mbind, M_bind.
  by rewrite (adapter_get_userId_session _ _ _ u Hs), Hu.
Qed.

End adapter_handlers.

(** ** Registration, whatever the store holds *)

Section register_shape.
Context {C : Codec}.

Lemma on_register_shape rl fs lg nds i sid data :
  ∃ fs' rest r,
    PubSub.on_register i sid data (PubSub.Cluster (Env rl fs lg) nds)
    = (PubSub.Cluster
         (Env rl fs'
            (lg ++ Emit i sid "user-info"
                     (Some (JObj [("userId", PubSub.assigned_userId data sid)]))
                :: rest))
         (alter (λ nd, PubSub.Node (PubSub.strokes nd)
                         (<[sid:=PubSub.assigned_userId data sid]>
                            (PubSub.sockets nd))) i nds), r).
Proof.
  unfold PubSub.on_register, mbind, M_bind, PubSub.set_userId,
    PubSub.socket_emit, modify, PubSub.redis, loadBoardFromRedis, lRange,
    next_fault, of_result, record, record_all.
  destruct fs as [|[] fs]; simpl; try destruct (parse_all rl);
    simpl; rewrite <-?app_assoc; by eexists _, _, _.
Qed.

Lemma adapter_on_register_shape rl fs lg nds i sid data :
  ∃ fs' rest r,
    Adapter.on_register i sid data (Adapter.Cluster (Env rl fs lg) nds)
    = (Adapter.Cluster
         (Env rl fs'
            (lg ++ Emit i sid "user-info"
                     (Some (JObj [("userId", Adapter.assigned_userId data sid)]))
                :: rest))
         (alter (insert sid (Adapter.assigned_userId data sid)) i nds), r).
Proof.
  unfold Adapter.on_register, mbind, M_bind, Adapter.set_userId,
    Adapter.socket_emit, modify, Adapter.redis, Adapter.getFullBoard,
    loadBoardFromRedis, lRange, next_fault, of_result, record, record_all.
  destruct fs as [|[] fs]; simpl; try destruct (parse_all rl);
    simpl; rewrite <-?app_assoc; by eexists _, _, _.
Qed.

Lemma assigned_userId_spec data sid :
  Adapter.assigned_userId data sid = PubSub.assigned_userId data sid ∧
  (∀ v, opt_member data "userId" = Some v → truthy v = true →
        PubSub.assigned_userId data sid = v) ∧
  (truthy_opt (opt_member data "userId") = false →
     PubSub.assigned_userId data sid = JStr (toUpperCase (slice_0_5 sid)) ∧
     (String.length (toUpperCase (slice_0_5 sid)) ≤ 5)%nat).
Proof.
  split; [done|]. unfold PubSub.assigned_userId. split.
  - intros v -> Hv. by rewrite Hv.
  - intros Hf. split.
    + destruct (opt_member data "userId") as [v|]; [|done].
      simpl in Hf. by rewrite Hf.
    + rewrite length_toUpperCase. apply length_substring_0.
Qed.

End register_shape.

(** ** Either server: the claims of the specification *)

Section whiteboard_facts.
Context {C : Codec}.
Import Whiteboard.
Implicit Types (d : server).

Lemma session_pubsub c i sid :
  session (ViaPubSub c) i sid = PubSub.session c i sid.
Proof.
  unfold session, PubSub.session. simpl. rewrite list_lookup_fmap.
  by destruct (PubSub.nodes c !! i).
Qed.

Lemma session_adapter c i sid :
  session (ViaAdapter c) i sid = Adapter.session c i sid.
Proof. done. Qed.

Lemma step_keeps_session d cmd i sid :
  binds cmd i sid = false → session (step d cmd) i sid = session d i sid.
Proof.
  intros Hb. destruct d as [c|c]; simpl.
  - rewrite !session_pubsub. by apply step_session.
  - rewrite !session_adapter. by apply adapter_step_session.
Qed.

Lemma reachable_stored d : reachable d → stored (environment d).
Proof.
  destruct d as [c|c]; simpl.
  - apply reachable_store_ok.
  - apply adapter_reachable_store_ok.
Qed.

Lemma session_pubsub_nodes (c : PubSub.cluster) i sid v :
  PubSub.session c i sid = Some v ↔
  ∃ nd, PubSub.nodes c !! i = Some nd ∧ PubSub.sockets nd !! sid = Some v.
Proof.
  unfold PubSub.session. destruct (PubSub.nodes c !! i) as [nd|]; simpl.
  - split; [by exists nd|]. by intros (? & [= <-] & ?).
  - split; [done|]. by intros (? & ? & ?).
Qed.

Lemma session_adapter_nodes (c : Adapter.cluster) i sid v :
  Adapter.session c i sid = Some v ↔
  ∃ nd, Adapter.nodes c !! i = Some nd ∧ nd !! sid = Some v.
Proof.
  unfold Adapter.session. destruct (Adapter.nodes c !! i) as [nd|]; simpl.
  - split; [by exists nd|]. by intros (? & [= <-] & ?).
  - split; [done|]. by intros (? & ? & ?).
Qed.

Lemma closures_fmap_strokes (f : PubSub.node → list json)
    (nds : list PubSub.node) :
  PubSub.sockets <$> ((λ nd, PubSub.Node (f nd) (PubSub.sockets nd)) <$> nds)
  = PubSub.sockets <$> nds.
Proof. rewrite <-list_fmap_compose. by apply list_fmap_ext. Qed.

Lemma fanout_fmap_strokes event arg (f : PubSub.node → list json)
    (nds : list PubSub.node) :
  PubSub.fanout event arg
    ((λ nd, PubSub.Node (f nd) (PubSub.sockets nd)) <$> nds)
  = PubSub.fanout event arg nds.
Proof. unfold PubSub.fanout. by rewrite imap_fmap. Qed.

(** A [draw] of a registered session while Redis is up. *)
Lemma draw_run d i sid u data :
  session d i sid = Some u → truthy u = true →
  faults (environment d) = [] →
  ∃ packets,
    history (step d (Draw i sid data))
    = history d ++ RPush [JSON_stringify (stroke_of u data)] true :: packets ∧
    store (step d (Draw i sid data))
    = store d ++ [JSON_stringify (stroke_of u data)] ∧
    faults (environment (step d (Draw i sid data))) = [] ∧
    closures (step d (Draw i sid data)) = closures d ∧
    settle d (Draw i sid data) = Ok tt ∧
    (∀ j s arg, Emit j s "draw" arg ∈ packets →
                arg = Some (carried d (stroke_of u data))) ∧
    (∀ j s, is_Some (session d j s) → s ≠ sid →
            Emit j s "draw" (Some (carried d (stroke_of u data))) ∈ packets) ∧
    (∀ c, d = ViaPubSub c →
          Emit i sid "draw" (Some (carried d (stroke_of u data))) ∈ packets).
Proof.
  intros Hs Hu Hf.
  destruct d as [[[rl fs lg] nds]|[[rl fs lg] nds]]; simpl in Hf; subst fs.
  - rewrite session_pubsub in Hs.
    exists (Publish (JSON_stringify (PubSub.msg_draw (stroke_of u data))) true
            :: PubSub.fanout "draw" (Some (through_JSON (stroke_of u data))) nds).
    cbn [step settle PubSub.step PubSub.settle]. unfold PubSub.on_socket.
    rewrite (session_connected _ _ _ _ Hs). unfold exec, outcome.
    rewrite (on_draw_run _ _ _ _ _ _ u) by done.
    unfold store, history, closures. cbn [environment fst snd].
    cbn [PubSub.environment PubSub.nodes redis_list faults log tail].
    rewrite closures_fmap_strokes.
    repeat (split; [done|]). split; [|split].
    + intros j s arg Hin. apply elem_of_cons in Hin as [|Hin]; [done|].
      by apply elem_of_fanout in Hin as (? & ? & ? & ? & _ & _ & [= _ _ ->]).
    + intros j s [v Hv] _. rewrite session_pubsub in Hv.
      apply session_pubsub_nodes in Hv as (nd & Hnd & Hv).
      apply elem_of_cons. right. apply elem_of_fanout. by exists j, nd, s, v.
    + intros c _. apply session_pubsub_nodes in Hs as (nd & Hnd & Hv).
      apply elem_of_cons. right. apply elem_of_fanout. by exists i, nd, sid, u.
  - rewrite session_adapter in Hs.
    exists (Adapter.cluster_packets (λ s, negb (String.eqb s sid)) "draw"
              (Some (stroke_of u data)) nds).
    cbn [step settle Adapter.step Adapter.settle]. unfold Adapter.on_socket.
    rewrite (bool_decide_eq_true_2 _ (mk_is_Some _ _ Hs)
             : Adapter.connected _ i sid = true).
    unfold exec, outcome.
    rewrite (adapter_on_draw_run _ _ _ _ _ _ u) by done.
    unfold store, history, closures. cbn [environment fst snd].
    cbn [Adapter.environment Adapter.nodes redis_list faults log tail].
    repeat (split; [done|]). split; [|split].
    + intros j s arg Hin.
      by apply elem_of_cluster_packets
        in Hin as (? & ? & ? & ? & _ & _ & _ & [= _ _ ->]).
    + intros j s [v Hv] Hne. rewrite session_adapter in Hv.
      apply session_adapter_nodes in Hv as (nd & Hnd & Hv).
      apply elem_of_cluster_packets. exists j, nd, s, v.
      repeat split; try done. apply negb_true_iff. by apply String.eqb_neq.
    + done.
Qed.

(** The log of a [draw] of a registered session, whatever fails: the
    append comes first, and nothing follows a failed append. *)
Lemma draw_log_shape d i sid u data :
  session d i sid = Some u → truthy u = true →
  ∃ ok rest,
    history (step d (Draw i sid data))
    = history d ++ RPush [JSON_stringify (stroke_of u data)] ok :: rest ∧
    (ok = false → rest = []).
Proof.
  intros Hs Hu.
  destruct d as [[[rl fs lg] nds]|[[rl fs lg] nds]].
  - rewrite session_pubsub in Hs.
    cbn [step PubSub.step]. unfold PubSub.on_socket.
    rewrite (session_connected _ _ _ _ Hs). unfold exec, history.
    destruct fs as [|[] [|[] fs]].
    + rewrite (on_draw_run _ _ _ _ _ _ u) by done. by eexists true, _.
    + rewrite (on_draw_rpush_fails _ _ _ _ _ _ u) by done. by exists false, [].
    + rewrite (on_draw_rpush_fails _ _ _ _ _ _ u) by done. by exists false, [].
    + rewrite (on_draw_rpush_fails _ _ _ _ _ _ u) by done. by exists false, [].
    + rewrite (on_draw_run _ _ _ _ _ _ u) by done. by eexists true, _.
    + rewrite (on_draw_publish_fails _ _ _ _ _ _ _ u) by done.
      by eexists true, _.
    + rewrite (on_draw_run _ _ _ _ _ _ u) by done. by eexists true, _.
  - rewrite session_adapter in Hs.
    cbn [step Adapter.step]. unfold Adapter.on_socket.
    rewrite (bool_decide_eq_true_2 _ (mk_is_Some _ _ Hs)
             : Adapter.connected _ i sid = true).
    unfold exec, history.
    destruct fs as [|[] fs].
    + rewrite (adapter_on_draw_run _ _ _ _ _ _ u) by done. by eexists true, _.
    + rewrite (adapter_on_draw_rpush_fails _ _ _ _ _ _ u) by done.
      by exists false, [].
    + rewrite (adapter_on_draw_run _ _ _ _ _ _ u) by done. by eexists true, _.
Qed.

Lemma draw_append_fails d i sid u data fs :
  session d i sid = Some u → truthy u = true →
  faults (environment d) = true :: fs →
  history (step d (Draw i sid data))
  = history d ++ [RPush [JSON_stringify (stroke_of u data)] false] ∧
  store (step d (Draw i sid data)) = store d ∧
  closures (step d (Draw i sid data)) = closures d ∧
  caches (step d (Draw i sid data)) = caches d ∧
  settle d (Draw i sid data) = Throw RedisError.
Proof.
  intros Hs Hu Hf.
  destruct d as [[[rl fs0 lg] nds]|[[rl fs0 lg] nds]]; simpl in Hf; subst fs0.
  - rewrite session_pubsub in Hs.
    cbn [step settle PubSub.step PubSub.settle]. unfold PubSub.on_socket.
    rewrite (session_connected _ _ _ _ Hs). unfold exec, outcome.
    by rewrite (on_draw_rpush_fails _ _ _ _ _ _ u).
  - rewrite session_adapter in Hs.
    cbn [step settle Adapter.step Adapter.settle]. unfold Adapter.on_socket.
    rewrite (bool_decide_eq_true_2 _ (mk_is_Some _ _ Hs)
             : Adapter.connected _ i sid = true).
    unfold exec, outcome.
    by rewrite (adapter_on_draw_rpush_fails _ _ _ _ _ _ u).
Qed.

Lemma elem_of_everyone d event arg x :
  x ∈ everyone d event arg ↔
  ∃ j s, is_Some (session d j s) ∧ x = Emit j s event arg.
Proof.
  destruct d as [c|c]; simpl.
  - rewrite elem_of_fanout. split.
    + intros (j & nd & s & v & Hnd & Hv & ->). exists j, s. split; [|done].
      rewrite session_pubsub. exists v. apply session_pubsub_nodes. by exists nd.
    + intros (j & s & [v Hv] & ->). rewrite session_pubsub in Hv.
      apply session_pubsub_nodes in Hv as (nd & Hnd & Hv). by exists j, nd, s, v.
  - rewrite elem_of_cluster_packets. split.
    + intros (j & nd & s & v & Hnd & Hv & _ & ->). exists j, s. split; [|done].
      exists v. apply session_adapter_nodes. by exists nd.
    + intros (j & s & [v Hv] & ->).
      apply session_adapter_nodes in Hv as (nd & Hnd & Hv). by exists j, nd, s, v.
Qed.

(** A [clear-all] of a registered session while Redis is up. *)
Lemma clear_all_run d i sid u :
  session d i sid = Some u → truthy u = true →
  faults (environment d) = [] →
  ∃ pre,
    history (step d (ClearAll i sid))
    = history d ++ Del true :: pre ++ everyone d "clear-all" None ∧
    (∀ x, x ∈ pre → ∃ raw, x = Publish raw true) ∧
    store (step d (ClearAll i sid)) = [] ∧
    faults (environment (step d (ClearAll i sid))) = [] ∧
    closures (step d (ClearAll i sid)) = closures d ∧
    caches (step d (ClearAll i sid)) = (λ _, []) <$> caches d ∧
    everyone (step d (ClearAll i sid)) "clear-all" None
    = everyone d "clear-all" None.
Proof.
  intros Hs Hu Hf.
  destruct d as [[[rl fs lg] nds]|[[rl fs lg] nds]]; simpl in Hf; subst fs.
  - rewrite session_pubsub in Hs.
    exists [Publish (JSON_stringify PubSub.msg_clear_all) true].
    cbn [step PubSub.step]. unfold PubSub.on_socket.
    rewrite (session_connected _ _ _ _ Hs). unfold exec.
    rewrite (on_clear_all_run _ _ _ _ _ _ u) by done.
    unfold store, history, closures, caches, everyone.
    cbn [environment fst].
    cbn [PubSub.environment PubSub.nodes redis_list faults log tail].
    rewrite (closures_fmap_strokes (λ _, [])).
    rewrite (fanout_fmap_strokes _ _ (λ _, [])).
    repeat split; try done.
    + intros x Hx. apply list_elem_of_singleton in Hx as ->. by eexists.
    + rewrite <-!list_fmap_compose. by apply list_fmap_ext.
  - rewrite session_adapter in Hs. exists [].
    cbn [step Adapter.step]. unfold Adapter.on_socket.
    rewrite (bool_decide_eq_true_2 _ (mk_is_Some _ _ Hs)
             : Adapter.connected _ i sid = true).
    unfold exec. rewrite (adapter_on_clear_all_run _ _ _ _ _ _ u) by done.
    unfold store, history, closures, caches, everyone.
    cbn [environment fst].
    cbn [Adapter.environment Adapter.nodes redis_list faults log tail].
    repeat split; try done. intros x Hx. by apply elem_of_nil in Hx.
Qed.


(** What a client shows after a round of [clear-all] packets. *)
Lemma client_step_other j s v x :
  (∀ j' s' event arg, x ≠ Emit j' s' event arg) → client_step j s v x = v.
Proof. intros H. destruct x; try done. by destruct (H node sid event arg). Qed.

Lemma client_fold_others j s v xs :
  (∀ x, x ∈ xs → ∀ j' s' event arg, x ≠ Emit j' s' event arg) →
  foldl (client_step j s) v xs = v.
Proof.
  revert v. induction xs as [|x xs IH]; intros v H; [done|]. simpl.
  rewrite client_step_other by (apply H; left).
  apply IH. intros y Hy. apply H. by right.
Qed.

Lemma client_fold_clear_all j s v ps :
  (∀ x, x ∈ ps → ∃ j' s', x = Emit j' s' "clear-all" None) →
  (Emit j s "clear-all" None ∈ ps ∧ foldl (client_step j s) v ps = [])
  ∨ ((Emit j s "clear-all" None ∉ ps) ∧ foldl (client_step j s) v ps = v).
Proof.
  revert v. induction ps as [|x ps IH]; intros v Hall.
  - right. split; [apply not_elem_of_nil|done].
  - destruct (Hall x) as (j' & s' & ->); [left|].
    assert (∀ x, x ∈ ps → ∃ j' s', x = Emit j' s' "clear-all" None) as Hall'.
    { intros y Hy. apply Hall. by right. }
    cbn [foldl client_step].
    destruct (bool_decide (j' = j) && String.eqb s' s) eqn:E.
    + apply andb_true_iff in E as [Hj Hsid].
      apply bool_decide_eq_true in Hj as ->.
      apply String.eqb_eq in Hsid as ->.
      left. split; [left|].
      simpl. destruct (IH [] Hall') as [[_ ->]|[_ ->]]; done.
    + apply binds_false_ne in E.
      destruct (IH v Hall') as [[Hin ->]|[Hnin ->]].
      * left. split; [by right|done].
      * right. split; [|done]. intros Hin.
        apply elem_of_cons in Hin as [[= -> ->]|Hin]; [by destruct E|done].
Qed.

End whiteboard_facts.

Section claims.
Context {C : Codec}.
Import Whiteboard.
Implicit Types (d : server).

(** C7.  A [draw], [clear-all] or [clear-mine] that arrives on a connection
    whose closure still holds the initial [null] (no [register] yet) is
    ignored: the whole state is as before (the Redis list, the log, so no
    publication and no packet to any client) and the handler's promise
    resolves, so nothing is surfaced to the transport. *)
Theorem unregistered_command_is_ignored d cmd i sid :
  session d i sid = Some JNull →
  is_guarded cmd i sid = true →
  step d cmd = d ∧ settle d cmd = Ok tt.
Proof.
  intros Hs Hg.
  destruct cmd as [|j s|j s|j s data|j s data|j s|j s|fs]; try done;
    simpl in Hg; apply andb_true_iff in Hg as [Hj Hsid];
    apply bool_decide_eq_true in Hj as ->;
    apply String.eqb_eq in Hsid as ->;
    destruct d as [c|c];
    rewrite ?session_pubsub, ?session_adapter in Hs; simpl.
  - unfold PubSub.on_socket, exec, outcome.
    rewrite (session_connected _ _ _ _ Hs).
    by rewrite (on_draw_unregistered c i sid JNull).
  - unfold Adapter.on_socket, Adapter.connected, exec, outcome.
    rewrite Hs. simpl.
    by rewrite (adapter_on_draw_unregistered c i sid JNull).
  - unfold PubSub.on_socket, exec, outcome.
    rewrite (session_connected _ _ _ _ Hs).
    by rewrite (on_clear_all_unregistered c i sid JNull).
  - unfold Adapter.on_socket, Adapter.connected, exec, outcome.
    rewrite Hs. simpl.
    by rewrite (adapter_on_clear_all_unregistered c i sid JNull).
  - unfold PubSub.on_socket, exec, outcome.
    rewrite (session_connected _ _ _ _ Hs).
    by rewrite (on_clear_mine_unregistered c i sid JNull).
  - unfold Adapter.on_socket, Adapter.connected, exec, outcome.
    rewrite Hs. simpl.
    by rewrite (adapter_on_clear_mine_unregistered c i sid JNull).
Qed.

(** C6 (amended).  The [userId] bound to a connection is changed by nothing
    but a [register] on that same connection: every other command, on this
    or on any other connection of any node, and every start of a node or
    Redis outage, leaves it as it is.  (The life cycle of the socket itself,
    [Connect] and [Disconnect], begins and ends the closure.) *)
Theorem only_register_rebinds_userId d cmd i sid :
  binds cmd i sid = false →
  session (step d cmd) i sid = session d i sid.
Proof. apply step_keeps_session. Qed.

(** C8 (amended).  [register] binds the connection to the client-supplied
    [userId] when the payload has one that is truthy (for a string: not
    empty); otherwise to the first five characters of the socket id in upper
    case.  The first thing the handler does after that is to send the bound
    id in a [user-info] packet; the read of the board and the [init-board]
    packet come after it. *)
Theorem register_assigns_userId d i sid data :
  is_Some (session d i sid) →
  ∃ userId rest,
    session (step d (Register i sid data)) i sid = Some userId ∧
    (∀ v, opt_member data "userId" = Some v → truthy v = true → userId = v) ∧
    (truthy_opt (opt_member data "userId") = false →
       userId = JStr (toUpperCase (slice_0_5 sid)) ∧
       (String.length (toUpperCase (slice_0_5 sid)) ≤ 5)%nat) ∧
    history (step d (Register i sid data))
    = history d
      ++ Emit i sid "user-info" (Some (JObj [("userId", userId)])) :: rest.
Proof.
  intros Hs.
  destruct (assigned_userId_spec data sid) as (HA & Hgiven & Hderived).
  exists (PubSub.assigned_userId data sid).
  destruct d as [[[rl fs lg] nds]|[[rl fs lg] nds]].
  - rewrite session_pubsub in Hs.
    destruct (on_register_shape rl fs lg nds i sid data) as (fs' & rest & r & E).
    exists rest. cbn [step]. rewrite session_pubsub. simpl.
    unfold PubSub.on_socket.
    rewrite (bool_decide_eq_true_2 _ Hs : PubSub.connected _ i sid = true).
    unfold exec. rewrite E. simpl.
    split; [|by split; [|split]].
    unfold PubSub.session in *. simpl in *.
    rewrite list_lookup_alter_eq. destruct (nds !! i); [|by destruct Hs].
    simpl. apply lookup_insert_eq.
  - rewrite session_adapter in Hs.
    destruct (adapter_on_register_shape rl fs lg nds i sid data)
      as (fs' & rest & r & E).
    exists rest. cbn [step]. rewrite session_adapter. simpl.
    unfold Adapter.on_socket.
    rewrite (bool_decide_eq_true_2 _ Hs : Adapter.connected _ i sid = true).
    unfold exec. rewrite E, HA. simpl.
    split; [|by split; [|split]].
    unfold Adapter.session in *. simpl in *.
    rewrite list_lookup_alter_eq. destruct (nds !! i); [|by destruct Hs].
    simpl. apply lookup_insert_eq.
Qed.

(** C1.  After any sequence of commands, with Redis failing at will in
    between (so the cache of the serving node may hold anything), a
    [register] on any socket of any node reads the Redis list and sends it
    back unchanged: when the read succeeds, the [init-board] packet carries
    exactly the board whose serialisations are the items of the list at that
    moment, in order; when the read fails no [init-board] is sent.  The list
    itself is left as it was. *)
Theorem bootstrap_reads_the_store d i sid data :
  reachable d →
  is_Some (session d i sid) →
  ∃ board userId,
    decodes (store d) board ∧
    store (step d (Register i sid data)) = store d ∧
    (head (faults (environment d)) ≠ Some true →
       history (step d (Register i sid data))
       = history d
         ++ [Emit i sid "user-info" (Some (JObj [("userId", userId)]));
             LRange true;
             Emit i sid "init-board" (Some (JArr board))]) ∧
    (head (faults (environment d)) = Some true →
       history (step d (Register i sid data))
       = history d
         ++ [Emit i sid "user-info" (Some (JObj [("userId", userId)]));
             LRange false]).
Proof.
  intros Hr Hs. destruct (reachable_stored d Hr) as [board Hdec].
  exists board, (PubSub.assigned_userId data sid).
  split; [done|]. clear Hr.
  destruct d as [[[rl fs lg] nds]|[[rl fs lg] nds]]; cbn [step].
  - rewrite session_pubsub in Hs. cbn [PubSub.step]. unfold PubSub.on_socket.
    rewrite (bool_decide_eq_true_2 _ Hs : PubSub.connected _ i sid = true).
    unfold exec, store, history. cbn [environment] in *.
    destruct (decide (head fs = Some true)) as [Hf|Hf].
    + destruct fs as [|[] fs]; try done.
      rewrite on_register_read_fails. by repeat split.
    + rewrite (on_register_run _ _ _ _ _ _ _ board) by done. by repeat split.
  - rewrite session_adapter in Hs. cbn [Adapter.step]. unfold Adapter.on_socket.
    rewrite (bool_decide_eq_true_2 _ Hs : Adapter.connected _ i sid = true).
    unfold exec, store, history. cbn [environment] in *.
    destruct (decide (head fs = Some true)) as [Hf|Hf].
    + destruct fs as [|[] fs]; try done.
      rewrite adapter_on_register_read_fails. by repeat split.
    + rewrite (adapter_on_register_run _ _ _ _ _ _ _ board) by done.
      by repeat split.
Qed.

(** C10 (amended).  A [draw] of a registered session builds the stroke
    [{ ...data, userId }], whose [userId] property is the session's whatever
    the payload holds: a [userId] in the payload is overwritten.  The
    serialisation of that stroke is appended to the Redis list.  The stroke
    read back from that item, and the stroke that the sockets are handed,
    have the session's [userId] as it comes through JSON (server.js) or as
    it is (the adapter server) as their [userId]: the session's [userId]
    itself when that is a string, a finite number or a boolean; [null], in
    the list and on server.js, when it is a number that is not finite.
    (Redis up.) *)
Theorem draw_stamps_session_userId d i sid u data :
  session d i sid = Some u → truthy u = true →
  faults (environment d) = [] →
  userId_of (stroke_of u data) = Some u ∧
  store (step d (Draw i sid data))
  = store d ++ [JSON_stringify (stroke_of u data)] ∧
  parse (JSON_stringify (stroke_of u data))
  = Ok (through_JSON (stroke_of u data)) ∧
  userId_of (through_JSON (stroke_of u data)) = Some (through_JSON u) ∧
  userId_of (carried d (stroke_of u data)) = Some (carried d u) ∧
  (survives_JSON u = true → through_JSON u = u ∧ carried d u = u) ∧
  ∃ new, history (step d (Draw i sid data)) = history d ++ new ∧
         ∀ j s arg, Emit j s "draw" arg ∈ new →
                    arg = Some (carried d (stroke_of u data)).
Proof.
  intros Hs Hu Hf.
  destruct (draw_run d i sid u data Hs Hu Hf)
    as (packets & Hh & Hst & _ & _ & _ & Hall & _).
  assert (userId_of (through_JSON (stroke_of u data)) = Some (through_JSON u))
    as Hcopy.
  { rewrite userId_of_through by done. unfold stroke_of.
    by rewrite userId_of_spread. }
  split; [apply userId_of_spread|]. split; [done|].
  split; [unfold parse; by rewrite parse_stringify|].
  split; [done|].
  split; [destruct d; [done|apply userId_of_spread]|].
  split.
  - intros Hsv. pose proof (survives_through u Hsv) as E.
    split; [done|]. by destruct d.
  - eexists. split; [exact Hh|].
    intros j s arg Hin. apply elem_of_cons in Hin as [|Hin]; [done|].
    by apply (Hall j s).
Qed.

(** C4 (amended).  While Redis is up, the stroke of a [draw] of a
    registered session is pushed, in a [draw] packet, to every socket
    connected to any node whose id is not the sender's id; server.js pushes
    it to the sender's own socket as well, the adapter server (which uses
    [socket.broadcast.emit]) does not.  (On server.js the packet holds the
    stroke as the subscriber parsed it from the channel message.) *)
Theorem draw_fans_out_to_the_other_sockets d i sid u data :
  session d i sid = Some u → truthy u = true →
  faults (environment d) = [] →
  ∃ new, history (step d (Draw i sid data)) = history d ++ new ∧
    (∀ j s, is_Some (session d j s) → s ≠ sid →
            Emit j s "draw" (Some (carried d (stroke_of u data))) ∈ new) ∧
    (∀ c, d = ViaPubSub c →
          Emit i sid "draw" (Some (carried d (stroke_of u data))) ∈ new).
Proof.
  intros Hs Hu Hf.
  destruct (draw_run d i sid u data Hs Hu Hf)
    as (packets & Hh & _ & _ & _ & _ & _ & Hothers & Hself).
  eexists. split; [exact Hh|]. split.
  - intros j s Hj Hne. apply elem_of_cons. right. by apply Hothers.
  - intros c Hc. apply elem_of_cons. right. by apply (Hself c).
Qed.

(** C3.  In a [draw] of a registered session, when the append to the Redis
    list fails, the log shows the failed append and nothing else (no
    publication, no packet to any client), the list, the closures and the
    caches are as before, and the handler's promise rejects.  Whatever
    fails, every publication and every packet that the handler logs comes
    after a successful append of the stroke, which is the first thing in
    the log. *)
Theorem draw_writes_before_it_publishes d i sid u data :
  session d i sid = Some u → truthy u = true →
  (∀ fs, faults (environment d) = true :: fs →
     history (step d (Draw i sid data))
     = history d ++ [RPush [JSON_stringify (stroke_of u data)] false] ∧
     store (step d (Draw i sid data)) = store d ∧
     closures (step d (Draw i sid data)) = closures d ∧
     caches (step d (Draw i sid data)) = caches d ∧
     settle d (Draw i sid data) = Throw RedisError) ∧
  (∀ new k x,
     history (step d (Draw i sid data)) = history d ++ new →
     new !! k = Some x → is_broadcast x = true →
     new !! 0%nat = Some (RPush [JSON_stringify (stroke_of u data)] true)
     ∧ (0 < k)%nat).
Proof.
  intros Hs Hu. split.
  - intros fs Hf. by apply (draw_append_fails d i sid u data fs).
  - intros new k x Hh Hk Hx.
    destruct (draw_log_shape d i sid u data Hs Hu) as (ok & rest & Hh' & Hok).
    rewrite Hh' in Hh. apply app_inv_head in Hh as <-.
    destruct k as [|k]; simpl in Hk.
    + by injection Hk as <-.
    + split; [|lia]. destruct ok; [done|].
      rewrite (Hok eq_refl) in Hk. done.
Qed.

(** C5.  Three strokes drawn one after the other by registered sessions
    (of the same user or of different users, on any nodes), with Redis up
    and nothing else in between, are at the tail of the Redis list in the
    order in which they were drawn: a full read after them returns the
    board that was there followed by [A; B; C] (each as it comes through
    JSON), and just [A; B; C] on a board that was empty. *)
Theorem strokes_are_read_back_in_draw_order
    d board i1 s1 u1 a i2 s2 u2 b i3 s3 u3 c :
  decodes (store d) board →
  faults (environment d) = [] →
  session d i1 s1 = Some u1 → truthy u1 = true →
  session d i2 s2 = Some u2 → truthy u2 = true →
  session d i3 s3 = Some u3 → truthy u3 = true →
  outcome loadBoardFromRedis
    (environment (run d [Draw i1 s1 a; Draw i2 s2 b; Draw i3 s3 c]))
  = Ok (board
        ++ (through_JSON <$> [stroke_of u1 a; stroke_of u2 b; stroke_of u3 c])).
Proof.
  intros Hdec Hf H1 Hu1 H2 Hu2 H3 Hu3. cbn [run foldl].
  destruct (draw_run d i1 s1 u1 a H1 Hu1 Hf) as (_ & _ & Hst1 & Hf1 & _).
  set (d1 := step d (Draw i1 s1 a)) in *.
  assert (session d1 i2 s2 = Some u2) as H2'
    by (unfold d1; by rewrite step_keeps_session).
  assert (session d1 i3 s3 = Some u3) as H3'
    by (unfold d1; by rewrite step_keeps_session).
  destruct (draw_run d1 i2 s2 u2 b H2' Hu2 Hf1) as (_ & _ & Hst2 & Hf2 & _).
  set (d2 := step d1 (Draw i2 s2 b)) in *.
  assert (session d2 i3 s3 = Some u3) as H3''
    by (unfold d2; by rewrite step_keeps_session).
  destruct (draw_run d2 i3 s3 u3 c H3'' Hu3 Hf2) as (_ & _ & Hst3 & Hf3 & _).
  apply loadBoard_up; [done|].
  fold (store (step d2 (Draw i3 s3 c))). rewrite Hst3, Hst2, Hst1.
  change (board
          ++ (through_JSON <$> [stroke_of u1 a; stroke_of u2 b; stroke_of u3 c]))
    with (board ++ [through_JSON (stroke_of u1 a)]
            ++ [through_JSON (stroke_of u2 b)] ++ [through_JSON (stroke_of u3 c)]).
  rewrite !app_assoc.
  repeat apply decodes_app; try done; apply decodes_stroke.
Qed.

(** C9.  With Redis up, a second [clear-all] by a registered session
    changes nothing that the first one left: after either the Redis list is
    empty, every cache is empty, the closures are the same, and every
    client shows the same board, which is the empty one on every connected
    socket. *)
Theorem clear_all_is_idempotent d i sid u :
  session d i sid = Some u → truthy u = true →
  faults (environment d) = [] →
  let d1 := step d (ClearAll i sid) in
  let d2 := step d1 (ClearAll i sid) in
  store d1 = [] ∧ store d2 = [] ∧
  Forall (λ cache, cache = []) (caches d1) ∧ caches d2 = caches d1 ∧
  closures d2 = closures d1 ∧
  (∀ j s, client_board j s (history d2) = client_board j s (history d1)) ∧
  (∀ j s, is_Some (session d j s) → client_board j s (history d1) = []).
Proof.
  intros Hs Hu Hf d1 d2.
  destruct (clear_all_run d i sid u Hs Hu Hf)
    as (pre1 & Hh1 & Hpre1 & Hst1 & Hf1 & Hcl1 & Hca1 & Hev1).
  fold d1 in Hh1, Hst1, Hf1, Hcl1, Hca1, Hev1.
  assert (session d1 i sid = Some u) as Hs1
    by (unfold d1; by rewrite step_keeps_session).
  destruct (clear_all_run d1 i sid u Hs1 Hu Hf1)
    as (pre2 & Hh2 & Hpre2 & Hst2 & _ & Hcl2 & Hca2 & _).
  fold d2 in Hh2, Hst2, Hcl2, Hca2.
  assert (∀ x, x ∈ everyone d "clear-all" None →
               ∃ j' s', x = Emit j' s' "clear-all" None) as Hall.
  { intros x Hx. apply elem_of_everyone in Hx as (j' & s' & _ & ->). eauto. }
  assert (∀ pre j s v,
            (∀ x, x ∈ pre → ∃ raw, x = Publish raw true) →
            foldl (client_step j s) v
              (Del true :: pre ++ everyone d "clear-all" None)
            = foldl (client_step j s) v (everyone d "clear-all" None)) as Hskip.
  { intros pre j s v Hpre. cbn [foldl client_step]. rewrite foldl_app.
    f_equal. apply client_fold_others.
    intros x Hx. by destruct (Hpre x Hx) as [raw ->]. }
  repeat split; try done.
  - rewrite Hca1. apply Forall_fmap, Forall_forall. by intros.
  - rewrite Hca2, Hca1, <-list_fmap_compose. by apply list_fmap_ext.
  - intros j s. unfold client_board. rewrite Hh2, Hev1, foldl_app, Hskip by done.
    rewrite Hh1, foldl_app, Hskip by done.
    set (v := foldl (client_step j s) [] (history d)).
    destruct (client_fold_clear_all j s v _ Hall) as [[Hin ->]|[Hnin ->]].
    + by destruct (client_fold_clear_all j s [] _ Hall) as [[_ ->]|[_ ->]].
    + by destruct (client_fold_clear_all j s v _ Hall) as [[? _]|[_ ->]].
  - intros j s Hj. unfold client_board. rewrite Hh1, foldl_app, Hskip by done.
    destruct (client_fold_clear_all j s
                (foldl (client_step j s) [] (history d)) _ Hall)
      as [[_ ->]|[Hnin _]]; [done|].
    destruct Hnin. apply elem_of_everyone. by exists j, s.
Qed.

End claims.

(** ** The claims on concrete runs *)

Section concrete.
Import Whiteboard Demo.
#[local] Existing Instance plain_codec.

(** Unfolds a run into its steps and walks the constructors. *)
Ltac walk :=
  unfold pubsub_pair, adapter_pair, pubsub_abc, adapter_abc, pubsub_stale,
    pubsub_fresh, adapter_down, two_users;
  cbn [run foldl step reachable];
  repeat first [ apply PubSub.reachable_step | apply Adapter.reachable_step ];
  first [ apply PubSub.reachable_boot | apply Adapter.reachable_boot ];
  apply Forall_nil_2.

Example stale_cache_without_a_failure :
  caches pubsub_stale = [[]] ∧
  store pubsub_stale = [JObj [("path", JStr "A"); ("userId", JNull)]] ∧
  history pubsub_stale
  = [Publish (JObj [("type", JStr "init-sync")]) true; LRange true;
     Emit 0 s1 "user-info" (Some (JObj [("userId", JInf false)]));
     LRange true; Emit 0 s1 "init-board" (Some (JArr []));
     RPush [JObj [("path", JStr "A"); ("userId", JNull)]] true;
     Publish (JObj [("type", JStr "draw");
                    ("payload", JObj [("path", JStr "A"); ("userId", JNull)])])
       true;
     Emit 0 s1 "draw" (Some (JObj [("path", JStr "A"); ("userId", JNull)]));
     LRange true; Del true;
     RPush [JObj [("path", JStr "A"); ("userId", JNull)]] true;
     Publish (JObj [("type", JStr "clear-user");
                    ("payload", JObj [("userId", JNull)])]) true;
     Emit 0 s1 "reset-board" (Some (JArr []))].
Proof. by vm_compute. Qed.

Lemma bootstrap_reads_the_store_witness :
  reachable pubsub_stale ∧ is_Some (session pubsub_stale 0 s2) ∧
  ∃ board userId,
    decodes (store pubsub_stale) board ∧
    store (step pubsub_stale (Register 0 s2 None)) = store pubsub_stale ∧
    (head (faults (environment pubsub_stale)) ≠ Some true →
       history (step pubsub_stale (Register 0 s2 None))
       = history pubsub_stale
         ++ [Emit 0 s2 "user-info" (Some (JObj [("userId", userId)]));
             LRange true;
             Emit 0 s2 "init-board" (Some (JArr board))]) ∧
    (head (faults (environment pubsub_stale)) = Some true →
       history (step pubsub_stale (Register 0 s2 None))
       = history pubsub_stale
         ++ [Emit 0 s2 "user-info" (Some (JObj [("userId", userId)]));
             LRange false]).
Proof.
  assert (reachable pubsub_stale) as Hr by walk.
  assert (is_Some (session pubsub_stale 0 s2)) as Hs by (vm_compute; eauto).
  split; [exact Hr|]. split; [exact Hs|].
  exact (bootstrap_reads_the_store pubsub_stale 0 s2 None Hr Hs).
Defined.

Example clear_mine_on_the_spec_board :
  store pubsub_abc
  = [JObj [("path", JStr "A"); ("userId", JStr "u1")];
     JObj [("path", JStr "B"); ("userId", JStr "u2")];
     JObj [("path", JStr "C"); ("userId", JStr "u1")]] ∧
  store (step pubsub_abc (ClearMine 0 s1))
  = [JObj [("path", JStr "B"); ("userId", JStr "u2")]] ∧
  store (step adapter_abc (ClearMine 0 s1))
  = [JObj [("path", JStr "B"); ("userId", JStr "u2")]].
Proof. by vm_compute. Qed.


Lemma draw_writes_before_it_publishes_witness :
  session adapter_down 0 s1 = Some (JStr "u1") ∧ truthy (JStr "u1") = true ∧
  (∀ fs, faults (environment adapter_down) = true :: fs →
     history (step adapter_down (Draw 0 s1 (path "A")))
     = history adapter_down
       ++ [RPush [JSON_stringify (stroke_of (JStr "u1") (path "A"))] false] ∧
     store (step adapter_down (Draw 0 s1 (path "A"))) = store adapter_down ∧
     closures (step adapter_down (Draw 0 s1 (path "A"))) = closures adapter_down ∧
     caches (step adapter_down (Draw 0 s1 (path "A"))) = caches adapter_down ∧
     settle adapter_down (Draw 0 s1 (path "A")) = Throw RedisError) ∧
  (∀ new k x,
     history (step adapter_down (Draw 0 s1 (path "A")))
     = history adapter_down ++ new →
     new !! k = Some x → is_broadcast x = true →
     new !! 0%nat
     = Some (RPush [JSON_stringify (stroke_of (JStr "u1") (path "A"))] true)
     ∧ (0 < k)%nat).
Proof.
  assert (session adapter_down 0 s1 = Some (JStr "u1")) as Hs by by vm_compute.
  split; [exact Hs|]. split; [reflexivity|].
  exact (draw_writes_before_it_publishes adapter_down 0 s1 (JStr "u1")
           (path "A") Hs eq_refl).
Defined.

Example failed_append_on_either_server :
  faults (environment adapter_down) = [true] ∧
  history (step adapter_down (Draw 0 s1 (path "A")))
  = history adapter_down
    ++ [RPush [JObj [("path", JStr "A"); ("userId", JStr "u1")]] false] ∧
  history (step (run pubsub_pair [Outage [true]]) (Draw 0 s1 (path "A")))
  = history pubsub_pair
    ++ [RPush [JObj [("path", JStr "A"); ("userId", JStr "u1")]] false].
Proof. by vm_compute. Qed.

Lemma draw_fans_out_to_the_other_sockets_witness :
  session adapter_pair 0 s1 = Some (JStr "u1") ∧ truthy (JStr "u1") = true ∧
  faults (environment adapter_pair) = [] ∧
  ∃ new,
    history (step adapter_pair (Draw 0 s1 (path "A")))
    = history adapter_pair ++ new ∧
    (∀ j s, is_Some (session adapter_pair j s) → s ≠ s1 →
            Emit j s "draw"
              (Some (carried adapter_pair (stroke_of (JStr "u1") (path "A"))))
            ∈ new) ∧
    (∀ c, adapter_pair = ViaPubSub c →
          Emit 0 s1 "draw"
            (Some (carried adapter_pair (stroke_of (JStr "u1") (path "A"))))
          ∈ new).
Proof.
  assert (session adapter_pair 0 s1 = Some (JStr "u1")) as Hs by by vm_compute.
  assert (faults (environment adapter_pair) = []) as Hf by by vm_compute.
  split; [exact Hs|]. split; [reflexivity|]. split; [exact Hf|].
  exact (draw_fans_out_to_the_other_sockets adapter_pair 0 s1 (JStr "u1")
           (path "A") Hs eq_refl Hf).
Defined.

(** C4, as stated, fails on the adapter server: the sender is connected and
    is not sent its own stroke. *)
Lemma draw_skips_the_sender_on_the_adapter :
  session adapter_pair 0 s1 = Some (JStr "u1") ∧
  faults (environment adapter_pair) = [] ∧
  ¬ (∀ j s, is_Some (session adapter_pair j s) →
            Emit j s "draw" (Some (stroke_of (JStr "u1") (path "A")))
            ∈ history (step adapter_pair (Draw 0 s1 (path "A")))).
Proof.
  split; [by vm_compute|]. split; [by vm_compute|].
  intros H. specialize (H 0%nat s1 ltac:(vm_compute; eauto)).
  vm_compute in H.
  repeat (apply elem_of_cons in H as [H|H]; [discriminate H|]).
  by apply elem_of_nil in H.
Qed.

Example draw_reaches_the_sender_on_pubsub :
  Emit 0 s1 "draw" (Some (stroke_of (JStr "u1") (path "A")))
  ∈ history (step pubsub_pair (Draw 0 s1 (path "A"))).
Proof. vm_compute. repeat first [by left|right]. Qed.

Lemma strokes_are_read_back_in_draw_order_witness :
  decodes (store adapter_pair) [] ∧
  faults (environment adapter_pair) = [] ∧
  session adapter_pair 0 s1 = Some (JStr "u1") ∧ truthy (JStr "u1") = true ∧
  session adapter_pair 1 s2 = Some (JStr "u2") ∧ truthy (JStr "u2") = true ∧
  outcome loadBoardFromRedis
    (environment (run adapter_pair
       [Draw 0 s1 (path "A"); Draw 1 s2 (path "B"); Draw 0 s1 (path "C")]))
  = Ok ([] ++ (through_JSON <$> [stroke_of (JStr "u1") (path "A");
                                  stroke_of (JStr "u2") (path "B");
                                  stroke_of (JStr "u1") (path "C")])).
Proof.
  assert (decodes (store adapter_pair) []) as Hd
    by (split; [by vm_compute|split; [by vm_compute|done]]).
  assert (faults (environment adapter_pair) = []) as Hf by by vm_compute.
  assert (session adapter_pair 0 s1 = Some (JStr "u1")) as H1 by by vm_compute.
  assert (session adapter_pair 1 s2 = Some (JStr "u2")) as H2 by by vm_compute.
  repeat (split; [done|]).
  exact (strokes_are_read_back_in_draw_order adapter_pair [] 0 s1 (JStr "u1")
           (path "A") 1 s2 (JStr "u2") (path "B") 0 s1 (JStr "u1") (path "C")
           Hd Hf H1 eq_refl H2 eq_refl H1 eq_refl).
Defined.

Lemma only_register_rebinds_userId_witness :
  binds (ClearMine 0 s1) 1 s2 = false ∧
  session (step pubsub_abc (ClearMine 0 s1)) 1 s2 = session pubsub_abc 1 s2.
Proof.
  split; [reflexivity|].
  exact (only_register_rebinds_userId pubsub_abc (ClearMine 0 s1) 1 s2 eq_refl).
Defined.

(** C6, as stated, fails: a second [register] on the same connection
    rebinds it. *)
Lemma second_register_rebinds_userId :
  session pubsub_pair 0 s1 = Some (JStr "u1") ∧
  session (step pubsub_pair (Register 0 s1 (as_user "u2"))) 0 s1
  = Some (JStr "u2") ∧
  session (step adapter_pair (Register 0 s1 (as_user "u2"))) 0 s1
  = Some (JStr "u2").
Proof. by vm_compute. Qed.

Lemma unregistered_command_is_ignored_witness :
  session pubsub_fresh 0 s1 = Some JNull ∧
  is_guarded (Draw 0 s1 (path "A")) 0 s1 = true ∧
  step pubsub_fresh (Draw 0 s1 (path "A")) = pubsub_fresh ∧
  settle pubsub_fresh (Draw 0 s1 (path "A")) = Ok tt.
Proof.
  assert (session pubsub_fresh 0 s1 = Some JNull) as Hs by by vm_compute.
  split; [exact Hs|]. split; [reflexivity|].
  exact (unregistered_command_is_ignored pubsub_fresh (Draw 0 s1 (path "A"))
           0 s1 Hs eq_refl).
Defined.

Lemma register_assigns_userId_witness :
  is_Some (session pubsub_fresh 0 s1) ∧
  ∃ userId rest,
    session (step pubsub_fresh (Register 0 s1 unnamed)) 0 s1 = Some userId ∧
    (∀ v, opt_member unnamed "userId" = Some v → truthy v = true → userId = v) ∧
    (truthy_opt (opt_member unnamed "userId") = false →
       userId = JStr (toUpperCase (slice_0_5 s1)) ∧
       (String.length (toUpperCase (slice_0_5 s1)) ≤ 5)%nat) ∧
    history (step pubsub_fresh (Register 0 s1 unnamed))
    = history pubsub_fresh
      ++ Emit 0 s1 "user-info" (Some (JObj [("userId", userId)])) :: rest.
Proof.
  assert (is_Some (session pubsub_fresh 0 s1)) as Hs by (vm_compute; eauto).
  split; [exact Hs|].
  exact (register_assigns_userId pubsub_fresh 0 s1 unnamed Hs).
Defined.

(** C8, as stated, fails: an empty [userId] is present in the payload and
    is not the one assigned. *)
Lemma empty_userId_is_replaced :
  opt_member unnamed "userId" = Some (JStr "") ∧
  session (step pubsub_fresh (Register 0 s1 unnamed)) 0 s1
  = Some (JStr "AXK3P") ∧
  session (step pubsub_fresh (Register 0 s1 unnamed)) 0 s1 ≠ Some (JStr "").
Proof. split; [done|]. split; [by vm_compute|]. by vm_compute. Qed.

Lemma clear_all_is_idempotent_witness :
  session pubsub_abc 1 s2 = Some (JStr "u2") ∧ truthy (JStr "u2") = true ∧
  faults (environment pubsub_abc) = [] ∧
  let d1 := step pubsub_abc (ClearAll 1 s2) in
  let d2 := step d1 (ClearAll 1 s2) in
  store d1 = [] ∧ store d2 = [] ∧
  Forall (λ cache, cache = []) (caches d1) ∧ caches d2 = caches d1 ∧
  closures d2 = closures d1 ∧
  (∀ j s, client_board j s (history d2) = client_board j s (history d1)) ∧
  (∀ j s, is_Some (session pubsub_abc j s) →
          client_board j s (history d1) = []).
Proof.
  assert (session pubsub_abc 1 s2 = Some (JStr "u2")) as Hs by by vm_compute.
  assert (faults (environment pubsub_abc) = []) as Hf by by vm_compute.
  split; [exact Hs|]. split; [reflexivity|]. split; [exact Hf|].
  exact (clear_all_is_idempotent pubsub_abc 1 s2 (JStr "u2") Hs eq_refl Hf).
Defined.

Lemma draw_stamps_session_userId_witness :
  session pubsub_pair 0 s1 = Some (JStr "u1") ∧ truthy (JStr "u1") = true ∧
  faults (environment pubsub_pair) = [] ∧
  userId_of (stroke_of (JStr "u1") forged) = Some (JStr "u1") ∧
  store (step pubsub_pair (Draw 0 s1 forged))
  = store pubsub_pair ++ [JSON_stringify (stroke_of (JStr "u1") forged)] ∧
  parse (JSON_stringify (stroke_of (JStr "u1") forged))
  = Ok (through_JSON (stroke_of (JStr "u1") forged)) ∧
  userId_of (through_JSON (stroke_of (JStr "u1") forged))
  = Some (through_JSON (JStr "u1")) ∧
  userId_of (carried pubsub_pair (stroke_of (JStr "u1") forged))
  = Some (carried pubsub_pair (JStr "u1")) ∧
  (survives_JSON (JStr "u1") = true →
     through_JSON (JStr "u1") = JStr "u1" ∧
     carried pubsub_pair (JStr "u1") = JStr "u1") ∧
  ∃ new,
    history (step pubsub_pair (Draw 0 s1 forged)) = history pubsub_pair ++ new ∧
    ∀ j s arg, Emit j s "draw" arg ∈ new →
               arg = Some (carried pubsub_pair (stroke_of (JStr "u1") forged)).
Proof.
  assert (session pubsub_pair 0 s1 = Some (JStr "u1")) as Hs by by vm_compute.
  assert (faults (environment pubsub_pair) = []) as Hf by by vm_compute.
  split; [exact Hs|]. split; [reflexivity|]. split; [exact Hf|].
  exact (draw_stamps_session_userId pubsub_pair 0 s1 (JStr "u1") forged
           Hs eq_refl Hf).
Defined.

Example forged_userId_is_overwritten :
  stroke_of (JStr "u1") forged
  = JObj [("userId", JStr "u1"); ("path", JStr "X")].
Proof. reflexivity. Qed.

(** C10, as stated, fails on both servers.  A session registered with the
    [userId] [1e999] is bound to [Infinity], which is truthy; the stroke it
    draws is appended to the Redis list with the [userId] [null], and
    server.js hands that stroke to every socket. *)
Lemma infinite_userId_is_stored_as_null :
  session pubsub_inf 0 s1 = Some (JInf false) ∧
  truthy (JInf false) = true ∧
  faults (environment pubsub_inf) = [] ∧
  store (step pubsub_inf (Draw 0 s1 (path "A")))
  = [JSON_stringify (stroke_of (JInf false) (path "A"))] ∧
  parse (JSON_stringify (stroke_of (JInf false) (path "A")))
  = Ok (JObj [("path", JStr "A"); ("userId", JNull)]) ∧
  userId_of (JObj [("path", JStr "A"); ("userId", JNull)])
  ≠ Some (JInf false) ∧
  Emit 1 s2 "draw" (Some (JObj [("path", JStr "A"); ("userId", JNull)]))
  ∈ history (step pubsub_inf (Draw 0 s1 (path "A"))) ∧
  session adapter_inf 0 s1 = Some (JInf false) ∧
  store (step adapter_inf (Draw 0 s1 (path "A")))
  = [JSON_stringify (stroke_of (JInf false) (path "A"))].
Proof.
  repeat (split; [by vm_compute|]).
  split; [vm_compute; repeat first [by left|right]|].
  split; by vm_compute.
Qed.

End concrete.

(** * More of the code *)

(** ** server.js: the subscriber *)

Section subscriber.
Context {C : Codec}.
Import PubSub Channel.
Implicit Types (c : cluster).

Lemma keeps_node_redis {A} j (x : option node) (m : M env A) :
  keeps (λ c, nodes c !! j = x) (redis m).
Proof.
  intros c Hc. unfold redis. by destruct (m (environment c)) as [e [a|e']].
Qed.

Lemma keeps_node_set_strokes i j (x : option node) b :
  j ≠ i → keeps (λ c, nodes c !! j = x) (set_strokes i b).
Proof.
  intros Hne. apply keeps_modify. intros c Hc. simpl.
  by rewrite list_lookup_alter_ne.
Qed.

Lemma keeps_node_io_emit i j (x : option node) event arg :
  keeps (λ c, nodes c !! j = x) (io_emit i event arg).
Proof. apply keeps_modify. intros c Hc. by destruct (nodes c !! i). Qed.

Lemma keeps_node_get_strokes i j (x : option node) :
  keeps (λ c, nodes c !! j = x) (get_strokes i).
Proof. apply keeps_gets. Qed.

Lemma keeps_node_on_message i j (x : option node) raw :
  j ≠ i → keeps (λ c, nodes c !! j = x) (on_message i raw).
Proof.
  intros Hne.
  pose proof (keeps_node_set_strokes i j x) as Hset.
  pose proof (keeps_node_io_emit i j x) as Hemit.
  pose proof (keeps_node_get_strokes i j x) as Hget.
  pose proof (@keeps_node_redis (list json) j x) as Hredis.
  unfold on_message. keeps_steps.
Qed.

(** X1.  A channel message that is JSON, is not [null], and whose [type]
    is none of [init-sync], [draw], [clear-all] and [clear-user] (a message
    without a type among them) is ignored: the callback settles without an
    error and changes nothing, not the cache, not the log, not Redis. *)
Theorem unknown_message_changes_nothing c i raw msg type :
  parse raw = Ok msg → member msg "type" = Ok type →
  unknown_type type = true →
  on_message i raw c = (c, Ok tt).
Proof.
  intros Hp Ht. unfold unknown_type, tags. cbn [forallb].
  rewrite !andb_true_iff, !negb_true_iff.
  intros (H1 & H2 & H3 & H4 & _).
  unfold on_message, mbind, M_bind, of_result.
  by rewrite Hp, Ht, H1, H2, H3, H4.
Qed.

(** X20.  A channel message that is not JSON makes the callback reject
    with a [SyntaxError], a message that is [null] with a [TypeError], in
    both cases before it has done anything. *)
Theorem malformed_message_rejects c i raw :
  (JSON_parse raw = None → on_message i raw c = (c, Throw SyntaxError)) ∧
  (JSON_parse raw = Some JNull → on_message i raw c = (c, Throw TypeError)).
Proof.
  split; intros Hp; unfold on_message, mbind, M_bind, of_result, parse;
    by rewrite Hp.
Qed.

(** X2.  Whatever the message, when the callback of a node settles without
    an error it has not written to the Redis list, has not changed the
    closure of any socket, and has left every other node as it was: it only
    replaces the cache of its own node and sends packets. *)
Theorem subscriber_touches_only_its_cache c i raw :
  outcome (on_message i raw) c = Ok tt →
  redis_list (environment (exec (on_message i raw) c))
  = redis_list (environment c) ∧
  sockets <$> nodes (exec (on_message i raw) c) = sockets <$> nodes c ∧
  ∀ j, j ≠ i → nodes (exec (on_message i raw) c) !! j = nodes c !! j.
Proof.
  intros _.
  destruct (keeps_exec _ (on_message i raw) c
              (keeps_frame_on_message (redis_list (environment c))
                 (sockets <$> nodes c) i raw)) as [Hl Hs]; [done|].
  split; [done|]. split; [done|].
  intros j Hne.
  by apply (keeps_exec (λ c', nodes c' !! j = nodes c !! j));
    [apply keeps_node_on_message|].
Qed.

Lemma fmap_const_replicate {A B} (b : B) (l : list A) :
  (λ _, b) <$> l = replicate (length l) b.
Proof. induction l as [|x l IH]; [done|]. simpl. by rewrite <-IH. Qed.

(** X3.  When a node starts with Redis up, the [init-sync] it publishes
    makes every node, the new one included, load the board from the Redis
    list: afterwards every cache is that board, whatever the caches held
    before.  The list and the closures are untouched; the new node has no
    socket. *)
Theorem start_node_reloads_every_cache c board :
  faults (environment c) = [] →
  decodes (redis_list (environment c)) board →
  strokes <$> nodes (step c StartNode)
  = replicate (S (length (nodes c))) board ∧
  redis_list (environment (step c StartNode)) = redis_list (environment c) ∧
  sockets <$> nodes (step c StartNode) = (sockets <$> nodes c) ++ [∅].
Proof.
  destruct c as [[rl fs lg] nds]. simpl. intros -> Hdec.
  rewrite publish_ok by done. rewrite (deliver_init_sync board) by done.
  simpl. split; [|split; [done|]].
  - rewrite <-list_fmap_compose.
    rewrite (list_fmap_ext _ (λ _, board) (nds ++ [Node [] ∅])) by done.
    rewrite fmap_const_replicate, length_app. simpl.
    by rewrite Nat.add_1_r.
  - rewrite <-list_fmap_compose.
    rewrite (list_fmap_ext _ sockets (nds ++ [Node [] ∅])) by done.
    by rewrite fmap_app.
Qed.

(** X5.  When the append of a [draw] succeeds and its publication fails,
    the stroke stays in the Redis list although no node hears of it: no
    packet is sent, every cache is as before, and the handler's promise
    rejects. *)
Theorem failed_publish_keeps_the_append c i sid u data fs :
  session c i sid = Some u → truthy u = true →
  faults (environment c) = false :: true :: fs →
  step c (Draw i sid data)
  = Cluster
      (Env (redis_list (environment c)
              ++ [JSON_stringify (spread_with_userId data u)]) fs
         (log (environment c)
            ++ [RPush [JSON_stringify (spread_with_userId data u)] true;
                Publish (JSON_stringify (msg_draw (spread_with_userId data u)))
                  false]))
      (nodes c) ∧
  settle c (Draw i sid data) = Throw RedisError.
Proof.
  destruct c as [[rl fs0 lg] nds]. simpl. intros Hs Hu ->.
  unfold on_socket, exec, outcome. rewrite (session_connected _ _ _ _ Hs).
  by rewrite (on_draw_publish_fails _ _ _ _ _ _ _ u).
Qed.

Lemma elem_of_local_fanout event (f : node → option json) (nds : list node) x :
  x ∈ mjoin (imap (λ j nd, local_packets j nd event (f nd)) nds) ↔
  ∃ j nd sid v, nds !! j = Some nd ∧ sockets nd !! sid = Some v
                ∧ x = Emit j sid event (f nd).
Proof.
  rewrite list_elem_of_join. split.
  - intros (ps & Hx & Hps).
    apply elem_of_lookup_imap in Hps as (j & nd & -> & Hnd).
    apply list_elem_of_fmap in Hx as ([sid v] & -> & Hv).
    apply elem_of_map_to_list in Hv. by exists j, nd, sid, v.
  - intros (j & nd & sid & v & Hnd & Hv & ->).
    exists (local_packets j nd event (f nd)). split.
    + apply list_elem_of_fmap. exists (sid, v).
      split; [done|]. by apply elem_of_map_to_list.
    + apply elem_of_lookup_imap. by exists j, nd.
Qed.

(** X19.  On server.js every node answers a [clear-mine] from its own
    cache, and by the [userId] of the channel message: with Redis up, the
    handler rewrites the Redis list to the board it read without the
    strokes whose [userId] is the caller's, while each node replaces its
    cache by that cache without the strokes whose [userId] is the caller's
    as it comes through JSON, and sends exactly this to each of its sockets
    as [reset-board], whether or not the cache was the board of the list. *)
Theorem every_node_filters_its_own_cache c i sid u board :
  session c i sid = Some u → truthy u = true →
  faults (environment c) = [] →
  decodes (redis_list (environment c)) board →
  Forall (λ nd, Forall (λ s, is_object s = true) (strokes nd)) (nodes c) →
  redis_list (environment (step c (ClearMine i sid)))
  = JSON_stringify <$> remainder u board ∧
  nodes (step c (ClearMine i sid))
  = (λ nd, Node (remainder (through_JSON u) (strokes nd)) (sockets nd))
      <$> nodes c ∧
  ∀ j nd s v,
    nodes c !! j = Some nd → sockets nd !! s = Some v →
    Emit j s "reset-board"
      (Some (JArr (remainder (through_JSON u) (strokes nd))))
    ∈ log (environment (step c (ClearMine i sid))) ∧
    ∀ arg, Emit j s "reset-board" arg
           ∈ drop (length (log (environment c)))
               (log (environment (step c (ClearMine i sid)))) →
           arg = Some (JArr (remainder (through_JSON u) (strokes nd))).
Proof.
  destruct c as [[rl fs lg] nds]. simpl. intros Hs Hu -> Hdec Hobj.
  unfold on_socket. rewrite (session_connected _ _ _ _ Hs).
  unfold exec. rewrite (on_clear_mine_run _ _ _ _ _ u board) by done.
  cbn [fst environment nodes redis_list log].
  split; [done|]. split; [done|].
  intros j nd s v Hnd Hv. split.
  - apply elem_of_app. right. do 2 right.
    apply elem_of_app. right. right.
    apply (elem_of_local_fanout "reset-board"
             (λ nd, Some (JArr (remainder (through_JSON u) (strokes nd))))).
    by exists j, nd, s, v.
  - intros arg Harg. rewrite drop_app_length in Harg.
    repeat (apply elem_of_cons in Harg as [Harg|Harg]; [discriminate Harg|]).
    apply elem_of_app in Harg as [Harg|Harg].
    + destruct (0 <? length (remainder u board))%nat;
        [by apply list_elem_of_singleton in Harg|by apply elem_of_nil in Harg].
    + apply elem_of_cons in Harg as [Harg|Harg]; [discriminate Harg|].
      apply (elem_of_local_fanout "reset-board"
               (λ nd, Some (JArr (remainder (through_JSON u) (strokes nd)))))
        in Harg as (j' & nd' & s' & v' & Hnd' & _ & [= -> -> ->]).
      congruence.
Qed.

End subscriber.

(** ** Both servers: what a Redis failure leaves behind *)

Section failures.
Context {C : Codec}.
Import Whiteboard.
Implicit Types (d : server).

Lemma on_clear_all_del_fails rl fs lg nds i sid u :
  PubSub.session (PubSub.Cluster (Env rl (true :: fs) lg) nds) i sid = Some u →
  truthy u = true →
  PubSub.on_clear_all i sid (PubSub.Cluster (Env rl (true :: fs) lg) nds)
  = (PubSub.Cluster (Env rl fs (lg ++ [Del false])) nds, Throw RedisError).
Proof.
  intros Hs Hu. unfold PubSub.on_clear_all, mbind, M_bind.
  by rewrite (get_userId_session _ _ _ u Hs), Hu.
Qed.

Lemma on_clear_all_publish_fails rl fs lg nds i sid u :
  PubSub.session (PubSub.Cluster (Env rl (false :: true :: fs) lg) nds) i sid
  = Some u →
  truthy u = true →
  PubSub.on_clear_all i sid
    (PubSub.Cluster (Env rl (false :: true :: fs) lg) nds)
  = (PubSub.Cluster
       (Env [] fs
          (lg ++ [Del true;
                  Publish (JSON_stringify PubSub.msg_clear_all) false])) nds,
     Throw RedisError).
Proof.
  intros Hs Hu. unfold PubSub.on_clear_all, mbind, M_bind.
  rewrite (get_userId_session _ _ _ u Hs), Hu. simpl.
  unfold record, record_all. simpl. rewrite publish_fail.
  by rewrite <-!app_assoc.
Qed.

Lemma adapter_on_clear_all_del_fails rl fs lg nds i sid u :
  Adapter.session (Adapter.Cluster (Env rl (true :: fs) lg) nds) i sid = Some u →
  truthy u = true →
  Adapter.on_clear_all i sid (Adapter.Cluster (Env rl (true :: fs) lg) nds)
  = (Adapter.Cluster (Env rl fs (lg ++ [Del false])) nds, Throw RedisError).
Proof.
  intros Hs Hu. unfold Adapter.on_clear_all, mbind, M_bind.
  by rewrite (adapter_get_userId_session _ _ _ u Hs), Hu.
Qed.

(** The log of a [clear-all] of a registered session, whatever fails. *)
Lemma clear_all_log_shape d i sid u :
  session d i sid = Some u → truthy u = true →
  ∃ ok rest,
    history (step d (ClearAll i sid)) = history d ++ Del ok :: rest ∧
    (ok = false → rest = []).
Proof.
  intros Hs Hu.
  destruct d as [[[rl fs lg] nds]|[[rl fs lg] nds]].
  - rewrite session_pubsub in Hs.
    cbn [step PubSub.step]. unfold PubSub.on_socket.
    rewrite (session_connected _ _ _ _ Hs). unfold exec, history.
    destruct fs as [|[] [|[] fs]].
    + rewrite (on_clear_all_run _ _ _ _ _ _ u) by done. by eexists true, _.
    + rewrite (on_clear_all_del_fails _ _ _ _ _ _ u) by done.
      by exists false, [].
    + rewrite (on_clear_all_del_fails _ _ _ _ _ _ u) by done.
      by exists false, [].
    + rewrite (on_clear_all_del_fails _ _ _ _ _ _ u) by done.
      by exists false, [].
    + rewrite (on_clear_all_run _ _ _ _ _ _ u) by done. by eexists true, _.
    + rewrite (on_clear_all_publish_fails _ _ _ _ _ _ u) by done.
      by eexists true, _.
    + rewrite (on_clear_all_run _ _ _ _ _ _ u) by done. by eexists true, _.
  - rewrite session_adapter in Hs.
    cbn [step Adapter.step]. unfold Adapter.on_socket.
    rewrite (bool_decide_eq_true_2 _ (mk_is_Some _ _ Hs)
             : Adapter.connected _ i sid = true).
    unfold exec, history.
    destruct fs as [|[] fs].
    + rewrite (adapter_on_clear_all_run _ _ _ _ _ _ u) by done.
      by eexists true, _.
    + rewrite (adapter_on_clear_all_del_fails _ _ _ _ _ _ u) by done.
      by exists false, [].
    + rewrite (adapter_on_clear_all_run _ _ _ _ _ _ u) by done.
      by eexists true, _.
Qed.

(** X6.  In a [clear-all] of a registered session the [del] comes first:
    when it fails, nothing else is logged (no publication, no packet), the
    list, the closures and the caches are as before and the promise
    rejects; whatever fails, every publication and every packet of the
    handler comes after a successful [del]. *)
Theorem clear_all_deletes_before_it_publishes d i sid u :
  session d i sid = Some u → truthy u = true →
  (∀ fs, faults (environment d) = true :: fs →
     history (step d (ClearAll i sid)) = history d ++ [Del false] ∧
     store (step d (ClearAll i sid)) = store d ∧
     closures (step d (ClearAll i sid)) = closures d ∧
     caches (step d (ClearAll i sid)) = caches d ∧
     settle d (ClearAll i sid) = Throw RedisError) ∧
  (∀ new k x,
     history (step d (ClearAll i sid)) = history d ++ new →
     new !! k = Some x → is_broadcast x = true →
     new !! 0%nat = Some (Del true) ∧ (0 < k)%nat).
Proof.
  intros Hs Hu. split.
  - intros fs Hf.
    destruct d as [[[rl fs0 lg] nds]|[[rl fs0 lg] nds]]; simpl in Hf; subst fs0.
    + rewrite session_pubsub in Hs.
      cbn [step settle PubSub.step PubSub.settle]. unfold PubSub.on_socket.
      rewrite (session_connected _ _ _ _ Hs). unfold exec, outcome.
      by rewrite (on_clear_all_del_fails _ _ _ _ _ _ u).
    + rewrite session_adapter in Hs.
      cbn [step settle Adapter.step Adapter.settle]. unfold Adapter.on_socket.
      rewrite (bool_decide_eq_true_2 _ (mk_is_Some _ _ Hs)
               : Adapter.connected _ i sid = true).
      unfold exec, outcome.
      by rewrite (adapter_on_clear_all_del_fails _ _ _ _ _ _ u).
  - intros new k x Hh Hk Hx.
    destruct (clear_all_log_shape d i sid u Hs Hu) as (ok & rest & Hh' & Hok).
    rewrite Hh' in Hh. apply app_inv_head in Hh as <-.
    destruct k as [|k]; simpl in Hk.
    + by injection Hk as <-.
    + split; [|lia]. destruct ok; [done|].
      rewrite (Hok eq_refl) in Hk. done.
Qed.

(** X7.  On server.js, when the [del] of a [clear-all] succeeds and the
    publication fails, the Redis list is empty while every cache still
    holds what it held and no client is told. *)
Theorem failed_publish_keeps_the_delete
    (c : PubSub.cluster) i sid u fs :
  PubSub.session c i sid = Some u → truthy u = true →
  faults (PubSub.environment c) = false :: true :: fs →
  PubSub.step c (ClearAll i sid)
  = PubSub.Cluster
      (Env [] fs
         (log (PubSub.environment c)
            ++ [Del true; Publish (JSON_stringify PubSub.msg_clear_all) false]))
      (PubSub.nodes c) ∧
  PubSub.settle c (ClearAll i sid) = Throw RedisError.
Proof.
  destruct c as [[rl fs0 lg] nds]. simpl. intros Hs Hu ->.
  unfold PubSub.on_socket, exec, outcome.
  rewrite (session_connected _ _ _ _ Hs).
  by rewrite (on_clear_all_publish_fails _ _ _ _ _ _ u).
Qed.

Lemma on_clear_mine_rpush_fails rl fs lg nds i sid u board :
  PubSub.session
    (PubSub.Cluster (Env rl (false :: false :: true :: fs) lg) nds) i sid
  = Some u →
  truthy u = true → decodes rl board → remainder u board ≠ [] →
  PubSub.on_clear_mine i sid
    (PubSub.Cluster (Env rl (false :: false :: true :: fs) lg) nds)
  = (PubSub.Cluster
       (Env [] fs
          (lg ++ [LRange true; Del true;
                  RPush (JSON_stringify <$> remainder u board) false])) nds,
     Throw RedisError).
Proof.
  intros Hs Hu Hdec Hne. unfold PubSub.on_clear_mine, mbind, M_bind.
  rewrite (get_userId_session _ _ _ u Hs), Hu. cbn [negb].
  unfold PubSub.redis. cbn [PubSub.environment PubSub.nodes].
  rewrite (loadBoard_ok _ _ _ board) by done.
  unfold of_result. rewrite without_user_remainder by apply Hdec.
  cbn [PubSub.environment PubSub.nodes tail]. rewrite del_ok by done.
  cbn [PubSub.environment PubSub.nodes tail].
  destruct (remainder u board) as [|s r] eqn:E; [done|].
  cbn [length Nat.ltb Nat.leb]. cbn [PubSub.environment PubSub.nodes].
  rewrite rPush_fail. by rewrite <-!app_assoc.
Qed.

Lemma adapter_on_clear_mine_rpush_fails rl fs lg nds i sid u board :
  Adapter.session
    (Adapter.Cluster (Env rl (false :: false :: true :: fs) lg) nds) i sid
  = Some u →
  truthy u = true → decodes rl board → remainder u board ≠ [] →
  Adapter.on_clear_mine i sid
    (Adapter.Cluster (Env rl (false :: false :: true :: fs) lg) nds)
  = (Adapter.Cluster
       (Env [] fs
          (lg ++ [LRange true; Del true;
                  RPush (JSON_stringify <$> remainder u board) false])) nds,
     Throw RedisError).
Proof.
  intros Hs Hu Hdec Hne. unfold Adapter.on_clear_mine, mbind, M_bind.
  rewrite (adapter_get_userId_session _ _ _ u Hs), Hu. cbn [negb].
  unfold Adapter.redis, Adapter.getFullBoard.
  cbn [Adapter.environment Adapter.nodes].
  rewrite (loadBoard_ok _ _ _ board) by done.
  unfold of_result. rewrite without_user_remainder by apply Hdec.
  cbn [Adapter.environment Adapter.nodes tail]. rewrite del_ok by done.
  cbn [Adapter.environment Adapter.nodes tail].
  destruct (remainder u board) as [|s r] eqn:E; [done|].
  cbn [length Nat.ltb Nat.leb]. cbn [Adapter.environment Adapter.nodes].
  rewrite rPush_fail. by rewrite <-!app_assoc.
Qed.

(** X8.  A [clear-mine] is not atomic: when the read and the [del] succeed
    and the [rPush] of the strokes to keep fails, the Redis list is left
    empty, so the strokes of the other users are gone from it; nothing is
    published, no packet is sent, the caches and the closures are as
    before, and the promise rejects. *)
Theorem failed_rewrite_loses_the_board d i sid u board fs :
  session d i sid = Some u → truthy u = true →
  decodes (store d) board → remainder u board ≠ [] →
  faults (environment d) = false :: false :: true :: fs →
  store (step d (ClearMine i sid)) = [] ∧
  history (step d (ClearMine i sid))
  = history d ++ [LRange true; Del true;
                  RPush (JSON_stringify <$> remainder u board) false] ∧
  closures (step d (ClearMine i sid)) = closures d ∧
  caches (step d (ClearMine i sid)) = caches d ∧
  settle d (ClearMine i sid) = Throw RedisError.
Proof.
  intros Hs Hu Hdec Hne Hf.
  destruct d as [[[rl fs0 lg] nds]|[[rl fs0 lg] nds]];
    simpl in Hf; subst fs0; unfold store in Hdec; simpl in Hdec.
  - rewrite session_pubsub in Hs.
    cbn [step settle PubSub.step PubSub.settle]. unfold PubSub.on_socket.
    rewrite (session_connected _ _ _ _ Hs). unfold exec, outcome.
    by rewrite (on_clear_mine_rpush_fails _ _ _ _ _ _ u board).
  - rewrite session_adapter in Hs.
    cbn [step settle Adapter.step Adapter.settle]. unfold Adapter.on_socket.
    rewrite (bool_decide_eq_true_2 _ (mk_is_Some _ _ Hs)
             : Adapter.connected _ i sid = true).
    unfold exec, outcome.
    by rewrite (adapter_on_clear_mine_rpush_fails _ _ _ _ _ _ u board).
Qed.

End failures.

(** ** Both servers: the common core *)

Section core.
Context {C : Codec}.
Import Whiteboard Agreement.
Implicit Types (d : server) (st : Core.state).

Lemma agrees_owner d st i sid :
  agrees d st → Core.owner st i sid = session d i sid.
Proof. intros (_ & _ & _ & Hb). unfold Core.owner, session. by rewrite Hb. Qed.

Lemma registered_some st i sid u :
  Core.registered st i sid = Some u ↔
  Core.owner st i sid = Some u ∧ truthy u = true.
Proof.
  unfold Core.registered. destruct (Core.owner st i sid) as [v|].
  - destruct (truthy v) eqn:E; split.
    + by intros [= ->].
    + by intros [? _].
    + done.
    + intros [[= ->] Hu]. congruence.
  - split; [done|by intros [? _]].
Qed.

Lemma registered_none st i sid v :
  Core.owner st i sid = Some v → truthy v = false →
  Core.registered st i sid = None.
Proof. intros Ho Hv. unfold Core.registered. by rewrite Ho, Hv. Qed.

Lemma closures_alter_sockets (g : gmap string json → gmap string json) i
    (nds : list PubSub.node) :
  PubSub.sockets
    <$> alter (λ nd, PubSub.Node (PubSub.strokes nd) (g (PubSub.sockets nd))) i nds
  = alter g i (PubSub.sockets <$> nds).
Proof. by apply list_fmap_alter, Forall_forall. Qed.

Lemma caches_alter_sockets (g : gmap string json → gmap string json) i
    (nds : list PubSub.node) :
  PubSub.strokes
    <$> alter (λ nd, PubSub.Node (PubSub.strokes nd) (g (PubSub.sockets nd))) i nds
  = PubSub.strokes <$> nds.
Proof.
  revert i. induction nds as [|nd nds IH]; intros [|i]; try done.
  cbn [alter list_alter]. rewrite !fmap_cons. f_equal. apply IH.
Qed.

Lemma caches_fmap_strokes (f : PubSub.node → list json)
    (nds : list PubSub.node) :
  PubSub.strokes <$> ((λ nd, PubSub.Node (f nd) (PubSub.sockets nd)) <$> nds)
  = f <$> nds.
Proof. rewrite <-list_fmap_compose. by apply list_fmap_ext. Qed.

(** Closes an [agrees] goal whose parts are all at hand. *)
Ltac unchanged :=
  unfold agrees, store, caches, closures; simpl;
  repeat split;
  first [ done | apply Forall_nil_2
        | match goal with H : decodes _ _ |- _ => apply H end ].

Lemma step_agrees_pubsub (c : PubSub.cluster) st cmd :
  is_outage cmd = false →
  agrees (ViaPubSub c) st →
  agrees (ViaPubSub (PubSub.step c cmd)) (Core.step st cmd).
Proof.
  intros Hcmd Ha.
  assert (∀ i sid, Core.owner st i sid = PubSub.session c i sid) as Hown.
  { intros i sid. by rewrite (agrees_owner _ _ i sid Ha), session_pubsub. }
  destruct c as [[rl fs lg] nds]. destruct st as [board bound].
  destruct Ha as (Hf & Hdec & Hcache & Hb).
  unfold store, caches, closures in *. simpl in Hf, Hdec, Hcache, Hb, Hown.
  subst fs. subst bound.
  assert (Forall (λ nd, Forall (λ s, is_object s = true) (PubSub.strokes nd)) nds)
    as Hobj by (rewrite Forall_fmap in Hcache; exact Hcache).
  assert (Forall (λ s, is_object s = true) board) as Hboard by apply Hdec.
  destruct cmd as [|j s|j s|j s data|j s data|j s|j s|fs]; try done;
    cbn [PubSub.step Core.step Core.board Core.bound
           PubSub.environment PubSub.nodes];
    unfold PubSub.on_socket, PubSub.connected.
  - rewrite publish_ok by done.
    rewrite (deliver_init_sync board) by done.
    unfold agrees, store, caches, closures. simpl.
    rewrite closures_fmap_strokes, caches_fmap_strokes,
      (fmap_app PubSub.sockets).
    split; [done|]. split; [done|]. split; [|done].
    apply Forall_fmap, Forall_forall. by intros.
  - rewrite Hown.
    destruct (PubSub.session _ j s) as [v|] eqn:Hs.
    + rewrite bool_decide_eq_true_2 by done. unchanged.
    + rewrite bool_decide_eq_false_2 by (by intros [? ?]).
      unfold agrees, store, caches, closures. simpl.
      rewrite caches_alter_sockets, (closures_alter_sockets (insert s JNull)).
      unchanged.
  - unfold agrees, store, caches, closures. simpl.
    rewrite caches_alter_sockets, (closures_alter_sockets (delete s)).
    unchanged.
  - rewrite Hown.
    destruct (PubSub.session _ j s) as [v|] eqn:Hs.
    + rewrite bool_decide_eq_true_2 by done. unfold exec.
      rewrite (on_register_run _ _ _ _ _ _ _ board) by done.
      unfold agrees, store, caches, closures. simpl.
      rewrite caches_alter_sockets,
        (closures_alter_sockets (insert s (PubSub.assigned_userId data s))).
      unchanged.
    + rewrite bool_decide_eq_false_2 by (by intros [? ?]). unchanged.
  - destruct (PubSub.session _ j s) as [v|] eqn:Hs.
    + rewrite bool_decide_eq_true_2 by done. unfold exec.
      destruct (truthy v) eqn:Hv.
      * rewrite (proj2 (registered_some _ j s v)) by (by rewrite Hown).
        rewrite (on_draw_run _ _ _ _ _ _ v) by done.
        unfold agrees, store, caches, closures. simpl.
        rewrite closures_fmap_strokes, caches_fmap_strokes.
        split; [done|]. split; [by apply decodes_app, decodes_stroke|].
        split; [|done].
        apply Forall_fmap. eapply Forall_impl; [exact Hobj|].
        intros nd Hnd. simpl. apply Forall_app. split; [done|].
        by repeat constructor.
      * rewrite (registered_none _ j s v) by (by rewrite ?Hown).
        rewrite (on_draw_unregistered _ _ _ v) by done. unchanged.
    + rewrite bool_decide_eq_false_2 by (by intros [? ?]).
      unfold Core.registered. rewrite Hown, Hs. unchanged.
  - destruct (PubSub.session _ j s) as [v|] eqn:Hs.
    + rewrite bool_decide_eq_true_2 by done. unfold exec.
      destruct (truthy v) eqn:Hv.
      * rewrite (proj2 (registered_some _ j s v)) by (by rewrite Hown).
        rewrite (on_clear_all_run _ _ _ _ _ _ v) by done.
        unfold agrees, store, caches, closures. simpl.
        rewrite closures_fmap_strokes, caches_fmap_strokes.
        split; [done|]. split; [apply decodes_nil|]. split; [|done].
        apply Forall_fmap, Forall_forall. intros nd _. apply Forall_nil_2.
      * rewrite (registered_none _ j s v) by (by rewrite ?Hown).
        rewrite (on_clear_all_unregistered _ _ _ v) by done. unchanged.
    + rewrite bool_decide_eq_false_2 by (by intros [? ?]).
      unfold Core.registered. rewrite Hown, Hs. unchanged.
  - destruct (PubSub.session _ j s) as [v|] eqn:Hs.
    + rewrite bool_decide_eq_true_2 by done. unfold exec.
      destruct (truthy v) eqn:Hv.
      * rewrite (proj2 (registered_some _ j s v)) by (by rewrite Hown).
        rewrite (on_clear_mine_run _ _ _ _ _ v board) by done.
        unfold agrees, store, caches, closures. simpl.
        rewrite closures_fmap_strokes, caches_fmap_strokes.
        split; [done|]. split; [by apply (decodes_remainder v rl)|].
        split; [|done].
        apply Forall_fmap. eapply Forall_impl; [exact Hobj|].
        intros nd Hnd. simpl. by apply remainder_objects.
      * rewrite (registered_none _ j s v) by (by rewrite ?Hown).
        rewrite (on_clear_mine_unregistered _ _ _ v) by done. unchanged.
    + rewrite bool_decide_eq_false_2 by (by intros [? ?]).
      unfold Core.registered. rewrite Hown, Hs. unchanged.
Qed.

Lemma step_agrees_adapter (c : Adapter.cluster) st cmd :
  is_outage cmd = false →
  agrees (ViaAdapter c) st →
  agrees (ViaAdapter (Adapter.step c cmd)) (Core.step st cmd).
Proof.
  intros Hcmd Ha.
  assert (∀ i sid, Core.owner st i sid = Adapter.session c i sid) as Hown.
  { intros i sid. by rewrite (agrees_owner _ _ i sid Ha). }
  destruct c as [[rl fs lg] nds]. destruct st as [board bound].
  destruct Ha as (Hf & Hdec & Hcache & Hb).
  unfold store, caches, closures in *. simpl in Hf, Hdec, Hcache, Hb, Hown.
  subst fs. subst bound.
  destruct cmd as [|j s|j s|j s data|j s data|j s|j s|fs];
    try discriminate Hcmd;
    cbn [Adapter.step Core.step Core.board Core.bound
           Adapter.environment Adapter.nodes];
    unfold Adapter.on_socket, Adapter.connected.
  - unchanged.
  - rewrite Hown.
    destruct (Adapter.session _ j s) as [v|] eqn:Hs.
    + rewrite bool_decide_eq_true_2 by done. unchanged.
    + rewrite bool_decide_eq_false_2 by (by intros [? ?]). unchanged.
  - unchanged.
  - rewrite Hown.
    destruct (Adapter.session _ j s) as [v|] eqn:Hs.
    + rewrite bool_decide_eq_true_2 by done. unfold exec.
      rewrite (adapter_on_register_run _ _ _ _ _ _ _ board) by done.
      unchanged.
    + rewrite bool_decide_eq_false_2 by (by intros [? ?]). unchanged.
  - destruct (Adapter.session _ j s) as [v|] eqn:Hs.
    + rewrite bool_decide_eq_true_2 by done. unfold exec.
      destruct (truthy v) eqn:Hv.
      * rewrite (proj2 (registered_some _ j s v)) by (by rewrite Hown).
        rewrite (adapter_on_draw_run _ _ _ _ _ _ v) by done.
        unfold agrees, store, caches, closures. simpl.
        split; [done|]. split; [by apply decodes_app, decodes_stroke|done].
      * rewrite (registered_none _ j s v) by (by rewrite ?Hown).
        rewrite (adapter_on_draw_unregistered _ _ _ v) by done. unchanged.
    + rewrite bool_decide_eq_false_2 by (by intros [? ?]).
      unfold Core.registered. rewrite Hown, Hs. unchanged.
  - destruct (Adapter.session _ j s) as [v|] eqn:Hs.
    + rewrite bool_decide_eq_true_2 by done. unfold exec.
      destruct (truthy v) eqn:Hv.
      * rewrite (proj2 (registered_some _ j s v)) by (by rewrite Hown).
        rewrite (adapter_on_clear_all_run _ _ _ _ _ _ v) by done.
        unfold agrees, store, caches, closures. simpl.
        split; [done|]. split; [apply decodes_nil|done].
      * rewrite (registered_none _ j s v) by (by rewrite ?Hown).
        rewrite (adapter_on_clear_all_unregistered _ _ _ v) by done. unchanged.
    + rewrite bool_decide_eq_false_2 by (by intros [? ?]).
      unfold Core.registered. rewrite Hown, Hs. unchanged.
  - destruct (Adapter.session _ j s) as [v|] eqn:Hs.
    + rewrite bool_decide_eq_true_2 by done. unfold exec.
      destruct (truthy v) eqn:Hv.
      * rewrite (proj2 (registered_some _ j s v)) by (by rewrite Hown).
        rewrite (adapter_on_clear_mine_run _ _ _ _ _ v board) by done.
        unfold agrees, store, caches, closures. simpl.
        split; [done|]. split; [by apply (decodes_remainder v rl)|done].
      * rewrite (registered_none _ j s v) by (by rewrite ?Hown).
        rewrite (adapter_on_clear_mine_unregistered _ _ _ v) by done. unchanged.
    + rewrite bool_decide_eq_false_2 by (by intros [? ?]).
      unfold Core.registered. rewrite Hown, Hs. unchanged.
Qed.

(** Either server follows the core as long as Redis is up. *)
Lemma step_agrees d st cmd :
  is_outage cmd = false → agrees d st → agrees (step d cmd) (Core.step st cmd).
Proof.
  destruct d as [c|c]; [apply step_agrees_pubsub|apply step_agrees_adapter].
Qed.

Lemma run_agrees d st cmds :
  Forall (λ cmd, is_outage cmd = false) cmds →
  agrees d st → agrees (run d cmds) (foldl Core.step st cmds).
Proof.
  intros Hcmds. revert d st.
  induction Hcmds as [|cmd cmds Hcmd _ IH]; intros d st Ha; [done|].
  simpl. apply IH. by apply step_agrees.
Qed.

Lemma agrees_store d d' st :
  agrees d st → agrees d' st → store d = store d' ∧ closures d = closures d'.
Proof.
  intros (_ & [-> _] & _ & ->) (_ & [-> _] & _ & ->). done.
Qed.

(** X9.  The two servers persist the same thing: run from the same
    persisted board through the same commands, with no Redis failure,
    server.js and the adapter server end with the same Redis list and the
    same [userId] bound to every socket. *)
Theorem the_two_servers_persist_the_same board cmds :
  Forall (λ s, is_object s = true) board →
  Forall (λ cmd, is_outage cmd = false) cmds →
  store (run (ViaPubSub (PubSub.boot board)) cmds)
  = store (run (ViaAdapter (Adapter.boot board)) cmds) ∧
  closures (run (ViaPubSub (PubSub.boot board)) cmds)
  = closures (run (ViaAdapter (Adapter.boot board)) cmds).
Proof.
  intros Hb Hcmds.
  apply (agrees_store _ _
           (foldl Core.step (Core.State (through_JSON <$> board) []) cmds));
    apply run_agrees; try done;
    (split; [done|split; [by apply decodes_written|by split]]).
Qed.

Lemma agrees_here d board :
  faults (environment d) = [] → decodes (store d) board →
  Forall (Forall (λ s, is_object s = true)) (caches d) →
  agrees d (Core.State board (closures d)).
Proof. intros Hf Hd Hc. by split; [|split; [|split]]. Qed.

Lemma caches_of_the_board d (board : list json) :
  decodes (store d) board →
  Forall (λ cache, cache = board) (caches d) →
  Forall (Forall (λ s, is_object s = true)) (caches d).
Proof.
  intros Hdec Hc. eapply Forall_impl; [exact Hc|]. intros cache ->. apply Hdec.
Qed.

Lemma core_registered_bound board board' bound i sid :
  Core.registered (Core.State board bound) i sid
  = Core.registered (Core.State board' bound) i sid.
Proof. done. Qed.

Lemma core_clear_mine_idemp st i sid :
  Core.step (Core.step st (ClearMine i sid)) (ClearMine i sid)
  = Core.step st (ClearMine i sid).
Proof.
  destruct st as [board bound]. unfold Core.step, Core.registered, Core.owner.
  cbn [Core.board Core.bound].
  destruct (bound !! i ≫= λ m, m !! sid) as [u|] eqn:E.
  - destruct (truthy u) eqn:Hu; cbn [Core.board Core.bound]; rewrite E.
    + rewrite Hu. cbn [Core.board Core.bound]. by rewrite remainder_idemp.
    + by rewrite Hu.
  - cbn [Core.board Core.bound]. by rewrite E.
Qed.

(** What a [clear-mine] does to the caches of server.js. *)
Lemma clear_mine_caches d i sid board :
  faults (environment d) = [] → decodes (store d) board →
  Forall (Forall (λ s, is_object s = true)) (caches d) →
  caches (step d (ClearMine i sid))
  = match session d i sid with
    | Some u =>
        if truthy u then remainder (through_JSON u) <$> caches d else caches d
    | None => caches d
    end.
Proof.
  intros Hf Hdec Hobj.
  destruct d as [[[rl fs lg] nds]|[[rl fs lg] nds]];
    simpl in Hf; subst fs; unfold store in Hdec; simpl in Hdec.
  - rewrite session_pubsub. simpl in Hobj. rewrite Forall_fmap in Hobj.
    cbn [step PubSub.step caches]. unfold PubSub.on_socket, PubSub.connected.
    destruct (PubSub.session _ i sid) as [u|] eqn:Hs.
    + rewrite bool_decide_eq_true_2 by done. unfold exec.
      destruct (truthy u) eqn:Hu.
      * rewrite (on_clear_mine_run _ _ _ _ _ u board) by done.
        cbn [fst PubSub.nodes]. rewrite caches_fmap_strokes.
        by rewrite <-list_fmap_compose.
      * by rewrite (on_clear_mine_unregistered _ _ _ u).
    + by rewrite bool_decide_eq_false_2 by (by intros [? ?]).
  - cbn [step caches].
    destruct (session _ i sid) as [u|]; [by destruct (truthy u)|done].
Qed.

(** X10.  With Redis up, a second [clear-mine] in a row changes nothing
    that the first one left: the Redis list, the closures and the cache of
    every node are the same after the second as after the first. *)
Theorem clear_mine_is_idempotent d board i sid :
  faults (environment d) = [] → decodes (store d) board →
  Forall (Forall (λ s, is_object s = true)) (caches d) →
  let d1 := step d (ClearMine i sid) in
  let d2 := step d1 (ClearMine i sid) in
  store d2 = store d1 ∧ closures d2 = closures d1 ∧ caches d2 = caches d1.
Proof.
  intros Hf Hdec Hcache d1 d2.
  pose proof (agrees_here d board Hf Hdec Hcache) as Ha.
  pose proof (step_agrees d _ (ClearMine i sid) eq_refl Ha) as H1.
  pose proof (step_agrees _ _ (ClearMine i sid) eq_refl H1) as H2.
  rewrite core_clear_mine_idemp in H2. fold d1 in H1, H2. fold d2 in H2.
  destruct (agrees_store _ _ _ H2 H1) as [Hst Hcl].
  split; [done|]. split; [done|].
  destruct H1 as (Hf1 & Hdec1 & Hcache1 & _).
  unfold d2. rewrite (clear_mine_caches d1 i sid _ Hf1 Hdec1 Hcache1).
  unfold d1 at 1. rewrite step_keeps_session by done.
  unfold d1. rewrite (clear_mine_caches d i sid _ Hf Hdec Hcache).
  destruct (session d i sid) as [u|]; [|done].
  destruct (truthy u); [|done].
  rewrite <-list_fmap_compose. apply list_fmap_ext.
  intros _ cache _. simpl. apply remainder_idemp.
Qed.

Lemma remainder_of_a_reference u (board : list json) :
  Strokes.is_primitive u = false → remainder u board = board.
Proof.
  intros Hu. unfold remainder. induction board as [|s b IH]; [done|].
  simpl. rewrite IH.
  replace (authored_by u s) with false; [done|].
  unfold authored_by. destruct (userId_of s) as [v|]; [|done].
  by destruct v, u.
Qed.

Lemma strict_eq_survives u : survives_JSON u = true → strict_eq u u = true.
Proof.
  intros H. unfold survives_JSON in H. by rewrite (strict_eq_true _ _ H) in H.
Qed.

Lemma remainder_own_stroke u data (board : list json) :
  survives_JSON u = true →
  remainder u (board ++ [through_JSON (spread_with_userId data u)])
  = remainder u board.
Proof.
  intros Hu.
  assert (authored_by u (through_JSON (spread_with_userId data u)) = true) as E.
  { unfold authored_by. rewrite userId_of_through, userId_of_spread by done.
    cbn [fmap option_fmap option_map].
    by rewrite (survives_through u Hu), strict_eq_survives. }
  unfold remainder. rewrite List.filter_app. cbn [List.filter].
  rewrite E. simpl. by rewrite app_nil_r.
Qed.

(** X11.  [s.userId !== userId] compares objects and arrays by reference,
    and a stroke read back from Redis never shares one with the closure:
    a session whose [userId] is an object or an array (a truthy value that
    [register] accepts) removes nothing with [clear-mine]; the Redis list
    is as before. *)
Theorem clear_mine_by_a_reference_removes_nothing d board i sid u :
  session d i sid = Some u → Strokes.is_primitive u = false →
  faults (environment d) = [] → decodes (store d) board →
  Forall (λ cache, cache = board) (caches d) →
  store (step d (ClearMine i sid)) = store d.
Proof.
  intros Hs Hu Hf Hdec Hcache.
  pose proof (agrees_here d board Hf Hdec
                (caches_of_the_board d board Hdec Hcache)) as Ha.
  pose proof (step_agrees d _ (ClearMine i sid) eq_refl Ha) as H1.
  cbn [Core.step] in H1.
  rewrite (proj2 (registered_some _ i sid u)) in H1.
  - cbn [Core.board Core.bound] in H1.
    rewrite remainder_of_a_reference in H1 by done.
    by destruct (agrees_store _ _ _ H1 Ha).
  - split; [by rewrite (agrees_owner d)|]. by destruct u.
Qed.

(** X12.  A session whose [userId] is strictly equal to its copy through
    JSON (a string, a finite number, [true]) does remove what it drew: with
    Redis up, a [draw] followed by a [clear-mine] of the same session leaves
    the Redis list as the [clear-mine] alone would. *)
Theorem clear_mine_removes_the_own_stroke d board i sid u data :
  session d i sid = Some u → truthy u = true →
  survives_JSON u = true →
  faults (environment d) = [] → decodes (store d) board →
  Forall (Forall (λ s, is_object s = true)) (caches d) →
  store (run d [Draw i sid data; ClearMine i sid])
  = store (step d (ClearMine i sid)) ∧
  store (step d (ClearMine i sid)) = JSON_stringify <$> remainder u board.
Proof.
  intros Hs Hu Hp Hf Hdec Hcache.
  pose proof (agrees_here d board Hf Hdec Hcache) as Ha.
  assert (Core.registered (Core.State board (closures d)) i sid = Some u) as Hr.
  { apply registered_some. by rewrite (agrees_owner d). }
  pose proof (step_agrees d _ (ClearMine i sid) eq_refl Ha) as H1.
  pose proof (run_agrees d _ [Draw i sid data; ClearMine i sid]
                ltac:(by repeat constructor) Ha) as H2.
  cbn [foldl Core.step] in H1, H2. rewrite Hr in H1, H2.
  cbn [Core.board Core.bound] in H1, H2.
  rewrite (core_registered_bound _ board), Hr in H2.
  cbn [Core.board Core.bound] in H2.
  rewrite remainder_own_stroke in H2 by done.
  split; [by destruct (agrees_store _ _ _ H2 H1)|].
  by destruct H1 as (_ & [-> _] & _).
Qed.

(** The log of a [clear-mine] while Redis is up and the caches hold
    nothing but objects. *)
Lemma clear_mine_log d i sid u board :
  faults (environment d) = [] → decodes (store d) board →
  Forall (Forall (λ s, is_object s = true)) (caches d) →
  session d i sid = Some u → truthy u = true →
  ∃ bus,
    history (step d (ClearMine i sid))
    = history d ++ LRange true :: Del true
        :: (if (0 <? length (remainder u board))%nat
            then [RPush (JSON_stringify <$> remainder u board) true]
            else [])
        ++ bus ∧
    ∀ x, x ∈ bus → is_broadcast x = true.
Proof.
  intros Hf Hdec Hcache Hs Hu.
  destruct d as [[[rl fs lg] nds]|[[rl fs lg] nds]];
    simpl in Hf; subst fs; unfold store in Hdec; simpl in Hdec.
  - simpl in Hcache. rewrite Forall_fmap in Hcache.
    rewrite session_pubsub in Hs.
    cbn [step PubSub.step]. unfold PubSub.on_socket.
    rewrite (session_connected _ _ _ _ Hs). unfold exec.
    rewrite (on_clear_mine_run _ _ _ _ _ u board) by done.
    unfold history. cbn [environment fst PubSub.environment log].
    eexists. split; [reflexivity|].
    intros x Hx. apply elem_of_cons in Hx as [->|Hx]; [done|].
    by apply (elem_of_local_fanout "reset-board"
                (λ nd, Some (JArr (remainder (through_JSON u)
                                     (PubSub.strokes nd)))))
      in Hx as (? & ? & ? & ? & _ & _ & ->).
  - rewrite session_adapter in Hs.
    cbn [step Adapter.step]. unfold Adapter.on_socket.
    rewrite (bool_decide_eq_true_2 _ (mk_is_Some _ _ Hs)
             : Adapter.connected _ i sid = true).
    unfold exec. rewrite (adapter_on_clear_mine_run _ _ _ _ _ u board) by done.
    unfold history. cbn [environment fst Adapter.environment log].
    eexists. split; [reflexivity|].
    intros x Hx.
    by apply elem_of_cluster_packets in Hx as (? & ? & ? & ? & _ & _ & _ & ->).
Qed.

(** X13.  A [clear-mine] never sends Redis an [rPush] without items: with
    Redis up, the handler appends at most once, exactly the strokes it
    keeps, and only when there is one to keep; when every stroke of the
    board is the caller's, the list is deleted and nothing is appended. *)
Theorem clear_mine_never_appends_nothing d i sid u board :
  faults (environment d) = [] → decodes (store d) board →
  Forall (λ cache, cache = board) (caches d) →
  session d i sid = Some u → truthy u = true →
  ∃ new,
    history (step d (ClearMine i sid)) = history d ++ new ∧
    (∀ items ok, RPush items ok ∈ new →
       items ≠ [] ∧ items = JSON_stringify <$> remainder u board ∧ ok = true) ∧
    (remainder u board = [] → ∀ items ok, RPush items ok ∉ new) ∧
    Del true ∈ new.
Proof.
  intros Hf Hdec Hcache Hs Hu.
  destruct (clear_mine_log d i sid u board Hf Hdec
              (caches_of_the_board d board Hdec Hcache) Hs Hu)
    as (bus & Hh & Hbus).
  eexists. split; [exact Hh|].
  assert (∀ items ok,
            RPush items ok
            ∈ LRange true :: Del true
                :: (if (0 <? length (remainder u board))%nat
                    then [RPush (JSON_stringify <$> remainder u board) true]
                    else []) ++ bus →
            remainder u board ≠ [] ∧
            items = JSON_stringify <$> remainder u board ∧ ok = true) as Hin.
  { intros items ok Hx.
    apply elem_of_cons in Hx as [|Hx]; [done|].
    apply elem_of_cons in Hx as [|Hx]; [done|].
    apply elem_of_app in Hx as [Hx|Hx].
    - destruct (remainder u board) as [|s r] eqn:E; simpl in Hx.
      + by apply elem_of_nil in Hx.
      + by apply list_elem_of_singleton in Hx as [= -> ->].
    - by specialize (Hbus _ Hx). }
  split; [|split].
  - intros items ok Hx. destruct (Hin items ok Hx) as (Hne & -> & ->).
    split; [|done]. by destruct (remainder u board).
  - intros He items ok Hx. by destruct (Hin items ok Hx).
  - right. left.
Qed.


End core.

(** ** Both servers: every stroke in the list has a [userId] *)

Section authorship.
Context {C : Codec}.
Import Whiteboard Agreement Strokes.
Implicit Types (d : server).

Lemma signed_is_object s : signed s = true → is_object s = true.
Proof. unfold signed. by intros [? _]%andb_true_iff. Qed.

(** The stroke of a registered session, as it is read back. *)
Lemma signed_stroke data u :
  truthy u = true → signed (through_JSON (spread_with_userId data u)) = true.
Proof.
  intros Hu. unfold signed.
  rewrite is_object_through, userId_of_through, userId_of_spread by done.
  cbn [is_object spread_with_userId andb fmap option_fmap option_map].
  destruct (truthy_through u Hu) as [->| ->]; done.
Qed.

Lemma remainder_signed u (board : list json) :
  Forall (λ s, signed s = true) board →
  Forall (λ s, signed s = true) (remainder u board).
Proof.
  unfold remainder. induction 1 as [|s b Hs _ IH]; simpl; [done|].
  destruct (negb (authored_by u s)); auto.
Qed.

Lemma signed_items_app items1 items2 :
  signed_items items1 → signed_items items2 → signed_items (items1 ++ items2).
Proof.
  intros (b1 & D1 & H1) (b2 & D2 & H2). exists (b1 ++ b2).
  split; [by apply decodes_app|by apply Forall_app].
Qed.

Lemma signed_items_nil : signed_items [].
Proof. exists []. split; [apply decodes_nil|done]. Qed.

Lemma signed_items_stroke data u :
  truthy u = true → signed_items [JSON_stringify (spread_with_userId data u)].
Proof.
  intros Hu. exists [through_JSON (spread_with_userId data u)].
  split; [apply decodes_stroke|]. constructor; [by apply signed_stroke|done].
Qed.

Lemma signed_items_kept u (board : list json) :
  Forall (λ s, signed s = true) board →
  Forall (λ s, through_JSON s = s) board →
  signed_items (JSON_stringify <$> remainder u board).
Proof.
  intros Hb Hc. exists (remainder u board). split.
  - apply decodes_copies; [|by apply filter_through].
    apply remainder_objects. eapply Forall_impl; [exact Hb|].
    apply signed_is_object.
  - by apply remainder_signed.
Qed.

Lemma keeps_signed_rPush items :
  signed_items items →
  keeps (λ e, signed_items (redis_list e)) (rPush items).
Proof.
  intros Hb [rl fs lg] Hrl. unfold rPush, next_fault. simpl in *.
  destruct fs as [|[] fs]; simpl; try done; by apply signed_items_app.
Qed.

Lemma keeps_signed_del : keeps (λ e, signed_items (redis_list e)) del.
Proof.
  intros [rl fs lg] Hrl. unfold del, next_fault. simpl in *.
  destruct fs as [|[] fs]; simpl; try done; apply signed_items_nil.
Qed.

Lemma hoare_signed_loadBoard :
  hoare (λ e, signed_items (redis_list e)) loadBoardFromRedis
    (λ b e, signed_items (redis_list e) ∧
            Forall (λ s, signed s = true) b ∧
            Forall (λ s, through_JSON s = s) b)
    (λ e, signed_items (redis_list e)).
Proof.
  intros [rl fs lg] Hrl. simpl in Hrl.
  destruct Hrl as (board & Hdec & Hb).
  pose proof (decodes_through _ _ Hdec) as Hc.
  destruct fs as [|[] fs].
  - rewrite (loadBoard_ok _ _ _ board) by done.
    split; [by exists board|done].
  - rewrite loadBoard_fail. by exists board.
  - rewrite (loadBoard_ok _ _ _ board) by done.
    split; [by exists board|done].
Qed.

Lemma keeps_signed_loadBoard :
  keeps (λ e, signed_items (redis_list e)) loadBoardFromRedis.
Proof.
  eapply hoare_weaken; [apply hoare_signed_loadBoard|done|by intros ?? [? _]|done].
Qed.

(** server.js *)
Lemma pubsub_hoare_signed_redis {A} (m : M env A) (Q : A → env → Prop) :
  hoare (λ e, signed_items (redis_list e)) m Q (λ e, signed_items (redis_list e)) →
  hoare (λ c, signed_items (redis_list (PubSub.environment c))) (PubSub.redis m)
    (λ a c, Q a (PubSub.environment c))
    (λ c, signed_items (redis_list (PubSub.environment c))).
Proof.
  intros Hm c Hc. specialize (Hm _ Hc). unfold PubSub.redis.
  by destruct (m (PubSub.environment c)) as [e [a|x]].
Qed.

Lemma pubsub_keeps_signed_redis {A} (m : M env A) :
  keeps (λ e, signed_items (redis_list e)) m →
  keeps (λ c, signed_items (redis_list (PubSub.environment c))) (PubSub.redis m).
Proof. apply pubsub_hoare_signed_redis. Qed.

Lemma pubsub_keeps_signed_publish raw :
  keeps (λ c, signed_items (redis_list (PubSub.environment c)))
    (PubSub.publish raw).
Proof.
  intros c Hc.
  pose proof (keeps_frame_publish (redis_list (PubSub.environment c))
                (PubSub.sockets <$> PubSub.nodes c) raw c) as H.
  destruct (PubSub.publish raw c) as [c' [a|x]];
    destruct H as [-> _]; done.
Qed.

Lemma pubsub_keeps_signed_step (c : PubSub.cluster) cmd :
  signed_items (redis_list (PubSub.environment c)) →
  signed_items (redis_list (PubSub.environment (PubSub.step c cmd))).
Proof.
  intros Hc.
  pose proof (@pubsub_hoare_signed_redis) as Hredis.
  pose proof (@pubsub_keeps_signed_redis) as Hkeep.
  pose proof pubsub_keeps_signed_publish as Hpub.
  destruct cmd as [|j s|j s|j s data|j s data|j s|j s|fs]; simpl;
    unfold PubSub.on_socket; try destruct (PubSub.connected c j s); try done.
  - set (c0 := PubSub.Cluster _ _).
    pose proof (Hpub (JSON_stringify PubSub.msg_init_sync) c0 Hc) as H.
    by destruct (PubSub.publish _ c0) as [c' [a|x]].
  - apply (keeps_exec (λ c, signed_items (redis_list (PubSub.environment c))));
      [|done].
    unfold PubSub.on_register.
    apply keeps_bind; [by apply keeps_modify|intros _].
    apply keeps_bind; [by apply Hkeep, keeps_modify|intros _].
    apply keeps_bind; [apply Hkeep, keeps_signed_loadBoard|intros b].
    by apply Hkeep, keeps_modify.
  - apply (keeps_exec (λ c, signed_items (redis_list (PubSub.environment c))));
      [|done].
    unfold PubSub.on_draw.
    apply keeps_bind; [apply keeps_gets|intros u].
    destruct (truthy u) eqn:Hu; [|apply keeps_ret]. cbn [negb].
    apply keeps_bind; [|intros _; apply Hpub].
    by apply Hkeep, keeps_signed_rPush, signed_items_stroke.
  - apply (keeps_exec (λ c, signed_items (redis_list (PubSub.environment c))));
      [|done].
    unfold PubSub.on_clear_all.
    apply keeps_bind; [apply keeps_gets|intros u].
    destruct (negb (truthy u)); [apply keeps_ret|].
    apply keeps_bind; [apply Hkeep, keeps_signed_del|intros _; apply Hpub].
  - apply (keeps_exec (λ c, signed_items (redis_list (PubSub.environment c))));
      [|done].
    unfold PubSub.on_clear_mine.
    apply keeps_bind; [apply keeps_gets|intros u].
    destruct (negb (truthy u)); [apply keeps_ret|].
    eapply hoare_bind; [apply Hredis, hoare_signed_loadBoard|].
    intros board c' (Hc' & Hb & Hcopy). revert c' Hc'.
    rewrite without_user_remainder
      by (eapply Forall_impl; [exact Hb|apply signed_is_object]).
    eapply hoare_bind;
      [apply (hoare_of_result
                (λ c, signed_items (redis_list (PubSub.environment c))))|].
    intros remaining c' [Hc' [= <-]]. revert c' Hc'.
    apply keeps_bind; [apply Hkeep, keeps_signed_del|intros _].
    apply keeps_bind; [|intros _; apply Hpub].
    destruct (0 <? length (remainder u board))%nat; [|apply keeps_ret].
    by apply Hkeep, keeps_signed_rPush, signed_items_kept.
Qed.

(** The adapter server *)
Lemma adapter_hoare_signed_redis {A} (m : M env A) (Q : A → env → Prop) :
  hoare (λ e, signed_items (redis_list e)) m Q (λ e, signed_items (redis_list e)) →
  hoare (λ c, signed_items (redis_list (Adapter.environment c))) (Adapter.redis m)
    (λ a c, Q a (Adapter.environment c))
    (λ c, signed_items (redis_list (Adapter.environment c))).
Proof.
  intros Hm c Hc. specialize (Hm _ Hc). unfold Adapter.redis.
  by destruct (m (Adapter.environment c)) as [e [a|x]].
Qed.

Lemma adapter_keeps_signed_redis {A} (m : M env A) :
  keeps (λ e, signed_items (redis_list e)) m →
  keeps (λ c, signed_items (redis_list (Adapter.environment c))) (Adapter.redis m).
Proof. apply adapter_hoare_signed_redis. Qed.

Lemma adapter_keeps_signed_emit ps :
  keeps (λ c, signed_items (redis_list (Adapter.environment c))) (Adapter.send ps).
Proof. by apply keeps_modify. Qed.

Lemma adapter_keeps_signed_step (c : Adapter.cluster) cmd :
  signed_items (redis_list (Adapter.environment c)) →
  signed_items (redis_list (Adapter.environment (Adapter.step c cmd))).
Proof.
  intros Hc.
  pose proof (@adapter_hoare_signed_redis) as Hredis.
  pose proof (@adapter_keeps_signed_redis) as Hkeep.
  assert (∀ event arg,
            keeps (λ c, signed_items (redis_list (Adapter.environment c)))
              (Adapter.io_emit event arg)) as Hio.
  { intros. apply keeps_bind; [apply keeps_gets|].
    intros. apply adapter_keeps_signed_emit. }
  assert (∀ sid event arg,
            keeps (λ c, signed_items (redis_list (Adapter.environment c)))
              (Adapter.broadcast_emit sid event arg)) as Hbc.
  { intros. apply keeps_bind; [apply keeps_gets|].
    intros. apply adapter_keeps_signed_emit. }
  destruct cmd as [|j s|j s|j s data|j s data|j s|j s|fs]; simpl;
    unfold Adapter.on_socket; try destruct (Adapter.connected c j s); try done.
  - apply (keeps_exec (λ c, signed_items (redis_list (Adapter.environment c))));
      [|done].
    unfold Adapter.on_register, Adapter.getFullBoard.
    apply keeps_bind; [by apply keeps_modify|intros _].
    apply keeps_bind; [by apply Hkeep, keeps_modify|intros _].
    apply keeps_bind; [apply Hkeep, keeps_signed_loadBoard|intros b].
    by apply Hkeep, keeps_modify.
  - apply (keeps_exec (λ c, signed_items (redis_list (Adapter.environment c))));
      [|done].
    unfold Adapter.on_draw.
    apply keeps_bind; [apply keeps_gets|intros u].
    destruct (truthy u) eqn:Hu; [|apply keeps_ret]. cbn [negb].
    apply keeps_bind; [|intros _; apply Hbc].
    by apply Hkeep, keeps_signed_rPush, signed_items_stroke.
  - apply (keeps_exec (λ c, signed_items (redis_list (Adapter.environment c))));
      [|done].
    unfold Adapter.on_clear_all.
    apply keeps_bind; [apply keeps_gets|intros u].
    destruct (negb (truthy u)); [apply keeps_ret|].
    apply keeps_bind; [apply Hkeep, keeps_signed_del|intros _; apply Hio].
  - apply (keeps_exec (λ c, signed_items (redis_list (Adapter.environment c))));
      [|done].
    unfold Adapter.on_clear_mine, Adapter.getFullBoard.
    apply keeps_bind; [apply keeps_gets|intros u].
    destruct (negb (truthy u)); [apply keeps_ret|].
    eapply hoare_bind; [apply Hredis, hoare_signed_loadBoard|].
    intros board c' (Hc' & Hb & Hcopy). revert c' Hc'.
    rewrite without_user_remainder
      by (eapply Forall_impl; [exact Hb|apply signed_is_object]).
    eapply hoare_bind;
      [apply (hoare_of_result
                (λ c, signed_items (redis_list (Adapter.environment c))))|].
    intros remaining c' [Hc' [= <-]]. revert c' Hc'.
    apply keeps_bind; [apply Hkeep, keeps_signed_del|intros _].
    apply keeps_bind; [|intros _; apply Hio].
    destruct (0 <? length (remainder u board))%nat; [|apply keeps_ret].
    by apply Hkeep, keeps_signed_rPush, signed_items_kept.
Qed.

Lemma step_all_signed d cmd : all_signed d → all_signed (step d cmd).
Proof.
  destruct d as [c|c]; unfold all_signed, store; simpl.
  - apply pubsub_keeps_signed_step.
  - apply adapter_keeps_signed_step.
Qed.

(** X14.  Whatever the commands and whatever fails, no handler stores a
    stroke without a [userId]: when every item of the Redis list reads back
    as an object whose [userId] is truthy or [null] (an empty list, to begin
    with), this is still so after any run of either server.  ([null] is
    what the [userId] of a session becomes in the list when it is a number
    that is not finite.) *)
Theorem stored_strokes_carry_a_userId d cmds :
  all_signed d → all_signed (run d cmds).
Proof.
  revert d. induction cmds as [|cmd cmds IH]; intros d Hd; [done|].
  simpl. by apply IH, step_all_signed.
Qed.

End authorship.

(** ** Both servers: a list that holds something else than strokes *)

Section corrupt_list.
Context {C : Codec}.
Import Whiteboard Strokes.
Implicit Types (d : server).

Lemma parse_all_corrupt (items : list wire) item :
  item ∈ items → JSON_parse item = None → parse_all items = Throw SyntaxError.
Proof.
  intros Hin Hbad. induction items as [|x items IH]; [by apply elem_of_nil in Hin|].
  simpl. unfold parse at 1.
  destruct (JSON_parse x) as [v|] eqn:Hx; [|done].
  apply elem_of_cons in Hin as [->|Hin]; [congruence|].
  by rewrite IH.
Qed.

Lemma loadBoard_throws rl fs lg e :
  head fs ≠ Some true → parse_all rl = Throw e →
  loadBoardFromRedis (Env rl fs lg)
  = (Env rl (tail fs) (lg ++ [LRange true]), Throw e).
Proof.
  intros Hf Hp. unfold loadBoardFromRedis, mbind, M_bind.
  rewrite lRange_ok by done. unfold of_result. by rewrite Hp.
Qed.

Lemma without_user_null u (board : list json) :
  JNull ∈ board → without_user u board = Throw TypeError.
Proof.
  intros Hin. induction board as [|s b IH]; [by apply elem_of_nil in Hin|].
  apply elem_of_cons in Hin as [<-|Hin]; [done|].
  simpl. rewrite IH by done. by destruct s.
Qed.

(** X15.  When an item of the Redis list is not JSON, a [register] still
    binds the connection and sends [user-info], but the read of the board
    throws a [SyntaxError]: no [init-board] is sent and the promise
    rejects.  The list is left as it is. *)
Theorem register_rejects_on_a_corrupt_item d i sid data item :
  is_Some (session d i sid) →
  head (faults (environment d)) ≠ Some true →
  item ∈ store d → JSON_parse item = None →
  history (step d (Register i sid data))
  = history d
    ++ [Emit i sid "user-info"
          (Some (JObj [("userId", PubSub.assigned_userId data sid)]));
        LRange true] ∧
  store (step d (Register i sid data)) = store d ∧
  session (step d (Register i sid data)) i sid
  = Some (PubSub.assigned_userId data sid) ∧
  settle d (Register i sid data) = Throw SyntaxError.
Proof.
  intros Hs Hf Hin Hbad.
  destruct d as [[[rl fs lg] nds]|[[rl fs lg] nds]];
    unfold store in Hin; simpl in Hf, Hin;
    pose proof (parse_all_corrupt rl item Hin Hbad) as Hp.
  - rewrite session_pubsub in Hs.
    cbn [step settle]. rewrite session_pubsub.
    cbn [PubSub.step PubSub.settle]. unfold PubSub.on_socket.
    rewrite (bool_decide_eq_true_2 _ Hs : PubSub.connected _ i sid = true).
    unfold exec, outcome, PubSub.on_register, mbind, M_bind, PubSub.set_userId,
      PubSub.socket_emit, modify, PubSub.redis.
    cbn [PubSub.environment PubSub.nodes]. unfold record, record_all.
    cbn [redis_list faults log].
    rewrite (loadBoard_throws _ _ _ SyntaxError) by done.
    unfold store, history. cbn [environment fst snd PubSub.environment
      redis_list log]. rewrite <-!app_assoc.
    repeat split; try done.
    unfold PubSub.session in *. cbn [PubSub.nodes] in *.
    rewrite list_lookup_alter_eq. destruct (nds !! i); [|by destruct Hs].
    simpl. apply lookup_insert_eq.
  - rewrite session_adapter in Hs.
    cbn [step settle]. rewrite session_adapter.
    cbn [Adapter.step Adapter.settle]. unfold Adapter.on_socket.
    rewrite (bool_decide_eq_true_2 _ Hs : Adapter.connected _ i sid = true).
    unfold exec, outcome, Adapter.on_register, mbind, M_bind,
      Adapter.set_userId, Adapter.socket_emit, modify, Adapter.redis,
      Adapter.getFullBoard.
    cbn [Adapter.environment Adapter.nodes]. unfold record, record_all.
    cbn [redis_list faults log].
    rewrite (loadBoard_throws _ _ _ SyntaxError) by done.
    unfold store, history. cbn [environment fst snd Adapter.environment
      redis_list log]. rewrite <-!app_assoc.
    repeat split; try done.
    unfold Adapter.session in *. cbn [Adapter.nodes] in *.
    rewrite list_lookup_alter_eq. destruct (nds !! i); [|by destruct Hs].
    simpl. apply lookup_insert_eq.
Qed.

(** X16.  When the board read from the Redis list has a [null] among its
    strokes, [s.userId] throws inside the filter of a [clear-mine]: the
    handler rejects with a [TypeError] right after the read, before the
    [del], so the list, the caches and the closures are untouched and
    nothing is published. *)
Theorem clear_mine_rejects_on_a_null_stroke d i sid u board :
  session d i sid = Some u → truthy u = true →
  head (faults (environment d)) ≠ Some true →
  store d = JSON_stringify <$> board → JNull ∈ board →
  history (step d (ClearMine i sid)) = history d ++ [LRange true] ∧
  store (step d (ClearMine i sid)) = store d ∧
  closures (step d (ClearMine i sid)) = closures d ∧
  caches (step d (ClearMine i sid)) = caches d ∧
  settle d (ClearMine i sid) = Throw TypeError.
Proof.
  intros Hs Hu Hf Hst Hnull.
  destruct d as [[[rl fs lg] nds]|[[rl fs lg] nds]];
    unfold store in Hst; simpl in Hf, Hst; subst rl.
  - rewrite session_pubsub in Hs.
    cbn [step settle PubSub.step PubSub.settle]. unfold PubSub.on_socket.
    rewrite (session_connected _ _ _ _ Hs).
    unfold exec, outcome, PubSub.on_clear_mine, mbind, M_bind.
    rewrite (get_userId_session _ _ _ u Hs), Hu. cbn [negb].
    unfold PubSub.redis. cbn [PubSub.environment PubSub.nodes].
    unfold loadBoardFromRedis, mbind, M_bind.
    rewrite lRange_ok by done. unfold of_result.
    rewrite parse_all_stringify, without_user_null
      by (change JNull with (through_JSON JNull); by apply list_elem_of_fmap_2).
    by repeat split.
  - rewrite session_adapter in Hs.
    cbn [step settle Adapter.step Adapter.settle]. unfold Adapter.on_socket.
    rewrite (bool_decide_eq_true_2 _ (mk_is_Some _ _ Hs)
             : Adapter.connected _ i sid = true).
    unfold exec, outcome, Adapter.on_clear_mine, mbind, M_bind.
    rewrite (adapter_get_userId_session _ _ _ u Hs), Hu. cbn [negb].
    unfold Adapter.redis, Adapter.getFullBoard.
    cbn [Adapter.environment Adapter.nodes].
    unfold loadBoardFromRedis, mbind, M_bind.
    rewrite lRange_ok by done. unfold of_result.
    rewrite parse_all_stringify, without_user_null
      by (change JNull with (through_JSON JNull); by apply list_elem_of_fmap_2).
    by repeat split.
Qed.

End corrupt_list.

(** ** Both servers: the identity and the stroke that a handler builds *)

Section built_values.
Context {C : Codec}.
Import Whiteboard Strokes.
Implicit Types (d : server).

Lemma derived_userId_truthy sid :
  sid ≠ "" → truthy (JStr (toUpperCase (slice_0_5 sid))) = true.
Proof. intros Hne. by destruct sid. Qed.

Lemma assigned_userId_truthy data sid :
  sid ≠ "" → truthy (PubSub.assigned_userId data sid) = true.
Proof.
  intros Hne. unfold PubSub.assigned_userId.
  destruct (opt_member data "userId") as [v|];
    [destruct (truthy v) eqn:Hv; [done|]|]; by apply derived_userId_truthy.
Qed.

(** X17.  A [register] always leaves the connection registered: whatever
    the payload and whatever fails, the [userId] it binds is truthy, as
    long as the socket id is not the empty string (the fallback is the
    first characters of that id), so the guards of [draw], [clear-all] and
    [clear-mine] let the connection through from then on. *)
Theorem register_always_registers d i sid data :
  is_Some (session d i sid) → sid ≠ "" →
  ∃ u, session (step d (Register i sid data)) i sid = Some u ∧ truthy u = true.
Proof.
  intros Hs Hne. exists (PubSub.assigned_userId data sid).
  split; [|by apply assigned_userId_truthy].
  destruct d as [[[rl fs lg] nds]|[[rl fs lg] nds]].
  - rewrite session_pubsub in Hs.
    destruct (on_register_shape rl fs lg nds i sid data) as (fs' & rest & r & E).
    cbn [step]. rewrite session_pubsub. simpl. unfold PubSub.on_socket.
    rewrite (bool_decide_eq_true_2 _ Hs : PubSub.connected _ i sid = true).
    unfold exec. rewrite E. simpl.
    unfold PubSub.session in *. simpl in *.
    rewrite list_lookup_alter_eq. destruct (nds !! i); [|by destruct Hs].
    simpl. apply lookup_insert_eq.
  - rewrite session_adapter in Hs.
    destruct (adapter_on_register_shape rl fs lg nds i sid data)
      as (fs' & rest & r & E).
    cbn [step]. rewrite session_adapter. simpl. unfold Adapter.on_socket.
    rewrite (bool_decide_eq_true_2 _ Hs : Adapter.connected _ i sid = true).
    unfold exec. rewrite E. simpl.
    unfold Adapter.session in *. simpl in *.
    rewrite list_lookup_alter_eq. destruct (nds !! i); [|by destruct Hs].
    simpl. apply lookup_insert_eq.
Qed.

Lemma other_fields_set_field u fs :
  other_fields (set_field "userId" u fs) = other_fields fs.
Proof.
  unfold other_fields. induction fs as [|[k v] fs IH]; [done|].
  cbn [set_field]. destruct (String.eqb k "userId") eqn:E.
  - cbn [List.filter fst]. by rewrite E.
  - cbn [List.filter fst]. rewrite E. cbn [negb]. by rewrite IH.
Qed.

(** X18.  The stroke that a [draw] builds from an object payload has every
    property of the payload other than [userId], with its value and in the
    same order, and the session's [userId] as its [userId]; a [draw] with
    no payload, with [null] or with a number builds the stroke that has
    the [userId] alone. *)
Theorem stroke_keeps_the_payload fs u :
  ∃ fs',
    spread_with_userId (Some (JObj fs)) u = JObj fs' ∧
    other_fields fs' = other_fields fs ∧
    lookup_field "userId" fs' = Some u ∧
    (∀ k, k ≠ "userId" → lookup_field k fs' = lookup_field k fs) ∧
    spread_with_userId None u = JObj [("userId", u)] ∧
    spread_with_userId (Some JNull) u = JObj [("userId", u)] ∧
    (∀ z, spread_with_userId (Some (JNum z)) u = JObj [("userId", u)]).
Proof.
  exists (set_field "userId" u fs). split; [done|].
  split; [apply other_fields_set_field|].
  split; [apply lookup_set_field|].
  split; [|done].
  intros k Hk. by apply lookup_set_field_ne.
Qed.

End built_values.

(** ** The adapter server: who is sent a stroke *)

Section adapter_senders.
Context {C : Codec}.
Import Whiteboard.

(** X21.  On the adapter server the sender of a [draw] is never sent its
    own stroke: with Redis up, every packet that a [draw] of a registered
    session sends is a [draw] packet that carries the stroke itself and goes
    to a connected socket whose id is not the sender's. *)
Theorem adapter_draw_skips_the_sender (c : Adapter.cluster) i sid u data :
  Adapter.session c i sid = Some u → truthy u = true →
  faults (Adapter.environment c) = [] →
  ∃ new,
    history (step (ViaAdapter c) (Draw i sid data))
    = history (ViaAdapter c) ++ new ∧
    ∀ j s event arg, Emit j s event arg ∈ new →
      s ≠ sid ∧ is_Some (Adapter.session c j s) ∧
      event = "draw" ∧ arg = Some (stroke_of u data).
Proof.
  intros Hs Hu Hf. destruct c as [[rl fs lg] nds]. simpl in Hf. subst fs.
  cbn [step Adapter.step]. unfold Adapter.on_socket.
  rewrite (bool_decide_eq_true_2 _ (mk_is_Some _ _ Hs)
           : Adapter.connected _ i sid = true).
  unfold exec. rewrite (adapter_on_draw_run _ _ _ _ _ _ u) by done.
  unfold history. cbn [environment fst Adapter.environment log].
  eexists. split; [reflexivity|].
  intros j s event arg Hin. apply elem_of_cons in Hin as [|Hin]; [done|].
  apply elem_of_cluster_packets
    in Hin as (j' & nd & s' & v & Hnd & Hv & Hk & [= -> -> -> ->]).
  split; [|split; [|done]].
  - apply negb_true_iff in Hk. by apply String.eqb_neq in Hk.
  - exists v. apply session_adapter_nodes. by exists nd.
Qed.

End adapter_senders.

(** ** More of the code on concrete runs *)

Section more_concrete.
Import Whiteboard Demo Cases Agreement Strokes.
#[local] Existing Instance plain_codec.

(** Proves that a concrete list holds a concrete board. *)
Ltac holds :=
  split; [by vm_compute|]; split; [by vm_compute|]; by repeat constructor.


(** The inner hypotheses of C2 hold on the board of the specification. *)
Example spec_board_meets_the_conditions :
  survives_JSON (JStr "u1") = true ∧
  Forall (λ cache, cache = board_abc) (caches pubsub_abc) ∧
  Forall (λ cache, cache = board_abc) (caches adapter_abc).
Proof.
  split; [reflexivity|]. split; [|apply Forall_nil_2].
  vm_compute. by repeat constructor.
Qed.

Lemma unknown_message_changes_nothing_witness :
  parse (JSON_stringify ping) = Ok ping ∧
  member ping "type" = Ok (Some (JStr "ping")) ∧
  Channel.unknown_type (Some (JStr "ping")) = true ∧
  PubSub.on_message 1 (JSON_stringify ping) abc_cluster = (abc_cluster, Ok tt).
Proof.
  split; [reflexivity|]. split; [reflexivity|]. split; [reflexivity|].
  exact (unknown_message_changes_nothing abc_cluster 1 (JSON_stringify ping)
           ping (Some (JStr "ping")) eq_refl eq_refl eq_refl).
Defined.

Lemma subscriber_touches_only_its_cache_witness :
  outcome (PubSub.on_message 1 (JSON_stringify (PubSub.msg_draw ping)))
    abc_cluster = Ok tt ∧
  redis_list
    (PubSub.environment
       (exec (PubSub.on_message 1 (JSON_stringify (PubSub.msg_draw ping)))
          abc_cluster))
  = redis_list (PubSub.environment abc_cluster) ∧
  PubSub.sockets
    <$> PubSub.nodes
          (exec (PubSub.on_message 1 (JSON_stringify (PubSub.msg_draw ping)))
             abc_cluster)
  = PubSub.sockets <$> PubSub.nodes abc_cluster ∧
  ∀ j, j ≠ 1%nat →
       PubSub.nodes
         (exec (PubSub.on_message 1 (JSON_stringify (PubSub.msg_draw ping)))
            abc_cluster) !! j
       = PubSub.nodes abc_cluster !! j.
Proof.
  assert (outcome (PubSub.on_message 1 (JSON_stringify (PubSub.msg_draw ping)))
            abc_cluster = Ok tt) as Ho by by vm_compute.
  split; [exact Ho|].
  exact (subscriber_touches_only_its_cache abc_cluster 1
           (JSON_stringify (PubSub.msg_draw ping)) Ho).
Defined.

Example stale_cluster_is_stale :
  PubSub.strokes <$> PubSub.nodes stale_cluster = [[]] ∧
  redis_list (PubSub.environment stale_cluster)
  = [JObj [("path", JStr "A"); ("userId", JNull)]] ∧
  faults (PubSub.environment stale_cluster) = [] ∧
  Forall (λ x, ∀ items raw, x ≠ RPush items false ∧ x ≠ Del false
                            ∧ x ≠ LRange false ∧ x ≠ Publish raw false)
    (log (PubSub.environment stale_cluster)).
Proof.
  repeat (split; [by vm_compute|]). vm_compute. by repeat constructor.
Qed.

Lemma start_node_reloads_every_cache_witness :
  faults (PubSub.environment stale_cluster) = [] ∧
  decodes (redis_list (PubSub.environment stale_cluster))
    [JObj [("path", JStr "A"); ("userId", JNull)]] ∧
  PubSub.strokes <$> PubSub.nodes (PubSub.step stale_cluster StartNode)
  = replicate (S (length (PubSub.nodes stale_cluster)))
      [JObj [("path", JStr "A"); ("userId", JNull)]] ∧
  redis_list (PubSub.environment (PubSub.step stale_cluster StartNode))
  = redis_list (PubSub.environment stale_cluster) ∧
  PubSub.sockets <$> PubSub.nodes (PubSub.step stale_cluster StartNode)
  = (PubSub.sockets <$> PubSub.nodes stale_cluster) ++ [∅].
Proof.
  assert (faults (PubSub.environment stale_cluster) = []) as Hf by by vm_compute.
  assert (decodes (redis_list (PubSub.environment stale_cluster))
            [JObj [("path", JStr "A"); ("userId", JNull)]]) as Hd by holds.
  split; [exact Hf|]. split; [exact Hd|].
  exact (start_node_reloads_every_cache stale_cluster _ Hf Hd).
Defined.

Lemma failed_publish_keeps_the_append_witness :
  PubSub.session flaky_cluster 0 s1 = Some (JStr "u1") ∧
  truthy (JStr "u1") = true ∧
  faults (PubSub.environment flaky_cluster) = false :: true :: [] ∧
  PubSub.step flaky_cluster (Draw 0 s1 (path "A"))
  = PubSub.Cluster
      (Env (redis_list (PubSub.environment flaky_cluster)
              ++ [JSON_stringify (spread_with_userId (path "A") (JStr "u1"))]) []
         (log (PubSub.environment flaky_cluster)
            ++ [RPush [JSON_stringify
                         (spread_with_userId (path "A") (JStr "u1"))] true;
                Publish (JSON_stringify
                           (PubSub.msg_draw
                              (spread_with_userId (path "A") (JStr "u1"))))
                  false]))
      (PubSub.nodes flaky_cluster) ∧
  PubSub.settle flaky_cluster (Draw 0 s1 (path "A")) = Throw RedisError.
Proof.
  assert (PubSub.session flaky_cluster 0 s1 = Some (JStr "u1")) as Hs
    by by vm_compute.
  assert (faults (PubSub.environment flaky_cluster) = false :: true :: [])
    as Hf by by vm_compute.
  split; [exact Hs|]. split; [reflexivity|]. split; [exact Hf|].
  exact (failed_publish_keeps_the_append flaky_cluster 0 s1 (JStr "u1")
           (path "A") [] Hs eq_refl Hf).
Defined.

Lemma clear_all_deletes_before_it_publishes_witness :
  session adapter_down 0 s1 = Some (JStr "u1") ∧ truthy (JStr "u1") = true ∧
  (∀ fs, faults (environment adapter_down) = true :: fs →
     history (step adapter_down (ClearAll 0 s1))
     = history adapter_down ++ [Del false] ∧
     store (step adapter_down (ClearAll 0 s1)) = store adapter_down ∧
     closures (step adapter_down (ClearAll 0 s1)) = closures adapter_down ∧
     caches (step adapter_down (ClearAll 0 s1)) = caches adapter_down ∧
     settle adapter_down (ClearAll 0 s1) = Throw RedisError) ∧
  (∀ new k x,
     history (step adapter_down (ClearAll 0 s1)) = history adapter_down ++ new →
     new !! k = Some x → is_broadcast x = true →
     new !! 0%nat = Some (Del true) ∧ (0 < k)%nat).
Proof.
  assert (session adapter_down 0 s1 = Some (JStr "u1")) as Hs by by vm_compute.
  split; [exact Hs|]. split; [reflexivity|].
  exact (clear_all_deletes_before_it_publishes adapter_down 0 s1 (JStr "u1")
           Hs eq_refl).
Defined.

Lemma failed_publish_keeps_the_delete_witness :
  PubSub.session flaky_cluster 0 s1 = Some (JStr "u1") ∧
  truthy (JStr "u1") = true ∧
  faults (PubSub.environment flaky_cluster) = false :: true :: [] ∧
  PubSub.step flaky_cluster (ClearAll 0 s1)
  = PubSub.Cluster
      (Env [] []
         (log (PubSub.environment flaky_cluster)
            ++ [Del true; Publish (JSON_stringify PubSub.msg_clear_all) false]))
      (PubSub.nodes flaky_cluster) ∧
  PubSub.settle flaky_cluster (ClearAll 0 s1) = Throw RedisError.
Proof.
  assert (PubSub.session flaky_cluster 0 s1 = Some (JStr "u1")) as Hs
    by by vm_compute.
  assert (faults (PubSub.environment flaky_cluster) = false :: true :: [])
    as Hf by by vm_compute.
  split; [exact Hs|]. split; [reflexivity|]. split; [exact Hf|].
  exact (failed_publish_keeps_the_delete flaky_cluster 0 s1 (JStr "u1") []
           Hs eq_refl Hf).
Defined.

Lemma failed_rewrite_loses_the_board_witness :
  session pubsub_abc_flaky 0 s1 = Some (JStr "u1") ∧
  truthy (JStr "u1") = true ∧
  decodes (store pubsub_abc_flaky) board_abc ∧
  remainder (JStr "u1") board_abc ≠ [] ∧
  faults (environment pubsub_abc_flaky) = false :: false :: true :: [] ∧
  store (step pubsub_abc_flaky (ClearMine 0 s1)) = [] ∧
  history (step pubsub_abc_flaky (ClearMine 0 s1))
  = history pubsub_abc_flaky
    ++ [LRange true; Del true;
        RPush (JSON_stringify <$> remainder (JStr "u1") board_abc) false] ∧
  closures (step pubsub_abc_flaky (ClearMine 0 s1)) = closures pubsub_abc_flaky ∧
  caches (step pubsub_abc_flaky (ClearMine 0 s1)) = caches pubsub_abc_flaky ∧
  settle pubsub_abc_flaky (ClearMine 0 s1) = Throw RedisError.
Proof.
  assert (session pubsub_abc_flaky 0 s1 = Some (JStr "u1")) as Hs
    by by vm_compute.
  assert (decodes (store pubsub_abc_flaky) board_abc) as Hd by holds.
  assert (remainder (JStr "u1") board_abc ≠ []) as Hne by by vm_compute.
  assert (faults (environment pubsub_abc_flaky) = false :: false :: true :: [])
    as Hf by by vm_compute.
  split; [exact Hs|]. split; [reflexivity|]. split; [exact Hd|].
  split; [exact Hne|]. split; [exact Hf|].
  exact (failed_rewrite_loses_the_board pubsub_abc_flaky 0 s1 (JStr "u1")
           board_abc [] Hs eq_refl Hd Hne Hf).
Defined.

Lemma the_two_servers_persist_the_same_witness :
  Forall (λ s, is_object s = true) [] ∧
  Forall (λ cmd, is_outage cmd = false) (abc_commands ++ [ClearMine 0 s1]) ∧
  store (run (ViaPubSub (PubSub.boot [])) (abc_commands ++ [ClearMine 0 s1]))
  = store (run (ViaAdapter (Adapter.boot [])) (abc_commands ++ [ClearMine 0 s1])) ∧
  closures (run (ViaPubSub (PubSub.boot [])) (abc_commands ++ [ClearMine 0 s1]))
  = closures (run (ViaAdapter (Adapter.boot []))
                (abc_commands ++ [ClearMine 0 s1])).
Proof.
  assert (Forall (λ cmd, is_outage cmd = false)
            (abc_commands ++ [ClearMine 0 s1])) as Hc
    by (vm_compute; by repeat constructor).
  split; [apply Forall_nil_2|]. split; [exact Hc|].
  exact (the_two_servers_persist_the_same [] _ (Forall_nil_2 _) Hc).
Defined.

Lemma clear_mine_is_idempotent_witness :
  faults (environment pubsub_inf_abc) = [] ∧
  decodes (store pubsub_inf_abc) board_inf_abc ∧
  Forall (Forall (λ s, is_object s = true)) (caches pubsub_inf_abc) ∧
  let d1 := step pubsub_inf_abc (ClearMine 0 s1) in
  let d2 := step d1 (ClearMine 0 s1) in
  store d2 = store d1 ∧ closures d2 = closures d1 ∧ caches d2 = caches d1.
Proof.
  assert (faults (environment pubsub_inf_abc) = []) as Hf by by vm_compute.
  assert (decodes (store pubsub_inf_abc) board_inf_abc) as Hd by holds.
  assert (Forall (Forall (λ s, is_object s = true)) (caches pubsub_inf_abc))
    as Hc.
  { vm_compute. by repeat constructor. }
  split; [exact Hf|]. split; [exact Hd|]. split; [exact Hc|].
  exact (clear_mine_is_idempotent pubsub_inf_abc board_inf_abc 0 s1 Hf Hd Hc).
Defined.

Lemma clear_mine_by_a_reference_removes_nothing_witness :
  session adapter_badge 0 s1 = Some badge ∧ is_primitive badge = false ∧
  faults (environment adapter_badge) = [] ∧
  decodes (store adapter_badge) [JObj [("path", JStr "A"); ("userId", badge)]] ∧
  Forall (λ cache, cache = [JObj [("path", JStr "A"); ("userId", badge)]])
    (caches adapter_badge) ∧
  store (step adapter_badge (ClearMine 0 s1)) = store adapter_badge.
Proof.
  assert (session adapter_badge 0 s1 = Some badge) as Hs by by vm_compute.
  assert (faults (environment adapter_badge) = []) as Hf by by vm_compute.
  assert (decodes (store adapter_badge)
            [JObj [("path", JStr "A"); ("userId", badge)]]) as Hd by holds.
  assert (Forall (λ cache, cache = [JObj [("path", JStr "A"); ("userId", badge)]])
            (caches adapter_badge)) as Hc by apply Forall_nil_2.
  split; [exact Hs|]. split; [reflexivity|]. split; [exact Hf|].
  split; [exact Hd|]. split; [exact Hc|].
  exact (clear_mine_by_a_reference_removes_nothing adapter_badge _ 0 s1 badge
           Hs eq_refl Hf Hd Hc).
Defined.

Lemma clear_mine_removes_the_own_stroke_witness :
  session pubsub_abc 1 s2 = Some (JStr "u2") ∧ truthy (JStr "u2") = true ∧
  survives_JSON (JStr "u2") = true ∧
  faults (environment pubsub_abc) = [] ∧
  decodes (store pubsub_abc) board_abc ∧
  Forall (Forall (λ s, is_object s = true)) (caches pubsub_abc) ∧
  store (run pubsub_abc [Draw 1 s2 (path "D"); ClearMine 1 s2])
  = store (step pubsub_abc (ClearMine 1 s2)) ∧
  store (step pubsub_abc (ClearMine 1 s2))
  = JSON_stringify <$> remainder (JStr "u2") board_abc.
Proof.
  assert (session pubsub_abc 1 s2 = Some (JStr "u2")) as Hs by by vm_compute.
  assert (faults (environment pubsub_abc) = []) as Hf by by vm_compute.
  assert (decodes (store pubsub_abc) board_abc) as Hd by holds.
  assert (Forall (Forall (λ s, is_object s = true)) (caches pubsub_abc)) as Hc.
  { vm_compute. by repeat constructor. }
  split; [exact Hs|]. split; [reflexivity|]. split; [reflexivity|].
  split; [exact Hf|]. split; [exact Hd|]. split; [exact Hc|].
  exact (clear_mine_removes_the_own_stroke pubsub_abc board_abc 1 s2 (JStr "u2")
           (path "D") Hs eq_refl eq_refl Hf Hd Hc).
Defined.

(** A session whose [userId] does not come back from JSON as it went does
    not remove what it drew. *)
Example infinite_userId_keeps_its_strokes :
  session adapter_inf 0 s1 = Some (JInf false) ∧
  survives_JSON (JInf false) = false ∧
  store (run adapter_inf [Draw 0 s1 (path "A"); ClearMine 0 s1])
  = [JObj [("path", JStr "A"); ("userId", JNull)]] ∧
  store (step adapter_inf (ClearMine 0 s1)) = [].
Proof. by vm_compute. Qed.

Lemma clear_mine_never_appends_nothing_witness :
  faults (environment pubsub_abc) = [] ∧
  decodes (store pubsub_abc) board_abc ∧
  Forall (λ cache, cache = board_abc) (caches pubsub_abc) ∧
  session pubsub_abc 0 s1 = Some (JStr "u1") ∧ truthy (JStr "u1") = true ∧
  ∃ new,
    history (step pubsub_abc (ClearMine 0 s1)) = history pubsub_abc ++ new ∧
    (∀ items ok, RPush items ok ∈ new →
       items ≠ [] ∧ items = JSON_stringify <$> remainder (JStr "u1") board_abc ∧
       ok = true) ∧
    (remainder (JStr "u1") board_abc = [] → ∀ items ok, RPush items ok ∉ new) ∧
    Del true ∈ new.
Proof.
  assert (faults (environment pubsub_abc) = []) as Hf by by vm_compute.
  assert (decodes (store pubsub_abc) board_abc) as Hd by holds.
  assert (Forall (λ cache, cache = board_abc) (caches pubsub_abc)) as Hc.
  { vm_compute. by repeat constructor. }
  assert (session pubsub_abc 0 s1 = Some (JStr "u1")) as Hs by by vm_compute.
  split; [exact Hf|]. split; [exact Hd|]. split; [exact Hc|].
  split; [exact Hs|]. split; [reflexivity|].
  exact (clear_mine_never_appends_nothing pubsub_abc 0 s1 (JStr "u1") board_abc
           Hf Hd Hc Hs eq_refl).
Defined.

Lemma stored_strokes_carry_a_userId_witness :
  all_signed (ViaPubSub (PubSub.boot [])) ∧
  all_signed (run (ViaPubSub (PubSub.boot []))
                (infinite_users
                 ++ [Outage [false; true]; Draw 0 s1 forged; Draw 1 s2 forged])).
Proof.
  assert (all_signed (ViaPubSub (PubSub.boot []))) as H0.
  { exists []. split; [apply decodes_nil|done]. }
  split; [exact H0|].
  exact (stored_strokes_carry_a_userId (ViaPubSub (PubSub.boot [])) _ H0).
Defined.

Example a_userId_stored_as_null :
  store (run (ViaPubSub (PubSub.boot []))
           (infinite_users
            ++ [Outage [false; true]; Draw 0 s1 forged; Draw 1 s2 forged]))
  = [JObj [("userId", JNull); ("path", JStr "X")];
     JObj [("userId", JStr "u2"); ("path", JStr "X")]].
Proof. by vm_compute. Qed.

Lemma clear_mine_rejects_on_a_null_stroke_witness :
  session adapter_null 0 s1 = Some (JStr "u1") ∧ truthy (JStr "u1") = true ∧
  head (faults (environment adapter_null)) ≠ Some true ∧
  store adapter_null = JSON_stringify <$> [JNull] ∧ JNull ∈ [JNull] ∧
  history (step adapter_null (ClearMine 0 s1))
  = history adapter_null ++ [LRange true] ∧
  store (step adapter_null (ClearMine 0 s1)) = store adapter_null ∧
  closures (step adapter_null (ClearMine 0 s1)) = closures adapter_null ∧
  caches (step adapter_null (ClearMine 0 s1)) = caches adapter_null ∧
  settle adapter_null (ClearMine 0 s1) = Throw TypeError.
Proof.
  assert (session adapter_null 0 s1 = Some (JStr "u1")) as Hs by by vm_compute.
  assert (head (faults (environment adapter_null)) ≠ Some true) as Hf
    by by vm_compute.
  assert (store adapter_null = JSON_stringify <$> [JNull]) as Hst
    by by vm_compute.
  assert (JNull ∈ [JNull]) as Hin by left.
  split; [exact Hs|]. split; [reflexivity|]. split; [exact Hf|].
  split; [exact Hst|]. split; [exact Hin|].
  exact (clear_mine_rejects_on_a_null_stroke adapter_null 0 s1 (JStr "u1")
           [JNull] Hs eq_refl Hf Hst Hin).
Defined.

Lemma register_always_registers_witness :
  is_Some (session pubsub_fresh 0 s1) ∧ s1 ≠ "" ∧
  ∃ u, session (step pubsub_fresh (Register 0 s1 unnamed)) 0 s1 = Some u
       ∧ truthy u = true.
Proof.
  assert (is_Some (session pubsub_fresh 0 s1)) as Hs by (vm_compute; eauto).
  assert (s1 ≠ "") as Hne by done.
  split; [exact Hs|]. split; [exact Hne|].
  exact (register_always_registers pubsub_fresh 0 s1 unnamed Hs Hne).
Defined.

Lemma every_node_filters_its_own_cache_witness :
  PubSub.session inf_abc_cluster 0 s1 = Some (JInf false) ∧
  truthy (JInf false) = true ∧
  faults (PubSub.environment inf_abc_cluster) = [] ∧
  decodes (redis_list (PubSub.environment inf_abc_cluster)) board_inf_abc ∧
  Forall (λ nd, Forall (λ s, is_object s = true) (PubSub.strokes nd))
    (PubSub.nodes inf_abc_cluster) ∧
  redis_list (PubSub.environment (PubSub.step inf_abc_cluster (ClearMine 0 s1)))
  = JSON_stringify <$> remainder (JInf false) board_inf_abc ∧
  PubSub.nodes (PubSub.step inf_abc_cluster (ClearMine 0 s1))
  = (λ nd, PubSub.Node (remainder (through_JSON (JInf false)) (PubSub.strokes nd))
             (PubSub.sockets nd)) <$> PubSub.nodes inf_abc_cluster ∧
  ∀ j nd s v,
    PubSub.nodes inf_abc_cluster !! j = Some nd →
    PubSub.sockets nd !! s = Some v →
    Emit j s "reset-board"
      (Some (JArr (remainder (through_JSON (JInf false)) (PubSub.strokes nd))))
    ∈ log (PubSub.environment (PubSub.step inf_abc_cluster (ClearMine 0 s1))) ∧
    ∀ arg, Emit j s "reset-board" arg
           ∈ drop (length (log (PubSub.environment inf_abc_cluster)))
               (log (PubSub.environment
                       (PubSub.step inf_abc_cluster (ClearMine 0 s1)))) →
           arg = Some (JArr (remainder (through_JSON (JInf false))
                               (PubSub.strokes nd))).
Proof.
  assert (PubSub.session inf_abc_cluster 0 s1 = Some (JInf false)) as Hs
    by by vm_compute.
  assert (faults (PubSub.environment inf_abc_cluster) = []) as Hf
    by by vm_compute.
  assert (decodes (redis_list (PubSub.environment inf_abc_cluster))
            board_inf_abc) as Hd by holds.
  assert (Forall (λ nd, Forall (λ s, is_object s = true) (PubSub.strokes nd))
            (PubSub.nodes inf_abc_cluster)) as Ho.
  { vm_compute. by repeat constructor. }
  split; [exact Hs|]. split; [reflexivity|]. split; [exact Hf|].
  split; [exact Hd|]. split; [exact Ho|].
  exact (every_node_filters_its_own_cache inf_abc_cluster 0 s1 (JInf false) _
           Hs eq_refl Hf Hd Ho).
Defined.

Example the_list_keeps_what_the_caches_drop :
  remainder (JInf false) board_inf_abc = board_inf_abc ∧
  remainder (through_JSON (JInf false)) board_inf_abc
  = [JObj [("path", JStr "B"); ("userId", JStr "u2")]].
Proof. by vm_compute. Qed.

Lemma adapter_draw_skips_the_sender_witness :
  Adapter.session (Adapter.run (Adapter.boot []) two_users) 0 s1
  = Some (JStr "u1") ∧
  truthy (JStr "u1") = true ∧
  faults (Adapter.environment (Adapter.run (Adapter.boot []) two_users)) = [] ∧
  ∃ new,
    history (step (ViaAdapter (Adapter.run (Adapter.boot []) two_users))
               (Draw 0 s1 (path "A")))
    = history (ViaAdapter (Adapter.run (Adapter.boot []) two_users)) ++ new ∧
    ∀ j s event arg, Emit j s event arg ∈ new →
      s ≠ s1 ∧
      is_Some (Adapter.session (Adapter.run (Adapter.boot []) two_users) j s) ∧
      event = "draw" ∧ arg = Some (stroke_of (JStr "u1") (path "A")).
Proof.
  split; [reflexivity|]. split; [reflexivity|]. split; [reflexivity|].
  exact (adapter_draw_skips_the_sender
           (Adapter.run (Adapter.boot []) two_users) 0 s1 (JStr "u1")
           (path "A") eq_refl eq_refl eq_refl).
Defined.

End more_concrete.

Section corrupt_concrete.
Import Whiteboard Demo Cases.
#[local] Existing Instance partial_codec.

Lemma register_rejects_on_a_corrupt_item_witness :
  is_Some (session adapter_corrupt 0 s1) ∧
  head (faults (environment adapter_corrupt)) ≠ Some true ∧
  None ∈ store adapter_corrupt ∧ JSON_parse (None : wire) = None ∧
  history (step adapter_corrupt (Register 0 s1 (as_user "u1")))
  = history adapter_corrupt
    ++ [Emit 0 s1 "user-info"
          (Some (JObj [("userId",
                        PubSub.assigned_userId (as_user "u1") s1)]));
        LRange true] ∧
  store (step adapter_corrupt (Register 0 s1 (as_user "u1")))
  = store adapter_corrupt ∧
  session (step adapter_corrupt (Register 0 s1 (as_user "u1"))) 0 s1
  = Some (PubSub.assigned_userId (as_user "u1") s1) ∧
  settle adapter_corrupt (Register 0 s1 (as_user "u1")) = Throw SyntaxError.
Proof.
  assert (is_Some (session adapter_corrupt 0 s1)) as Hs by (vm_compute; eauto).
  assert (head (faults (environment adapter_corrupt)) ≠ Some true) as Hf
    by by vm_compute.
  assert ((None : wire) ∈ store adapter_corrupt) as Hin by (right; left).
  split; [exact Hs|]. split; [exact Hf|]. split; [exact Hin|].
  split; [reflexivity|].
  exact (register_rejects_on_a_corrupt_item adapter_corrupt 0 s1 (as_user "u1")
           None Hs Hf Hin eq_refl).
Defined.

Lemma malformed_message_rejects_witness :
  JSON_parse (None : wire) = None ∧
  PubSub.on_message 0 (None : wire) (PubSub.boot [])
  = (PubSub.boot [], Throw SyntaxError).
Proof.
  split; [reflexivity|].
  exact (proj1 (malformed_message_rejects (PubSub.boot []) 0 None) eq_refl).
Defined.

End corrupt_concrete.
